(** * Incremental RAG index maintenance: text cleaning, fingerprints and
      change detection

    A shallow embedding of

    - [ResearchPaper_TO_Code/data_cleaning.py]
      ([clean_text], [normalize_text], [remove_references]), and
    - [ResearchPaper_Tutor_Assistant/ollama_rag_creation_updation.py]
      ([get_file_hash], [load_existing_metadata], [get_new_pdfs],
      [process_pdfs], [update_rag]),

    together with the properties of these functions.

    Python [str] values are sequences of Unicode code points; they are
    modelled as lists of [N].  The regular expressions of the cleaning
    module are kept as syntax trees and run by a backtracking matcher that
    follows the semantics of Python's [re] module (leftmost match, greedy
    quantifiers, a single scanning pass for [re.sub] and [re.split]). *)

From Stdlib Require Import NArith ZArith Lia Bool List Ascii String.
From stdpp Require Import base option list gmap strings.
Import ListNotations.

Set Default Proof Using "Type".
Local Open Scope N_scope.

(** ** Python strings *)

(** A character is a Unicode code point. *)
Abbreviation char := N (only parsing).
Abbreviation text := (list N) (only parsing).

(** ASCII literals of the source, as code points. *)
Definition lit (s : string) : text :=
  map N_of_ascii (list_ascii_of_string s).

Definition NL : char := 10.
Definition SP : char := 32.

Definition in_range (lo hi c : char) : bool := (lo <=? c) && (c <=? hi).

(** [str.isspace] on one character, which is also the class [\s] of [re] on
    [str] patterns and the set removed by [str.strip()]: the characters with
    bidirectional type WS, B or S, or of category Zs. *)
Definition is_space (c : char) : bool :=
  in_range 9 13 c || in_range 28 32 c || (c =? 133) || (c =? 160)
  || (c =? 5760) || in_range 8192 8202 c || (c =? 8232) || (c =? 8233)
  || (c =? 8239) || (c =? 8287) || (c =? 12288).

Definition ascii_digit (c : char) : bool := in_range 48 57 c.
Definition ascii_upper (c : char) : bool := in_range 65 90 c.
Definition ascii_lower (c : char) : bool := in_range 97 122 c.
Definition ascii_alnum (c : char) : bool :=
  ascii_digit c || ascii_upper c || ascii_lower c.

(** The Unicode character database outside the ASCII range.  The tables
    themselves belong to the interpreter, so they are taken as a parameter;
    the two laws are facts of every Unicode version (decimal digits are
    alphanumeric, white space is not). *)
Record unicode_db : Type := {
  uni_decimal : char -> bool;      (* category Nd, [\d] *)
  uni_alnum : char -> bool;        (* [str.isalnum] *)
  uni_tolower : char -> char;      (* simple lower-case mapping *)
  uni_lower : char -> text;        (* full lower-case mapping, [str.lower] *)
  uni_decimal_alnum : forall c, uni_decimal c = true -> uni_alnum c = true;
  uni_space_not_alnum : forall c, is_space c = true -> uni_alnum c = false
}.

(** The database with nothing outside ASCII: enough to run every function on
    ASCII input. *)
Definition ascii_only : unicode_db :=
  {| uni_decimal := fun _ => false;
     uni_alnum := fun _ => false;
     uni_tolower := fun c => c;
     uni_lower := fun c => [c];
     uni_decimal_alnum := fun c (H : false = true) => H;
     uni_space_not_alnum := fun c _ => eq_refl |}.

Section Chars.
Variable U : unicode_db.

(** [\d] *)
Definition is_digit (c : char) : bool :=
  if c <? 128 then ascii_digit c else uni_decimal U c.

(** [\w]: alphanumeric or underscore *)
Definition is_word (c : char) : bool :=
  if c <? 128 then ascii_alnum c || (c =? 95) else uni_alnum U c.

(** Simple lower-case mapping of one character. *)
Definition tolower (c : char) : char :=
  if c <? 128 then (if ascii_upper c then c + 32 else c) else uni_tolower U c.

(** [str.lower()] *)
Definition lower (s : text) : text :=
  flat_map (fun c => if c <? 128 then [tolower c] else uni_lower U c) s.
End Chars.

(** [str.startswith], [str.endswith] *)
Fixpoint startswith (s p : text) {struct p} : bool :=
  match p with
  | [] => true
  | a :: p' =>
      match s with
      | [] => false
      | b :: s' => (a =? b) && startswith s' p'
      end
  end.

Definition endswith (s p : text) : bool := startswith (rev s) (rev p).

(** The longest prefix of characters satisfying [f], and what follows it. *)
Fixpoint take_while (f : char -> bool) (s : text) : text :=
  match s with
  | c :: s' => if f c then c :: take_while f s' else []
  | [] => []
  end.

Fixpoint drop_while (f : char -> bool) (s : text) : text :=
  match s with
  | c :: s' => if f c then drop_while f s' else s
  | [] => []
  end.

(** [str.strip()] with no argument *)
Definition lstrip (s : text) : text := drop_while is_space s.

Definition rstrip (s : text) : text := rev (lstrip (rev s)).
Definition strip (s : text) : text := rstrip (lstrip s).

(** [str.replace(old, new)]: every non-overlapping occurrence of [old],
    leftmost first.  [skip] counts the characters of an occurrence that are
    still to be dropped.  ([old] is never empty in the source.) *)
Fixpoint replace_from (old new : text) (skip : nat) (s : text) : text :=
  match s with
  | [] => []
  | c :: s' =>
      match skip with
      | S k => replace_from old new k s'
      | O => if startswith s old
             then new ++ replace_from old new (length old - 1) s'
             else c :: replace_from old new 0 s'
      end
  end.

Definition replace (old new s : text) : text := replace_from old new 0 s.

(** ** Regular expressions ([re]) *)

Inductive cclass := Space | Digit | Word.

Inductive regex :=
| Eps                            (* the empty pattern *)
| Lit (c : char)                 (* a literal character *)
| Cls (k : cclass)               (* [\s], [\d], [\w] *)
| Cat (r1 r2 : regex)            (* r1 r2 *)
| Alt (r1 r2 : regex)            (* r1|r2 *)
| Star (r : regex)               (* r*, greedy *)
| Bol                            (* ^ *)
| Eol                            (* $ *)
| WordB                          (* \b *)
| NotBehind (c : char)           (* (?<!c) *)
| NotAhead (r : regex).          (* (?!r) *)

(** r+ *)
Definition Plus (r : regex) : regex := Cat r (Star r).

(** A literal word. *)
Fixpoint Lits (s : text) : regex :=
  match s with
  | [] => Eps
  | c :: s' => Cat (Lit c) (Lits s')
  end.

Record flags := { ignorecase : bool; multiline : bool }.
Definition NOFLAG := {| ignorecase := false; multiline := false |}.
Definition IGNORECASE := {| ignorecase := true; multiline := false |}.
Definition MULTILINE := {| ignorecase := false; multiline := true |}.

(** The state of a match attempt: the character before the current
    position (if any) and the text from the current position on. *)
Definition mstate : Type := option char * text.
Definition cont : Type := option char -> text -> option mstate.

Section Matcher.
Variable U : unicode_db.
Variable fl : flags.

Definition in_class (k : cclass) (c : char) : bool :=
  match k with
  | Space => is_space c
  | Digit => is_digit U c
  | Word => is_word U c
  end.

(** Other characters that [re] treats as case variants of a lower-case
    ASCII letter, besides the ones that lower-case to it. *)
Definition extra_cases (p : char) : list char :=
  if p =? 105 then [305] else if p =? 115 then [383] else [].

(** A literal of the pattern against a character of the text. *)
Definition lit_match (p c : char) : bool :=
  if ignorecase fl then
    let lo := tolower U p in
    let set := lo :: extra_cases lo in
    existsb (N.eqb c) set || existsb (N.eqb (tolower U c)) set
  else p =? c.

Definition word_opt (o : option char) : bool :=
  match o with Some c => is_word U c | None => false end.

Definition at_bol (prev : option char) : bool :=
  match prev with
  | None => true
  | Some c => multiline fl && (c =? NL)
  end.

Definition at_eol (rest : text) : bool :=
  match rest with
  | [] => true
  | c :: t => (c =? NL) && (multiline fl || match t with [] => true | _ => false end)
  end.

(** A greedy star: first try one more iteration of the body, which has to
    consume something, then fall back to what follows the star.  Every
    iteration shortens the text, so its length is enough fuel. *)
Fixpoint star_loop (body : option char -> text -> cont -> option mstate)
  (k : cont) (fuel : nat) (prev : option char) (rest : text) : option mstate :=
  match fuel with
  | O => k prev rest
  | S fuel' =>
      match body prev rest
              (fun p t => if (length t <? length rest)%nat
                          then star_loop body k fuel' p t else None) with
      | Some m => Some m
      | None => k prev rest
      end
  end.

(** Backtracking matcher in continuation-passing style: [k] is what
    remains to be matched after [r]. *)
Fixpoint rmatch (r : regex) (prev : option char) (rest : text) (k : cont)
  {struct r} : option mstate :=
  match r with
  | Eps => k prev rest
  | Lit p =>
      match rest with
      | c :: t => if lit_match p c then k (Some c) t else None
      | [] => None
      end
  | Cls cl =>
      match rest with
      | c :: t => if in_class cl c then k (Some c) t else None
      | [] => None
      end
  | Cat r1 r2 => rmatch r1 prev rest (fun p t => rmatch r2 p t k)
  | Alt r1 r2 =>
      match rmatch r1 prev rest k with
      | Some m => Some m
      | None => rmatch r2 prev rest k
      end
  | Star r1 => star_loop (rmatch r1) k (length rest) prev rest
  | Bol => if at_bol prev then k prev rest else None
  | Eol => if at_eol rest then k prev rest else None
  | WordB =>
      if xorb (word_opt prev) (word_opt (head rest)) then k prev rest else None
  | NotBehind c =>
      match prev with
      | Some p => if p =? c then None else k prev rest
      | None => k prev rest
      end
  | NotAhead r1 =>
      match rmatch r1 prev rest (fun p t => Some (p, t)) with
      | Some _ => None
      | None => k prev rest
      end
  end.

(** One match attempt at the current position.  After an empty match the
    scan stays where it is and asks for a match that consumes something
    ([must_advance]). *)
Definition match_here (r : regex) (must_advance : bool)
  (prev : option char) (rest : text) : option mstate :=
  rmatch r prev rest
    (fun p t => if must_advance && (length t =? length rest)%nat
                then None else Some (p, t)).

(** [re.sub(r, repl, s)] for a replacement without group references. *)
Fixpoint sub_loop (fuel : nat) (r : regex) (repl : text) (adv : bool)
  (prev : option char) (rest : text) : text :=
  match fuel with
  | O => rest
  | S fuel' =>
      match match_here r adv prev rest with
      | Some (p, t) =>
          repl ++ sub_loop fuel' r repl (length t =? length rest)%nat p t
      | None =>
          match rest with
          | [] => []
          | c :: t => c :: sub_loop fuel' r repl false (Some c) t
          end
      end
  end.

Definition re_sub (r : regex) (repl s : text) : text :=
  sub_loop (2 * length s + 2) r repl false None s.

(** [re.split(r, s)] for a pattern without groups; [cur] is the piece
    being collected. *)
Fixpoint split_loop (fuel : nat) (r : regex) (adv : bool)
  (prev : option char) (rest cur : text) : list text :=
  match fuel with
  | O => [cur ++ rest]
  | S fuel' =>
      match match_here r adv prev rest with
      | Some (p, t) =>
          cur :: split_loop fuel' r (length t =? length rest)%nat p t []
      | None =>
          match rest with
          | [] => [cur]
          | c :: t => split_loop fuel' r false (Some c) t (cur ++ [c])
          end
      end
  end.

Definition re_split (r : regex) (s : text) : list text :=
  split_loop (2 * length s + 2) r false None s [].

(** [re.search(r, s) is not None] *)
Fixpoint search_from (r : regex) (prev : option char) (rest : text) : bool :=
  match match_here r false prev rest with
  | Some _ => true
  | None =>
      match rest with
      | [] => false
      | c :: t => search_from r (Some c) t
      end
  end.

Definition re_search (r : regex) (s : text) : bool := search_from r None s.
End Matcher.

(** ** [data_cleaning.py] *)

Module Patterns.
(** [\n+] *)
Definition newlines : regex := Plus (Lit NL).
(** [\bPage\s*\d+\b] *)
Definition page_number : regex :=
  Cat WordB (Cat (Lits (lit "Page"))
    (Cat (Star (Cls Space)) (Cat (Plus (Cls Digit)) WordB))).
(** [^\s*\d+\s*$] *)
Definition digit_line : regex :=
  Cat Bol (Cat (Star (Cls Space))
    (Cat (Plus (Cls Digit)) (Cat (Star (Cls Space)) Eol))).
(** [(?<!\n)\n(?!\n)] *)
Definition single_newline : regex :=
  Cat (NotBehind NL) (Cat (Lit NL) (NotAhead (Lit NL))).
(** [\s+] *)
Definition spaces : regex := Plus (Cls Space).
(** [\bReferences\b|\bBibliography\b] *)
Definition references : regex :=
  Alt (Cat WordB (Cat (Lits (lit "References")) WordB))
      (Cat WordB (Cat (Lits (lit "Bibliography")) WordB)).
End Patterns.

Section DataCleaning.
Variable U : unicode_db.

Definition clean_text (text0 : text) : text :=
  (* Remove multiple line breaks *)
  let text1 := re_sub U NOFLAG Patterns.newlines [NL] text0 in
  (* Remove page numbers or isolated digits *)
  let text2 := re_sub U IGNORECASE Patterns.page_number [] text1 in
  let text3 := re_sub U MULTILINE Patterns.digit_line [] text2 in
  (* Merge single newlines (within paragraphs) *)
  let text4 := re_sub U NOFLAG Patterns.single_newline [SP] text3 in
  (* Remove excessive spaces *)
  let text5 := re_sub U NOFLAG Patterns.spaces [SP] text4 in
  strip text5.

(** The ligatures U+FB01, U+FB02 and the quotes U+201C, U+201D, U+2019. *)
Definition normalize_text (text0 : text) : text :=
  let text1 := replace [64258] (lit "fl") (replace [64257] (lit "fi") text0) in
  replace [8217] [39] (replace [8221] [34] (replace [8220] [34] text1)).

Definition remove_references (text0 : text) : text :=
  let parts := re_split U IGNORECASE Patterns.references text0 in
  match parts with
  | p :: _ => p
  | [] => text0
  end.
End DataCleaning.

(** ** [hashlib.md5] *)

(** Raw bytes ([bytes] objects) are lists of numbers below 256. *)
Abbreviation bytes := (list N) (only parsing).

Module MD5.

Definition w32 (x : N) : N := x mod 4294967296.
Definition add32 (a b : N) : N := w32 (a + b).
Definition not32 (a : N) : N := N.lxor a 4294967295.
Definition rotl32 (x c : N) : N :=
  w32 (N.lor (N.shiftl x c) (N.shiftr x (32 - c))).

(** Per-round shift amounts. *)
Definition S : list N :=
  [7; 12; 17; 22; 7; 12; 17; 22; 7; 12; 17; 22; 7; 12; 17; 22;
   5; 9; 14; 20; 5; 9; 14; 20; 5; 9; 14; 20; 5; 9; 14; 20;
   4; 11; 16; 23; 4; 11; 16; 23; 4; 11; 16; 23; 4; 11; 16; 23;
   6; 10; 15; 21; 6; 10; 15; 21; 6; 10; 15; 21; 6; 10; 15; 21].

(** K[i] = floor(2^32 * abs(sin(i + 1))) *)
Definition K : list N :=
  [0xd76aa478; 0xe8c7b756; 0x242070db; 0xc1bdceee;
   0xf57c0faf; 0x4787c62a; 0xa8304613; 0xfd469501;
   0x698098d8; 0x8b44f7af; 0xffff5bb1; 0x895cd7be;
   0x6b901122; 0xfd987193; 0xa679438e; 0x49b40821;
   0xf61e2562; 0xc040b340; 0x265e5a51; 0xe9b6c7aa;
   0xd62f105d; 0x02441453; 0xd8a1e681; 0xe7d3fbc8;
   0x21e1cde6; 0xc33707d6; 0xf4d50d87; 0x455a14ed;
   0xa9e3e905; 0xfcefa3f8; 0x676f02d9; 0x8d2a4c8a;
   0xfffa3942; 0x8771f681; 0x6d9d6122; 0xfde5380c;
   0xa4beea44; 0x4bdecfa9; 0xf6bb4b60; 0xbebfbc70;
   0x289b7ec6; 0xeaa127fa; 0xd4ef3085; 0x04881d05;
   0xd9d4d039; 0xe6db99e5; 0x1fa27cf8; 0xc4ac5665;
   0xf4292244; 0x432aff97; 0xab9423a7; 0xfc93a039;
   0x655b59c3; 0x8f0ccc92; 0xffeff47d; 0x85845dd1;
   0x6fa87e4f; 0xfe2ce6e0; 0xa3014314; 0x4e0811a1;
   0xf7537e82; 0xbd3af235; 0x2ad7d2bb; 0xeb86d391].

Definition state : Type := N * N * N * N.

Definition init : state := (0x67452301, 0xefcdab89, 0x98badcfe, 0x10325476).

(** Little-endian bytes of a number, [n] of them. *)
Fixpoint le_bytes (n : nat) (x : N) : list N :=
  match n with
  | O => []
  | Datatypes.S n' => (x mod 256) :: le_bytes n' (x / 256)
  end.

Fixpoint le_word (bs : list N) : N :=
  match bs with
  | [] => 0
  | b :: bs' => b + 256 * le_word bs'
  end.

(** The message followed by 0x80, zeros up to 56 modulo 64, and the bit
    length on 64 bits. *)
Definition pad (msg : list N) : list N :=
  let len := length msg in
  let zeros := ((119 - len mod 64) mod 64)%nat in
  msg ++ [128] ++ repeat 0 zeros
      ++ le_bytes 8 ((8 * N.of_nat len) mod 18446744073709551616).

(** The sixteen 32-bit words of a 64-byte block. *)
Fixpoint words (n : nat) (block : list N) : list N :=
  match n with
  | O => []
  | Datatypes.S n' => le_word (take 4 block) :: words n' (drop 4 block)
  end.

Definition step (M : list N) (st : state) (i : nat) : state :=
  let '(A, B, C, D) := st in
  let '(f, g) :=
    if (i <? 16)%nat then (N.lor (N.land B C) (N.land (not32 B) D), i)
    else if (i <? 32)%nat
      then (N.lor (N.land D B) (N.land (not32 D) C), ((5 * i + 1) mod 16)%nat)
    else if (i <? 48)%nat
      then (N.lxor B (N.lxor C D), ((3 * i + 5) mod 16)%nat)
    else (N.lxor C (N.lor B (not32 D)), ((7 * i) mod 16)%nat) in
  let F := add32 (add32 (add32 f A) (nth i K 0)) (nth g M 0) in
  (D, add32 B (rotl32 F (nth i S 0)), B, C).

Definition block (st : state) (blk : list N) : state :=
  let M := words 16 blk in
  let '(A, B, C, D) := fold_left (step M) (seq 0 64) st in
  let '(a0, b0, c0, d0) := st in
  (add32 a0 A, add32 b0 B, add32 c0 C, add32 d0 D).

Fixpoint blocks (n : nat) (st : state) (data : list N) : state :=
  match n with
  | O => st
  | Datatypes.S n' => blocks n' (block st (take 64 data)) (drop 64 data)
  end.

Definition digest (msg : list N) : list N :=
  let data := pad msg in
  let '(a, b, c, d) := blocks (length data / 64) init data in
  le_bytes 4 a ++ le_bytes 4 b ++ le_bytes 4 c ++ le_bytes 4 d.

Definition hex_digit (n : N) : N := if n <? 10 then 48 + n else 87 + n.

Definition hexdigest (msg : list N) : list N :=
  flat_map (fun b => [hex_digit (b / 16); hex_digit (b mod 16)]) (digest msg).

End MD5.

(** A hash object: the bytes fed to it so far. *)
Record md5_hasher := { hashed : bytes }.

Definition md5_new : md5_hasher := {| hashed := [] |}.
Definition md5_update (h : md5_hasher) (buf : bytes) : md5_hasher :=
  {| hashed := hashed h ++ buf |}.
Definition md5_hexdigest (h : md5_hasher) : text := MD5.hexdigest (hashed h).

(** ** Exceptions, files and paths *)

Inductive exn :=
| OSError          (* a file or folder cannot be opened or listed *)
| LoaderError      (* the PDF loader cannot extract a file *)
| EmbeddingError   (* the embedding model fails *)
| StoreError.      (* the vector store fails *)

Inductive result (A : Type) : Type :=
| Ok (a : A)
| Raise (e : exn).
Arguments Ok {A} a.
Arguments Raise {A} e.

(** The part of the file system the program looks at: the names in a folder
    ([os.listdir]) and the contents of the readable regular files. *)
Record file_system := {
  fs_listdir : text -> option (list text);
  fs_read : text -> option bytes
}.

(** An open binary file: its contents and the read position. *)
Record file_obj := { f_data : bytes; f_pos : nat }.

(** [open(filepath, "rb")] *)
Definition open_rb (fs : file_system) (filepath : text) : result file_obj :=
  match fs_read fs filepath with
  | Some data => Ok {| f_data := data; f_pos := 0 |}
  | None => Raise OSError
  end.

(** [f.read()]: everything from the read position to the end. *)
Definition file_read (f : file_obj) : bytes * file_obj :=
  (drop (f_pos f) (f_data f), {| f_data := f_data f; f_pos := length (f_data f) |}).

(** [os.listdir] *)
Definition os_listdir (fs : file_system) (folder : text) : result (list text) :=
  match fs_listdir fs folder with
  | Some names => Ok names
  | None => Raise OSError
  end.

Definition SEP : char := 47.

(** [os.path.join(a, b)] (POSIX) *)
Definition path_join (a b : text) : text :=
  if startswith b [SEP] then b
  else if match a with [] => true | _ => endswith a [SEP] end then a ++ b
  else a ++ [SEP] ++ b.

(** [str.rfind(c)] for one character: the last index of [c], or -1. *)
Fixpoint rfind_from (c : char) (p : text) (i found : Z) : Z :=
  match p with
  | [] => found
  | x :: p' => rfind_from c p' (i + 1)%Z (if x =? c then i else found)
  end.

Definition str_rfind (p : text) (c : char) : Z := rfind_from c p 0%Z (-1)%Z.

(** [os.path.basename(p)] (POSIX) *)
Definition basename (p : text) : text :=
  let i := (str_rfind p SEP + 1)%Z in
  drop (Z.to_nat i) p.

(** [a < b] on strings: lexicographic, by code point. *)
Fixpoint text_ltb (a b : text) : bool :=
  match a, b with
  | _, [] => false
  | [], _ :: _ => true
  | x :: a', y :: b' => (x <? y) || ((x =? y) && text_ltb a' b')
  end.

(** [a == b] on strings *)
Fixpoint text_eqb (a b : text) : bool :=
  match a, b with
  | [], [] => true
  | x :: a', y :: b' => (x =? y) && text_eqb a' b'
  | _, _ => false
  end.

(** Decimal digits of a number; [fuel] bounds their count. *)
Fixpoint dec_digits (fuel : nat) (n : N) : text :=
  match fuel with
  | O => []
  | Datatypes.S fuel' =>
      (if n <? 10 then [] else dec_digits fuel' (n / 10)) ++ [48 + n mod 10]
  end.

(** [str(n)] *)
Definition str_of_N (n : N) : text := dec_digits (Datatypes.S (N.to_nat (N.log2 n))) n.

(** [f"{n:03d}"] *)
Definition format_03d (n : N) : text :=
  let s := str_of_N n in
  repeat 48 (3 - length s) ++ s.

(** ** [ollama_rag_creation_updation.py] *)

(** A LangChain document. *)
Record document := { page_content : text; metadata : gmap string text }.

(** An embedding vector; its components never matter here. *)
Definition vector : Type := list Z.

(** What the vector store holds for one chunk. *)
Definition stored : Type := document * vector.

(** The collaborators of the pipeline and the configuration flag. *)
Record collaborators := {
  (* PyPDFLoader(filepath).load() *)
  loader_load : text -> result (list document);
  (* RecursiveCharacterTextSplitter(chunk_size=1500, chunk_overlap=200)
       .split_documents *)
  split_documents : list document -> list document;
  (* OllamaEmbeddings(model="mxbai-embed-large").embed_documents *)
  embed_documents : list text -> result (list vector);
  (* whether the store takes a batch in add_documents, and whether persist()
     returns normally on the collection *)
  store_accepts : list stored -> bool;
  store_persists : list stored -> bool;
  (* the values drawn by uuid.uuid4(), in order *)
  uuid4 : nat -> text;
  (* cfg.CLEAN_REFERENCES *)
  CLEAN_REFERENCES : bool
}.

(** The state a run works on: the persisted collection ([None] when the
    persistence directory does not exist) and the number of identifiers
    drawn so far. *)
Record run_state := {
  disk : option (list stored);
  uuids_drawn : nat
}.

(** Computations that read and write the state and may raise. *)
Definition M (A : Type) : Type := run_state -> result A * run_state.

Definition ret {A} (a : A) : M A := fun st => (Ok a, st).
Definition raise {A} (e : exn) : M A := fun st => (Raise e, st).
Definition bind {A B} (m : M A) (k : A -> M B) : M B :=
  fun st =>
    match m st with
    | (Ok a, st') => k a st'
    | (Raise e, st') => (Raise e, st')
    end.
Definition lift {A} (r : result A) : M A := fun st => (r, st).

Notation "'let!' x ':=' m 'in' k" := (bind m (fun x => k))
  (at level 10, x name, m at level 100, k at level 200).

(** The [Chroma] object.  The collection lives in the persistence
    directory, in insertion order.  Creating the object opens it, and makes
    the directory with an empty collection when there is none.
    [add_documents] has all the texts embedded first and then writes the
    whole batch (one vector per text) into the collection on disk, or it
    raises with nothing written.  [persist] finds the entries on disk
    already and writes nothing more; it may still raise. *)
Definition chroma_open : M (list stored) :=
  fun st =>
    let db := default [] (disk st) in
    (Ok db, {| disk := Some db; uuids_drawn := uuids_drawn st |}).

Definition chroma_get_metadatas (db : list stored) : list (gmap string text) :=
  map (fun e => metadata (fst e)) db.

Definition chroma_add_documents (c : collaborators) (db : list stored)
  (docs : list document) : M (list stored) :=
  match embed_documents c (map page_content docs) with
  | Raise e => raise e
  | Ok vecs =>
      let batch := zip docs vecs in
      if (length vecs =? length docs)%nat && store_accepts c batch
      then fun st =>
             (Ok (db ++ batch),
              {| disk := Some (db ++ batch); uuids_drawn := uuids_drawn st |})
      else raise StoreError
  end.

Definition chroma_persist (c : collaborators) (db : list stored) : M unit :=
  fun st =>
    if store_persists c db then (Ok tt, st) else (Raise StoreError, st).

Definition draw_uuids (c : collaborators) (n : nat) : M (list text) :=
  fun st =>
    (Ok (map (uuid4 c) (seq (uuids_drawn st) n)),
     {| disk := disk st; uuids_drawn := uuids_drawn st + n |}).

Section Pipeline.
Variable U : unicode_db.
Variable fs : file_system.
Variable c : collaborators.

Definition get_file_hash (filepath : text) : result text :=
  let hasher := md5_new in
  match open_rb fs filepath with
  | Raise e => Raise e
  | Ok f =>
      let '(buf, _) := file_read f in
      let hasher := md5_update hasher buf in
      Ok (md5_hexdigest hasher)
  end.

(** The body of the loop of [load_existing_metadata]. *)
Definition record_hash (existing : gmap text text) (meta : gmap string text)
  : gmap text text :=
  match meta !! "source"%string, meta !! "hash"%string with
  | Some source, Some hash => <[basename source := hash]> existing
  | _, _ => existing
  end.

(** [load_existing_metadata], as a function of what the persistence
    directory holds. *)
Definition load_existing_metadata (persisted : option (list stored))
  : gmap text text :=
  match persisted with
  | None => ∅
  | Some db =>
      let docs := chroma_get_metadatas db in
      foldl record_hash ∅ docs
  end.

(** [filename.lower().endswith(".pdf")] *)
Definition is_pdf (filename : text) : bool :=
  endswith (lower U filename) (lit ".pdf").

Fixpoint scan_folder (existing_hashes : gmap text text) (folder : text)
  (names new_files : list text) : result (list text) :=
  match names with
  | [] => Ok new_files
  | filename :: names' =>
      if negb (is_pdf filename)
      then scan_folder existing_hashes folder names' new_files
      else
        let filepath := path_join folder filename in
        match get_file_hash filepath with
        | Raise e => Raise e
        | Ok file_hash =>
            let changed :=
              match existing_hashes !! filename with
              | None => true
              | Some known => negb (text_eqb known file_hash)
              end in
            scan_folder existing_hashes folder names'
              (if changed then new_files ++ [filepath] else new_files)
        end
  end.

Definition get_new_pdfs (pdf_folder : text) (existing_hashes : gmap text text)
  : result (list text) :=
  match os_listdir fs pdf_folder with
  | Raise e => Raise e
  | Ok names => scan_folder existing_hashes pdf_folder names []
  end.

(** The cleaning of one page. *)
Definition clean_page (d : document) : document :=
  let content := normalize_text (clean_text U (page_content d)) in
  {| page_content := if CLEAN_REFERENCES c then remove_references U content
                     else content;
     metadata := metadata d |}.

(** [f"{os.path.basename(filepath)}_{idx:03d}"] *)
Definition chunk_id (filepath : text) (idx : nat) : text :=
  basename filepath ++ lit "_" ++ format_03d (N.of_nat idx).

(** The metadata written on the chunk at index [idx]. *)
Definition tag_chunk (filepath file_hash : text) (idx : nat) (uuid : text)
  (chunk : document) : document :=
  {| page_content := page_content chunk;
     metadata :=
       <["uuid"%string := uuid]>
         (<["chunk_id"%string := chunk_id filepath idx]>
            (<["hash"%string := file_hash]>
               (<["source"%string := filepath]> (metadata chunk)))) |}.

Definition tag_chunks (filepath file_hash : text) (uuids : list text)
  (chunks : list document) : list document :=
  imap (fun idx '(chunk, uuid) => tag_chunk filepath file_hash idx uuid chunk)
       (zip chunks uuids).

(** The body of the loop over the files. *)
Definition process_file (filepath : text) : M (list document) :=
  let! docs := lift (loader_load c filepath) in
  let docs := map clean_page docs in
  let chunks := split_documents c docs in
  let! file_hash := lift (get_file_hash filepath) in
  let! uuids := draw_uuids c (length chunks) in
  ret (tag_chunks filepath file_hash uuids chunks).

Fixpoint process_files (pdf_files : list text) (all_docs : list document)
  : M (list document) :=
  match pdf_files with
  | [] => ret all_docs
  | filepath :: rest =>
      let! chunks := process_file filepath in
      process_files rest (all_docs ++ chunks)
  end.

Definition process_pdfs (pdf_files : list text) : M unit :=
  match pdf_files with
  | [] => ret tt
  | _ :: _ =>
      let! all_docs := process_files pdf_files [] in
      let! db := chroma_open in
      let! db := chroma_add_documents c db all_docs in
      chroma_persist c db
  end.

Definition update_rag (pdf_folder : text) : M unit :=
  let! existing := (fun st => (Ok (load_existing_metadata (disk st)), st)) in
  let! new_pdfs := lift (get_new_pdfs pdf_folder existing) in
  process_pdfs new_pdfs.

End Pipeline.

(** * Vocabulary of the properties *)

(** ** Regular expressions, declaratively *)

(** The character before the position reached after reading [w]. *)
Definition last_of (prev : option char) (w : text) : option char :=
  match last w with
  | Some c => Some c
  | None => prev
  end.

(** Iteration of a relation on non-empty pieces. *)
Inductive star_rel (R : option char -> text -> text -> Prop) :
  option char -> text -> text -> Prop :=
| star_done prev t : star_rel R prev [] t
| star_more prev w1 w2 t :
    w1 <> [] ->
    R prev w1 (w2 ++ t) ->
    star_rel R (last_of prev w1) w2 t ->
    star_rel R prev (w1 ++ w2) t.

Section SemanticsDefs.
Variable U : unicode_db.
Variable fl : flags.

(** [matches r prev w t]: the pattern [r] can match the piece [w] when [w]
    is preceded by [prev] and followed by [t]. *)
Fixpoint matches (r : regex) (prev : option char) (w t : text) {struct r} : Prop :=
  match r with
  | Eps => w = []
  | Lit p => exists c, w = [c] /\ lit_match U fl p c = true
  | Cls cl => exists c, w = [c] /\ in_class U cl c = true
  | Cat r1 r2 =>
      exists w1 w2, w = w1 ++ w2 /\ matches r1 prev w1 (w2 ++ t)
                    /\ matches r2 (last_of prev w1) w2 t
  | Alt r1 r2 => matches r1 prev w t \/ matches r2 prev w t
  | Star r1 => star_rel (matches r1) prev w t
  | Bol => w = [] /\ at_bol fl prev = true
  | Eol => w = [] /\ at_eol fl t = true
  | WordB => w = [] /\ xorb (word_opt U prev) (word_opt U (head t)) = true
  | NotBehind c => w = [] /\ prev <> Some c
  | NotAhead r1 => w = [] /\ forall w' t', t = w' ++ t' -> ~ matches r1 prev w' t'
  end.

(** The matcher and the semantics agree: a result of [rmatch] comes from the
    continuation after some piece that [r] matches, and whenever [r] matches
    a piece after which the continuation succeeds, [rmatch] succeeds. *)
Definition sound_for (r : regex) : Prop :=
  forall prev rest k m,
    rmatch U fl r prev rest k = Some m ->
    exists w t, rest = w ++ t /\ matches r prev w t /\ k (last_of prev w) t = Some m.

Definition complete_for (r : regex) : Prop :=
  forall prev w t k,
    matches r prev w t -> is_Some (k (last_of prev w) t) ->
    is_Some (rmatch U fl r prev (w ++ t) k).

(** A pattern that never matches the empty piece. *)
Definition nonempty_pat (r : regex) : Prop :=
  forall prev w t, matches r prev w t -> w <> [].

(** The text produced by the scan from one position on. *)
Definition resub (r : regex) (repl : text) (prev : option char) (rest : text) : text :=
  sub_loop U fl (S (length rest)) r repl false prev rest.

End SemanticsDefs.

(** Some position of [x] (preceded by [prev]) satisfies [b]. *)
Fixpoint exists_at (b : option char -> text -> bool) (prev : option char)
  (x : text) {struct x} : bool :=
  b prev x || match x with
              | [] => false
              | c :: t => exists_at b (Some c) t
              end.

(** ** Tokens *)

Section TokenDefs.
Variable U : unicode_db.

(** The rest of the text after the letters of [tok], compared without
    regard to case, together with the last character read. *)
Fixpoint after_token (fl : flags) (tok : text) (prev : option char) (x : text)
  : option mstate :=
  match tok with
  | [] => Some (prev, x)
  | p :: tok' =>
      match x with
      | c :: x' => if lit_match U fl p c then after_token fl tok' (Some c) x' else None
      | [] => None
      end
  end.

(** A word boundary between two neighbouring characters (or text ends). *)
Definition word_boundary (before after : option char) : bool :=
  xorb (word_opt U before) (word_opt U after).

(** [tok] occurs at the start of [x] as a whole word, in any mix of
    cases. *)
Definition token_at (tok : text) (prev : option char) (x : text) : bool :=
  word_boundary prev (head x)
  && match after_token IGNORECASE tok prev x with
     | Some (p, t) => word_boundary p (head t)
     | None => false
     end.

Definition ref_at (prev : option char) (x : text) : bool :=
  token_at (lit "References") prev x || token_at (lit "Bibliography") prev x.

(** Position of the first such occurrence. *)
Fixpoint first_ref (prev : option char) (x : text) {struct x} : option nat :=
  if ref_at prev x then Some O
  else match x with
       | [] => None
       | c :: x' => S <$> first_ref (Some c) x'
       end.

(** A letter of a token that matches neither a line break nor a space. *)
Definition plain_letter (a : char) : Prop :=
  lit_match U IGNORECASE a NL = false /\ lit_match U IGNORECASE a SP = false.

End TokenDefs.

Definition not_nl (c : char) : bool := negb (c =? NL).

Definition starts_with (f : char -> bool) (x : text) : bool :=
  match x with c :: _ => f c | [] => false end.

(** [x] starts with white space, digits, and white space up to the end of a
    line: an "isolated" number. *)
Definition digit_line_at (U : unicode_db) (x : text) : bool :=
  let x1 := drop_while is_space x in
  starts_with (is_digit U) x1
  && forallb is_space (take_while not_nl (drop_while (is_digit U) x1)).

Definition dl_here (U : unicode_db) (prev : option char) (x : text) : bool :=
  at_bol MULTILINE prev && digit_line_at U x.

(** After the word "Page": optional white space, digits, and then no word
    character. *)
Definition page_tail (U : unicode_db) (x1 : text) : bool :=
  let x2 := drop_while is_space x1 in
  starts_with (is_digit U) x2
  && negb (word_opt U (head (drop_while (is_digit U) x2))).

(** A page-number token ([Page <digits>], in any case, as a whole word)
    starts [x]. *)
Definition page_at (U : unicode_db) (prev : option char) (x : text) : bool :=
  word_boundary U prev (head x)
  && match after_token U IGNORECASE (lit "Page") prev x with
     | Some (_, x1) => page_tail U x1
     | None => false
     end.

(** ** What the passes of the cleaning do *)

(** What [normalize_text] does to one character. *)
Definition norm_char (c : char) : text :=
  if c =? 64257 then lit "fi"
  else if c =? 64258 then lit "fl"
  else if (c =? 8220) || (c =? 8221) then [34]
  else if c =? 8217 then [39]
  else [c].

(** Every run of line breaks becomes one line break; [after_nl] tells
    whether the previous character was a line break. *)
Fixpoint squeeze_from (after_nl : bool) (s : text) : text :=
  match s with
  | [] => []
  | c :: t =>
      if c =? NL
      then (if after_nl then squeeze_from true t else NL :: squeeze_from true t)
      else c :: squeeze_from false t
  end.

Definition squeeze_newlines (s : text) : text := squeeze_from false s.

Definition is_nl (o : option char) : bool :=
  match o with Some c => c =? NL | None => false end.

(** A line break with no line break next to it becomes a space; every
    other character stays. *)
Fixpoint merge_single (prev : option char) (s : text) : text :=
  match s with
  | [] => []
  | c :: t =>
      (if (c =? NL) && negb (is_nl prev) && negb (is_nl (head t)) then SP else c)
      :: merge_single (Some c) t
  end.

(** Every run of white space becomes one space; [in_run] tells whether the
    previous character was white space. *)
Fixpoint collapse_from (in_run : bool) (s : text) : text :=
  match s with
  | [] => []
  | c :: t =>
      if is_space c
      then (if in_run then collapse_from true t else SP :: collapse_from true t)
      else c :: collapse_from false t
  end.

Definition collapse_ws (s : text) : text := collapse_from false s.

(** White space only as single spaces between other characters. *)
Fixpoint spaced_ok (after_space : bool) (s : text) : bool :=
  match s with
  | [] => negb after_space
  | c :: t =>
      if is_space c then negb after_space && (c =? SP) && spaced_ok true t
      else spaced_ok false t
  end.

Definition tidy (s : text) : bool :=
  match s with [] => true | _ => spaced_ok true s end.

(** Like [spaced_ok], but a space at the very end is allowed. *)
Fixpoint pre_ok (after_space : bool) (s : text) : bool :=
  match s with
  | [] => true
  | c :: t =>
      if is_space c then negb after_space && (c =? SP) && pre_ok true t
      else pre_ok false t
  end.

(** ** Files, detection and runs *)

Definition no_sep (f : text) : bool := forallb (fun x => negb (x =? SEP)) f.

Section PipelineDefs.
Variable U : unicode_db.
Variable fs : file_system.
Variable c : collaborators.

(** The chunks of a file before tagging. *)
Definition chunks_of (pages : list document) : list document :=
  split_documents c (map (clean_page U c) pages).

(** A file cannot be processed when the loader or the read fails. *)
Definition file_fails (filepath : text) : Prop :=
  (exists e, loader_load c filepath = Raise e) \/ fs_read fs filepath = None.

(** The fingerprint of the file differs from the known one, or none is
    known. *)
Definition changed (K : gmap text text) (folder filename : text) : bool :=
  match get_file_hash fs (path_join folder filename) with
  | Ok file_hash =>
      match K !! filename with
      | None => true
      | Some known => negb (text_eqb known file_hash)
      end
  | Raise _ => false
  end.

Definition detected (K : gmap text text) (folder filename : text) : bool :=
  is_pdf U filename && changed K folder filename.

Definition pdfs_readable (folder : text) (names : list text) : Prop :=
  forall f, In f names -> is_pdf U f = true ->
            is_Some (fs_read fs (path_join folder f)).



(** The loader reads the file, and the splitter makes no chunk of it. *)
Definition yields_nothing (filepath : text) : bool :=
  match loader_load c filepath with
  | Ok pages => match chunks_of pages with [] => true | _ :: _ => false end
  | Raise _ => false
  end.

(** A stored chunk carries the path of its file and the fingerprint of the
    file. *)
Definition doc_of (p : text) (d : document) : Prop :=
  metadata d !! "source"%string = Some p
  /\ exists h, get_file_hash fs p = Ok h /\ metadata d !! "hash"%string = Some h.

End PipelineDefs.

(** ** A small world to run the pipeline on *)

Module Demo.

Definition folder : text := lit "papers".

(** A folder with two PDF files and a text file. *)
Definition fs : file_system :=
  {| fs_listdir := fun d =>
       if text_eqb d folder
       then Some [lit "a.PDF"; lit "notes.txt"; lit "b.pdf"] else None;
     fs_read := fun p =>
       if text_eqb p (lit "papers/a.PDF") then Some (lit "abc")
       else if text_eqb p (lit "papers/b.pdf") then Some (lit "message digest")
       else if text_eqb p (lit "papers/notes.txt") then Some (lit "notes")
       else None |}.

(** A folder with an ordinary PDF file and a scanned one, from which no
    text comes out. *)
Definition fs_scan : file_system :=
  {| fs_listdir := fun d =>
       if text_eqb d folder then Some [lit "a.PDF"; lit "scan.pdf"] else None;
     fs_read := fun p =>
       if text_eqb p (lit "papers/a.PDF") then Some (lit "abc")
       else if text_eqb p (lit "papers/scan.pdf") then Some [37; 80; 68; 70]
       else None |}.

Definition page (content : text) : document :=
  {| page_content := content; metadata := ∅ |}.

(** The loader fails on "broken.pdf", finds no text in "scan.pdf" and one
    page in every other file; the splitter makes one chunk of every page
    that has text. *)
Definition collab : collaborators :=
  {| loader_load := fun p =>
       if text_eqb p (lit "papers/broken.pdf") then Raise LoaderError
       else if text_eqb p (lit "papers/scan.pdf") then Ok [page []]
       else Ok [page (lit "Hello" ++ [NL] ++ lit "Page 2" ++ [NL] ++ lit "world")];
     split_documents :=
       List.filter (fun d => negb (text_eqb (page_content d) []));
     embed_documents := fun texts => Ok (map (fun _ => [1%Z]) texts);
     store_accepts := fun _ => true;
     store_persists := fun _ => true;
     uuid4 := fun n => lit "uuid-" ++ str_of_N (N.of_nat n);
     CLEAN_REFERENCES := true |}.



(** The same as [collab], with a loader that finds three pages in a file. *)
Definition collab_pages : collaborators :=
  {| loader_load := fun _ =>
       Ok [page (lit "First page."); page (lit "Second page.");
           page (lit "Third page.")];
     split_documents := split_documents collab;
     embed_documents := embed_documents collab;
     store_accepts := fun _ => true;
     store_persists := fun _ => true;
     uuid4 := uuid4 collab;
     CLEAN_REFERENCES := true |}.

(** Nothing persisted yet. *)
Definition fresh : run_state := {| disk := None; uuids_drawn := 0 |}.

Definition after_first_run : run_state :=
  snd (update_rag ascii_only fs collab folder fresh).

End Demo.

(** ** Vocabulary of the further properties *)

(** One of the characters [normalize_text] rewrites: the ligatures U+FB01,
    U+FB02 and the quotes U+201C, U+201D, U+2019. *)
Definition typographic (c : char) : bool :=
  (c =? 64257) || (c =? 64258) || (c =? 8220) || (c =? 8221) || (c =? 8217).

(** A lower-case hexadecimal digit. *)
Definition is_hex (c : char) : bool := in_range 48 57 c || in_range 97 102 c.

(** The metadata [meta] of a stored chunk record the fingerprint [h] for
    the file name [f]. *)
Definition records (meta : gmap string text) (f h : text) : Prop :=
  exists s, meta !! "source"%string = Some s
            /\ meta !! "hash"%string = Some h /\ basename s = f.

(** What one entry says about the file name [f], if anything. *)
Definition entry_for (f : text) (meta : gmap string text) : option text :=
  match meta !! "source"%string, meta !! "hash"%string with
  | Some s, Some h => if decide (basename s = f) then Some h else None
  | _, _ => None
  end.

(** The last entry about [f] decides. *)
Fixpoint last_entry (f : text) (metas : list (gmap string text)) : option text :=
  match metas with
  | [] => None
  | meta :: metas' =>
      match last_entry f metas' with
      | Some h => Some h
      | None => entry_for f meta
      end
  end.

(** ** More small worlds *)

Module Cases.

(** A folder in which one entry named like a PDF cannot be read. *)
Definition fs_locked : file_system :=
  {| fs_listdir := fun d =>
       if text_eqb d Demo.folder then Some [lit "a.PDF"; lit "locked.pdf"] else None;
     fs_read := fun p =>
       if text_eqb p (lit "papers/a.PDF") then Some (lit "abc") else None |}.

End Cases.

(** * Properties *)

(** ** [normalize_text] *)

Section NormalizeFacts.

Lemma replace_single (o : char) (new s : text) :
  replace [o] new s = flat_map (fun c => if c =? o then new else [c]) s.
Proof.
  unfold replace. induction s as [|c s IH]; [reflexivity|].
  cbn [replace_from startswith flat_map length Nat.sub].
  rewrite andb_true_r, N.eqb_sym, IH.
  destruct (c =? o); reflexivity.
Qed.

Lemma flat_map_comp {A B C} (f : A -> list B) (g : B -> list C) (l : list A) :
  flat_map g (flat_map f l) = flat_map (fun a => flat_map g (f a)) l.
Proof.
  induction l as [|a l IH]; [reflexivity|].
  cbn [flat_map]. now rewrite flat_map_app, IH.
Qed.

Ltac char_cases c :=
  repeat match goal with
    | |- context [c =? ?n] =>
        destruct (N.eqb_spec c n) as [->|?]; try reflexivity; try lia
    end.

Lemma normalize_text_chars (s : text) :
  normalize_text s = flat_map norm_char s.
Proof.
  unfold normalize_text. rewrite !replace_single, !flat_map_comp.
  apply flat_map_ext. intros c. unfold norm_char.
  char_cases c.
  repeat (progress cbn [flat_map app orb]; char_cases c).
Qed.

Lemma norm_char_fixed (c : char) :
  flat_map norm_char (norm_char c) = norm_char c.
Proof.
  unfold norm_char at 2. char_cases c.
  cbn [orb flat_map]. rewrite app_nil_r.
  unfold norm_char. char_cases c.
Qed.

End NormalizeFacts.

(** C7: [normalize_text] is idempotent. *)
Theorem normalize_text_idempotent (t : text) :
  normalize_text (normalize_text t) = normalize_text t.
Proof.
  rewrite !normalize_text_chars, flat_map_comp.
  apply flat_map_ext. intros c. apply norm_char_fixed.
Qed.

(** ** The matcher against a declarative semantics *)

Section Semantics.
Variable U : unicode_db.
Variable fl : flags.

Lemma last_of_nil prev : last_of prev [] = prev.
Proof. reflexivity. Qed.

Lemma last_of_app prev (w1 w2 : text) :
  last_of prev (w1 ++ w2) = last_of (last_of prev w1) w2.
Proof.
  unfold last_of. destruct w2 as [|c w2] using rev_ind.
  - rewrite app_nil_r. cbn. destruct (last w1); reflexivity.
  - rewrite app_assoc, !last_snoc. reflexivity.
Qed.

Lemma last_of_single prev (c : char) : last_of prev [c] = Some c.
Proof. reflexivity. Qed.

Lemma last_of_cons prev (c : char) (w : text) :
  last_of prev (c :: w) = last_of (Some c) w.
Proof. change (c :: w) with ([c] ++ w). now rewrite last_of_app. Qed.

Lemma star_loop_sound (r1 : regex) :
  sound_for U fl r1 ->
  forall k fuel prev rest m,
    star_loop (rmatch U fl r1) k fuel prev rest = Some m ->
    exists w t, rest = w ++ t /\ star_rel (matches U fl r1) prev w t
                /\ k (last_of prev w) t = Some m.
Proof.
  intros Hs k fuel. induction fuel as [|fuel IH]; intros prev rest m H.
  - exists [], rest. split; [reflexivity|]. split; [constructor|exact H].
  - cbn [star_loop] in H.
    destruct (rmatch U fl r1 prev rest _) as [m'|] eqn:E.
    + injection H as ->.
      apply Hs in E as (w1 & t1 & -> & Hm & Hk).
      destruct (length t1 <? length (w1 ++ t1))%nat eqn:Hlt; [|discriminate].
      apply IH in Hk as (w2 & t & -> & Hstar & Hk).
      exists (w1 ++ w2), t. rewrite <- app_assoc. split; [reflexivity|].
      split.
      * constructor; try assumption.
        intros ->. apply Nat.ltb_lt in Hlt. cbn in Hlt. lia.
      * now rewrite last_of_app.
    + exists [], rest. split; [reflexivity|]. split; [constructor|exact H].
Qed.

Lemma star_loop_complete (r1 : regex) :
  complete_for U fl r1 ->
  forall k prev w t,
    star_rel (matches U fl r1) prev w t -> is_Some (k (last_of prev w) t) ->
    forall fuel, (length (w ++ t) <= fuel)%nat ->
    is_Some (star_loop (rmatch U fl r1) k fuel prev (w ++ t)).
Proof.
  intros Hc k prev w t Hstar. induction Hstar as [prev t|prev w1 w2 t Hne Hm Hstar IH];
    intros Hk fuel Hfuel.
  - cbn [app] in *. destruct fuel as [|fuel]; [exact Hk|].
    cbn [star_loop]. destruct (rmatch U fl r1 prev t _); [eauto|exact Hk].
  - destruct fuel as [|fuel].
    { destruct w1; [congruence|cbn in Hfuel; lia]. }
    cbn [star_loop]. rewrite <- app_assoc.
    match goal with
    | |- is_Some (match ?X with _ => _ end) => assert (is_Some X) as [m' ->]
    end; [|eauto].
    apply Hc; [exact Hm|].
    assert ((length (w2 ++ t) <? length (w1 ++ w2 ++ t))%nat = true) as ->.
    { apply Nat.ltb_lt. rewrite (length_app w1). destruct w1; [congruence|cbn; lia]. }
    apply IH.
    + now rewrite <- last_of_app.
    + rewrite <- app_assoc, (length_app w1) in Hfuel.
      destruct w1; [congruence|cbn in Hfuel; lia].
Qed.

Theorem rmatch_correct (r : regex) : sound_for U fl r /\ complete_for U fl r.
Proof.
  induction r as [|p|cl|r1 [S1 C1] r2 [S2 C2]|r1 [S1 C1] r2 [S2 C2]|r1 [S1 C1]
                 | | | |c|r1 [S1 C1]]; split.
  - (* Eps *) intros prev rest k m H. exists [], rest. now repeat split.
  - intros prev w t k -> H. exact H.
  - (* Lit *) intros prev rest k m H. cbn [rmatch] in H.
    destruct rest as [|c t]; [discriminate|].
    destruct (lit_match U fl p c) eqn:E; [|discriminate].
    exists [c], t. split; [reflexivity|]. split; [exists c; auto|exact H].
  - intros prev w t k (c & -> & Hc) H. cbn [rmatch app]. now rewrite Hc.
  - (* Cls *) intros prev rest k m H. cbn [rmatch] in H.
    destruct rest as [|c t]; [discriminate|].
    destruct (in_class U cl c) eqn:E; [|discriminate].
    exists [c], t. split; [reflexivity|]. split; [exists c; auto|exact H].
  - intros prev w t k (c & -> & Hc) H. cbn [rmatch app]. now rewrite Hc.
  - (* Cat *) intros prev rest k m H. cbn [rmatch] in H.
    apply S1 in H as (w1 & t1 & -> & M1 & H).
    apply S2 in H as (w2 & t & -> & M2 & H).
    exists (w1 ++ w2), t. rewrite <- app_assoc, last_of_app.
    split; [reflexivity|]. split; [|exact H]. exists w1, w2. auto.
  - intros prev w t k (w1 & w2 & -> & M1 & M2) H. cbn [rmatch].
    rewrite <- app_assoc. apply C1; [exact M1|].
    apply C2; [exact M2|]. now rewrite <- last_of_app.
  - (* Alt *) intros prev rest k m H. cbn [rmatch] in H.
    destruct (rmatch U fl r1 prev rest k) as [m'|] eqn:E.
    + injection H as ->. apply S1 in E as (w & t & -> & M & H).
      exists w, t. cbn [matches]. auto.
    + apply S2 in H as (w & t & -> & M & H).
      exists w, t. cbn [matches]. auto.
  - intros prev w t k M H. cbn [rmatch].
    destruct (rmatch U fl r1 prev (w ++ t) k) as [m'|] eqn:E; [eauto|].
    destruct M as [M|M]; [|now apply C2].
    apply (C1 _ _ _ k) in M; [|exact H]. rewrite E in M. now destruct M.
  - (* Star *) intros prev rest k m H. cbn [rmatch] in H.
    now apply star_loop_sound in H.
  - intros prev w t k M H. cbn [rmatch]. now apply star_loop_complete.
  - (* Bol *) intros prev rest k m H. cbn [rmatch] in H.
    destruct (at_bol fl prev) eqn:E; [|discriminate].
    exists [], rest. now repeat split.
  - intros prev w t k (-> & Hb) H. cbn [rmatch app]. now rewrite Hb.
  - (* Eol *) intros prev rest k m H. cbn [rmatch] in H.
    destruct (at_eol fl rest) eqn:E; [|discriminate].
    exists [], rest. now repeat split.
  - intros prev w t k (-> & Hb) H. cbn [rmatch app]. now rewrite Hb.
  - (* WordB *) intros prev rest k m H. cbn [rmatch] in H.
    destruct (xorb _ _) eqn:E; [|discriminate].
    exists [], rest. now repeat split.
  - intros prev w t k (-> & Hb) H. cbn [rmatch app]. now rewrite Hb.
  - (* NotBehind *) intros prev rest k m H. cbn [rmatch] in H.
    exists [], rest. split; [reflexivity|].
    destruct prev as [p|]; [destruct (N.eqb_spec p c); [discriminate|]|];
      (split; [split; [reflexivity|congruence]|exact H]).
  - intros prev w t k (-> & Hb) H. cbn [rmatch app].
    destruct prev as [p|]; [|exact H].
    destruct (N.eqb_spec p c); [congruence|exact H].
  - (* NotAhead *) intros prev rest k m H. cbn [rmatch] in H.
    destruct (rmatch U fl r1 prev rest _) as [m'|] eqn:E; [discriminate|].
    exists [], rest. split; [reflexivity|]. split; [|exact H].
    split; [reflexivity|]. intros w' t' -> M.
    apply (C1 _ _ _ (fun p t => Some (p, t))) in M; [|eauto].
    rewrite E in M. now destruct M.
  - intros prev w t k (-> & Hn) H. cbn [rmatch app].
    destruct (rmatch U fl r1 prev t _) as [m'|] eqn:E; [|exact H].
    apply S1 in E as (w' & t' & -> & M & _). now apply Hn in M.
Qed.

Lemma rmatch_sound r prev rest k m :
  rmatch U fl r prev rest k = Some m ->
  exists w t, rest = w ++ t /\ matches U fl r prev w t /\ k (last_of prev w) t = Some m.
Proof. apply rmatch_correct. Qed.

Lemma rmatch_complete r prev w t k :
  matches U fl r prev w t -> is_Some (k (last_of prev w) t) ->
  is_Some (rmatch U fl r prev (w ++ t) k).
Proof. apply rmatch_correct. Qed.

Lemma rmatch_none r prev rest k :
  rmatch U fl r prev rest k = None ->
  forall w t, rest = w ++ t -> matches U fl r prev w t -> k (last_of prev w) t = None.
Proof.
  intros H w t -> M. destruct (k (last_of prev w) t) eqn:E; [|reflexivity].
  apply (rmatch_complete _ _ _ _ k) in M; [|eauto].
  rewrite H in M. now destruct M.
Qed.

End Semantics.

(** ** One scanning pass of [re.sub] *)

Section Scan.
Variable U : unicode_db.
Variable fl : flags.

Lemma match_here_some r adv prev rest p t :
  match_here U fl r adv prev rest = Some (p, t) ->
  exists w, rest = w ++ t /\ matches U fl r prev w t /\ p = last_of prev w.
Proof.
  unfold match_here. intros H.
  apply rmatch_sound in H as (w & t' & -> & M & H).
  destruct (adv && _); [discriminate|]. injection H as <- <-. eauto.
Qed.

Lemma match_here_none r prev rest :
  match_here U fl r false prev rest = None ->
  forall w t, rest = w ++ t -> ~ matches U fl r prev w t.
Proof.
  unfold match_here. intros H w t E M.
  now apply (rmatch_none _ _ _ _ _ _ H w t E) in M.
Qed.

Lemma match_here_is_some r prev w t :
  matches U fl r prev w t -> is_Some (match_here U fl r false prev (w ++ t)).
Proof. intros M. unfold match_here. eapply rmatch_complete; eauto. Qed.

Lemma sub_loop_fuel r repl :
  nonempty_pat U fl r ->
  forall fuel fuel' prev rest,
    (length rest < fuel)%nat -> (length rest < fuel')%nat ->
    sub_loop U fl fuel r repl false prev rest
    = sub_loop U fl fuel' r repl false prev rest.
Proof.
  intros Hne fuel. induction fuel as [|fuel IH]; intros fuel' prev rest H1 H2; [lia|].
  destruct fuel' as [|fuel']; [lia|]. cbn [sub_loop].
  destruct (match_here U fl r false prev rest) as [[p t]|] eqn:E.
  - destruct (match_here_some _ _ _ _ _ _ E) as (w & -> & M & ->).
    apply Hne in M.
    assert (length t < length (w ++ t))%nat as Hlt.
    { rewrite length_app. destruct w; [congruence|cbn; lia]. }
    assert ((length t =? length (w ++ t))%nat = false) as ->
      by (apply Nat.eqb_neq; lia).
    f_equal. apply IH; lia.
  - destruct rest as [|c t]; [reflexivity|]. f_equal. cbn in H1, H2. apply IH; lia.
Qed.

Lemma re_sub_resub r repl s :
  nonempty_pat U fl r -> re_sub U fl r repl s = resub U fl r repl None s.
Proof. intros Hne. apply sub_loop_fuel; [exact Hne|lia|lia]. Qed.

Lemma resub_match r repl prev w t :
  nonempty_pat U fl r ->
  match_here U fl r false prev (w ++ t) = Some (last_of prev w, t) -> w <> [] ->
  resub U fl r repl prev (w ++ t) = repl ++ resub U fl r repl (last_of prev w) t.
Proof.
  intros Hne E Hw. unfold resub at 1. cbn [sub_loop]. rewrite E.
  assert (length t < length (w ++ t))%nat as Hlt.
  { rewrite length_app. destruct w; [congruence|cbn; lia]. }
  assert ((length t =? length (w ++ t))%nat = false) as ->
    by (apply Nat.eqb_neq; lia).
  f_equal. unfold resub. apply sub_loop_fuel; [exact Hne|lia|lia].
Qed.

Lemma resub_skip r repl prev c t :
  match_here U fl r false prev (c :: t) = None ->
  resub U fl r repl prev (c :: t) = c :: resub U fl r repl (Some c) t.
Proof. intros E. unfold resub at 1. cbn [sub_loop]. now rewrite E. Qed.

Lemma resub_nil r repl prev :
  nonempty_pat U fl r -> resub U fl r repl prev [] = [].
Proof.
  intros Hne. unfold resub. cbn [sub_loop length].
  destruct (match_here U fl r false prev []) as [[p t]|] eqn:E; [|reflexivity].
  destruct (match_here_some _ _ _ _ _ _ E) as (w & Hw & M & _).
  apply Hne in M. destruct w; [congruence|discriminate].
Qed.

(** Induction along the scan: at each position either nothing matches and
    one character is copied, or a non-empty piece is replaced. *)
Lemma resub_ind r repl (P : option char -> text -> text -> Prop) :
  nonempty_pat U fl r ->
  (forall prev, P prev [] []) ->
  (forall prev c t,
      match_here U fl r false prev (c :: t) = None ->
      P (Some c) t (resub U fl r repl (Some c) t) ->
      P prev (c :: t) (c :: resub U fl r repl (Some c) t)) ->
  (forall prev w t,
      w <> [] -> matches U fl r prev w t ->
      match_here U fl r false prev (w ++ t) = Some (last_of prev w, t) ->
      P (last_of prev w) t (resub U fl r repl (last_of prev w) t) ->
      P prev (w ++ t) (repl ++ resub U fl r repl (last_of prev w) t)) ->
  forall prev rest, P prev rest (resub U fl r repl prev rest).
Proof.
  intros Hne Hnil Hskip Hmatch prev rest.
  remember (length rest) as n eqn:Hn. revert prev rest Hn.
  induction n as [n IH] using lt_wf_ind. intros prev rest ->.
  destruct (match_here U fl r false prev rest) as [[p t]|] eqn:E.
  - destruct (match_here_some _ _ _ _ _ _ E) as (w & -> & M & ->).
    pose proof (Hne _ _ _ M) as Hw.
    rewrite resub_match by assumption.
    apply Hmatch; try assumption.
    eapply IH; [|reflexivity].
    rewrite length_app. destruct w; [congruence|cbn; lia].
  - destruct rest as [|c t].
    + rewrite resub_nil by assumption. apply Hnil.
    + rewrite resub_skip by assumption. apply Hskip; [assumption|].
      eapply IH; [|reflexivity]. cbn. lia.
Qed.

End Scan.

(** ** Pieces matched by the patterns of [data_cleaning.py] *)

Section PatternFacts.
Variable U : unicode_db.
Variable fl : flags.

Lemma take_drop_while f (s : text) : take_while f s ++ drop_while f s = s.
Proof.
  induction s as [|c s IH]; [reflexivity|]. cbn.
  destruct (f c); [cbn; now rewrite IH|reflexivity].
Qed.

Lemma take_while_all f (s : text) : forallb f (take_while f s) = true.
Proof.
  induction s as [|c s IH]; [reflexivity|]. cbn.
  destruct (f c) eqn:E; [cbn; now rewrite E|reflexivity].
Qed.

Lemma drop_while_head f (s : text) c :
  head (drop_while f s) = Some c -> f c = false.
Proof.
  induction s as [|a s IH]; [discriminate|]. cbn.
  destruct (f a) eqn:E; [exact IH|]. cbn. now intros [= <-].
Qed.

Lemma drop_while_length f (s : text) : (length (drop_while f s) <= length s)%nat.
Proof.
  induction s as [|a s IH]; [reflexivity|]. cbn.
  destruct (f a); cbn; lia.
Qed.

Lemma In_drop_while f (s : text) x : In x (drop_while f s) -> In x s.
Proof.
  induction s as [|a s IH]; [tauto|]. cbn.
  destruct (f a); [auto|tauto].
Qed.

(** A starred class matches exactly the pieces made of its characters. *)
Lemma matches_star_cls cl prev w t :
  matches U fl (Star (Cls cl)) prev w t <-> forallb (in_class U cl) w = true.
Proof.
  cbn [matches]. split.
  - induction 1 as [|prev w1 w2 t Hne (c & -> & Hc) _ IH]; [reflexivity|].
    cbn. now rewrite Hc.
  - revert prev. induction w as [|c w IH]; intros prev H; [constructor|].
    cbn in H. apply andb_true_iff in H as [Hc Hw].
    change (c :: w) with ([c] ++ w). constructor; [discriminate| |].
    + exists c. auto.
    + apply IH, Hw.
Qed.

Lemma matches_plus_cls cl prev w t :
  matches U fl (Plus (Cls cl)) prev w t
  <-> w <> [] /\ forallb (in_class U cl) w = true.
Proof.
  unfold Plus. cbn [matches]. split.
  - intros (w1 & w2 & -> & (c & -> & Hc) & Hs).
    split; [discriminate|]. change (star_rel _ _ _ _) with
      (matches U fl (Star (Cls cl)) (last_of prev [c]) w2 t) in Hs.
    apply matches_star_cls in Hs. cbn. now rewrite Hc.
  - intros [Hne H]. destruct w as [|c w]; [congruence|].
    cbn in H. apply andb_true_iff in H as [Hc Hw].
    exists [c], w. split; [reflexivity|]. split; [exists c; auto|].
    change (star_rel _ _ _ _) with
      (matches U fl (Star (Cls cl)) (last_of prev [c]) w t).
    now apply matches_star_cls.
Qed.

(** A greedy starred class takes the longest run when what follows can
    match after it. *)
Lemma star_cls_greedy cl k prev rest :
  is_Some (k (last_of prev (take_while (in_class U cl) rest))
             (drop_while (in_class U cl) rest)) ->
  rmatch U fl (Star (Cls cl)) prev rest k
  = k (last_of prev (take_while (in_class U cl) rest))
      (drop_while (in_class U cl) rest).
Proof.
  cbn [rmatch]. revert prev. induction rest as [|c t IH]; intros prev H.
  - reflexivity.
  - cbn [length star_loop rmatch take_while drop_while] in *.
    destruct (in_class U cl c) eqn:Hc; [|reflexivity].
    assert ((length t <? S (length t))%nat = true) as -> by (apply Nat.ltb_lt; lia).
    rewrite last_of_cons in *. rewrite IH by exact H.
    destruct H as [m ->]. reflexivity.
Qed.

End PatternFacts.

Section SpacesPass.
Variable U : unicode_db.

Lemma spaces_nonempty : nonempty_pat U NOFLAG Patterns.spaces.
Proof. intros prev w t M. now apply matches_plus_cls in M. Qed.

Lemma spaces_no_match prev c t :
  match_here U NOFLAG Patterns.spaces false prev (c :: t) = None ->
  is_space c = false.
Proof.
  intros H. destruct (is_space c) eqn:E; [|reflexivity].
  exfalso. apply (match_here_none _ _ _ _ _ H [c] t eq_refl).
  apply matches_plus_cls. split; [discriminate|]. cbn. now rewrite E.
Qed.

(** What the last pass of [clean_text] leaves: characters that are not white
    space, and single spaces. *)
Lemma spaces_pass_chars (s : text) :
  Forall (fun x => is_space x = false \/ x = SP)
         (re_sub U NOFLAG Patterns.spaces [SP] s).
Proof.
  rewrite re_sub_resub by apply spaces_nonempty.
  apply (resub_ind U NOFLAG Patterns.spaces [SP]
           (fun _ _ out => Forall (fun x => is_space x = false \/ x = SP) out)).
  - apply spaces_nonempty.
  - constructor.
  - intros prev c t H IH. constructor; [|exact IH].
    left. eapply spaces_no_match, H.
  - intros prev w t _ _ _ IH. constructor; [now right|exact IH].
Qed.

Lemma In_strip (s : text) x : In x (strip s) -> In x s.
Proof.
  unfold strip, rstrip, lstrip. intros H.
  apply in_rev, In_drop_while, in_rev in H. now apply In_drop_while in H.
Qed.

End SpacesPass.

(** ** [remove_references] *)

Section References.
Variable U : unicode_db.

Lemma after_token_matches fl tok prev x p t :
  after_token U fl tok prev x = Some (p, t) ->
  exists w, x = w ++ t /\ p = last_of prev w /\ matches U fl (Lits tok) prev w t.
Proof.
  revert prev x. induction tok as [|a tok IH]; intros prev x H; cbn in H.
  - injection H as <- <-. exists []. now repeat split.
  - destruct x as [|c x]; [discriminate|].
    destruct (lit_match U fl a c) eqn:E; [|discriminate].
    apply IH in H as (w & -> & -> & M).
    exists (c :: w). split; [reflexivity|]. split; [now rewrite last_of_cons|].
    cbn [Lits matches]. exists [c], w. split; [reflexivity|].
    split; [exists c; auto|exact M].
Qed.

Lemma matches_after_token fl tok prev w t :
  matches U fl (Lits tok) prev w t ->
  after_token U fl tok prev (w ++ t) = Some (last_of prev w, t).
Proof.
  revert prev w. induction tok as [|a tok IH]; intros prev w M; cbn in M.
  - subst w. reflexivity.
  - destruct M as (w1 & w2 & -> & (c & -> & Hc) & M).
    cbn [app after_token]. rewrite Hc, last_of_cons.
    now apply IH.
Qed.

Lemma match_here_iff fl r prev x :
  is_Some (match_here U fl r false prev x)
  <-> exists w t, x = w ++ t /\ matches U fl r prev w t.
Proof.
  split.
  - intros [[p t] H]. apply match_here_some in H as (w & -> & M & _). eauto.
  - intros (w & t & -> & M). now apply match_here_is_some.
Qed.

Lemma whole_word_matches tok prev x :
  (exists w t, x = w ++ t
     /\ matches U IGNORECASE (Cat WordB (Cat (Lits tok) WordB)) prev w t)
  <-> token_at U tok prev x = true.
Proof.
  unfold token_at, word_boundary. split.
  - intros (w & t & -> & w1 & w2 & -> & (-> & Hb1) & w3 & w4 & -> & M & (-> & Hb2)).
    cbn [app] in *. rewrite app_nil_r in *. rewrite last_of_nil in *.
    rewrite Hb1. apply matches_after_token in M. rewrite M. exact Hb2.
  - intros H. apply andb_true_iff in H as [Hb1 H].
    destruct (after_token U IGNORECASE tok prev x) as [[p t]|] eqn:E; [|discriminate].
    apply after_token_matches in E as (w & -> & -> & M).
    exists w, t. split; [reflexivity|]. exists [], w. split; [reflexivity|].
    split; [now split|]. exists w, []. rewrite app_nil_r. cbn [app].
    split; [reflexivity|]. split; [exact M|]. now split.
Qed.

Lemma references_match prev x :
  is_Some (match_here U IGNORECASE Patterns.references false prev x)
  <-> ref_at U prev x = true.
Proof.
  rewrite match_here_iff. unfold ref_at, Patterns.references.
  rewrite orb_true_iff, <- !whole_word_matches. cbn [matches].
  split.
  - intros (w & t & E & [M|M]); [left|right]; eauto.
  - intros [(w & t & E & M)|(w & t & E & M)]; eauto.
Qed.

(** The first piece returned by the split is the text before the first
    match. *)
Lemma split_loop_first fuel prev rest cur :
  (length rest < fuel)%nat ->
  head (split_loop U IGNORECASE fuel Patterns.references false prev rest cur)
  = Some (cur ++ match first_ref U prev rest with
                 | Some i => take i rest
                 | None => rest
                 end).
Proof.
  revert prev rest cur. induction fuel as [|fuel IH]; intros prev rest cur Hf; [lia|].
  cbn [split_loop].
  pose proof (references_match prev rest) as Hm.
  destruct (match_here U IGNORECASE Patterns.references false prev rest)
    as [[p t]|] eqn:E.
  - assert (ref_at U prev rest = true) as Hr by (apply Hm; eauto).
    destruct rest; cbn [first_ref]; rewrite Hr; cbn; now rewrite app_nil_r.
  - assert (ref_at U prev rest = false) as Hr.
    { destruct (ref_at U prev rest); [|reflexivity].
      destruct Hm as [_ Hm]. destruct (Hm eq_refl) as [? ?]. discriminate. }
    destruct rest as [|c t]; cbn [first_ref]; rewrite Hr.
    + cbn. now rewrite app_nil_r.
    + rewrite IH by (cbn in Hf; lia). rewrite <- app_assoc. cbn [app].
      destruct (first_ref U (Some c) t); reflexivity.
Qed.

Lemma first_ref_spec prev x i :
  first_ref U prev x = Some i ->
  ref_at U (last_of prev (take i x)) (drop i x) = true
  /\ forall j, (j < i)%nat -> ref_at U (last_of prev (take j x)) (drop j x) = false.
Proof.
  revert prev i. induction x as [|c x IH]; intros prev i; cbn [first_ref].
  - destruct (ref_at U prev []) eqn:E; [|discriminate].
    intros [= <-]. split; [exact E|lia].
  - destruct (ref_at U prev (c :: x)) eqn:E.
    + intros [= <-]. split; [exact E|lia].
    + destruct (first_ref U (Some c) x) as [i'|] eqn:F; [|discriminate].
      intros [= <-]. destruct (IH _ _ F) as [H1 H2].
      cbn [take drop]. rewrite last_of_cons. split; [exact H1|].
      intros [|j] Hj; [exact E|].
      cbn [take drop]. rewrite last_of_cons. apply H2. lia.
Qed.

Lemma first_ref_none prev x :
  first_ref U prev x = None ->
  forall j, ref_at U (last_of prev (take j x)) (drop j x) = false.
Proof.
  revert prev. induction x as [|c x IH]; intros prev; cbn [first_ref].
  - destruct (ref_at U prev []) eqn:E; [discriminate|].
    intros _ [|j]; exact E.
  - destruct (ref_at U prev (c :: x)) eqn:E; [discriminate|].
    destruct (first_ref U (Some c) x) eqn:F; [discriminate|].
    intros _ [|j]; [exact E|].
    cbn [take drop]. rewrite last_of_cons. now apply IH.
Qed.

End References.

(** C5: [remove_references] returns the text before the first whole-word
    occurrence, in any case, of "References" or "Bibliography", and the
    whole text when there is none; the text of the example is cut right
    after the line break that precedes "References". *)
Theorem remove_references_prefix (U : unicode_db) (t : text) :
  remove_references U t
  = match first_ref U None t with
    | Some i => take i t
    | None => t
    end
  /\ (forall i, first_ref U None t = Some i ->
        ref_at U (last_of None (take i t)) (drop i t) = true
        /\ forall j, (j < i)%nat ->
             ref_at U (last_of None (take j t)) (drop j t) = false)
  /\ (first_ref U None t = None ->
        forall j, ref_at U (last_of None (take j t)) (drop j t) = false)
  /\ remove_references U
       (lit "...body text..." ++ [NL] ++ lit "References" ++ [NL] ++ lit "[1] foo")
     = lit "...body text..." ++ [NL].
Proof.
  split; [|split; [|split]].
  - unfold remove_references, re_split.
    pose proof (split_loop_first U (2 * length t + 2) None t []) as H.
    specialize (H ltac:(lia)).
    destruct (split_loop U IGNORECASE _ _ _ _ _ _) as [|p ps]; cbn in H.
    + discriminate H.
    + injection H as ->. reflexivity.
  - intros i. apply first_ref_spec.
  - apply first_ref_none.
  - vm_compute. reflexivity.
Qed.

(** ** The white-space passes of [clean_text] *)

Section WhiteSpace.
Variable U : unicode_db.

Lemma collapse_in_run (s : text) :
  collapse_from true s = collapse_from false (drop_while is_space s).
Proof.
  induction s as [|c s IH]; [reflexivity|]. cbn.
  destruct (is_space c) eqn:E; [exact IH|]. cbn. now rewrite E.
Qed.

Lemma spaces_match prev c t :
  is_space c = true ->
  match_here U NOFLAG Patterns.spaces false prev (c :: t)
  = Some (last_of (Some c) (take_while is_space t), drop_while is_space t).
Proof.
  intros Hc. unfold match_here, Patterns.spaces, Plus.
  change (rmatch U NOFLAG (Cat ?a ?b) ?p ?x ?k)
    with (rmatch U NOFLAG a p x (fun p' t' => rmatch U NOFLAG b p' t' k)).
  change (rmatch U NOFLAG (Cls Space) prev (c :: t) ?k)
    with (if is_space c then k (Some c) t else None).
  rewrite Hc. rewrite star_cls_greedy; cbn [in_class andb]; eauto.
Qed.

(** The pass [re.sub(r'\s+', ' ', text)]. *)
Lemma spaces_pass (s : text) :
  re_sub U NOFLAG Patterns.spaces [SP] s = collapse_ws s.
Proof.
  rewrite re_sub_resub by apply spaces_nonempty. unfold collapse_ws.
  apply (resub_ind U NOFLAG Patterns.spaces [SP]
           (fun _ rest out => out = collapse_from false rest)).
  - apply spaces_nonempty.
  - reflexivity.
  - intros prev c t H IH. apply spaces_no_match in H.
    cbn [collapse_from]. now rewrite H, IH.
  - intros prev w t Hw M E IH.
    apply matches_plus_cls in M as [_ M].
    destruct w as [|c w]; [congruence|]. cbn in M.
    apply andb_true_iff in M as [Hc _].
    cbn [app] in E. rewrite (spaces_match prev c (w ++ t) Hc) in E.
    injection E as _ E.
    cbn [app collapse_from]. rewrite Hc, collapse_in_run, E, IH. reflexivity.
Qed.

Lemma single_newline_nonempty : nonempty_pat U NOFLAG Patterns.single_newline.
Proof.
  intros prev w t (w1 & w2 & -> & _ & w3 & w4 & -> & (c & -> & _) & _).
  destruct w1; discriminate.
Qed.

Lemma single_newline_matches prev w t :
  matches U NOFLAG Patterns.single_newline prev w t
  <-> w = [NL] /\ is_nl prev = false /\ is_nl (head t) = false.
Proof.
  unfold Patterns.single_newline. cbn [matches]. split.
  - intros (w1 & w2 & -> & (-> & Hp) & w3 & w4 & -> & (c & -> & Hc) & (-> & Hn)).
    change (lit_match U NOFLAG NL c) with (NL =? c) in Hc.
    apply N.eqb_eq in Hc. subst c. cbn [app].
    split; [reflexivity|]. split.
    + destruct prev as [p|]; [|reflexivity]. cbn.
      apply N.eqb_neq. intros ->. now apply Hp.
    + destruct t as [|a t]; [reflexivity|]. cbn.
      apply N.eqb_neq. intros ->.
      apply (Hn [NL] t eq_refl). exists NL. split; reflexivity.
  - intros (-> & Hp & Hn).
    exists [], [NL]. split; [reflexivity|]. split.
    + split; [reflexivity|]. intros ->. discriminate.
    + exists [NL], []. split; [reflexivity|]. split; [exists NL; split; reflexivity|].
      split; [reflexivity|]. intros w' t' -> (c & -> & Hc).
      change (lit_match U NOFLAG NL c) with (NL =? c) in Hc.
      apply N.eqb_eq in Hc. subst c. discriminate.
Qed.

(** The pass [re.sub(r'(?<!\n)\n(?!\n)', ' ', text)]. *)
Lemma single_newline_pass_from prev (s : text) :
  resub U NOFLAG Patterns.single_newline [SP] prev s = merge_single prev s.
Proof.
  apply (resub_ind U NOFLAG Patterns.single_newline [SP]
           (fun prev rest out => out = merge_single prev rest)).
  - apply single_newline_nonempty.
  - reflexivity.
  - intros p c t H IH. cbn [merge_single]. rewrite IH. f_equal.
    destruct ((c =? NL) && negb (is_nl p) && negb (is_nl (head t))) eqn:E;
      [|reflexivity].
    exfalso. apply andb_true_iff in E as [E E3]. apply andb_true_iff in E as [E1 E2].
    apply N.eqb_eq in E1. subst c.
    apply (match_here_none _ _ _ _ _ H [NL] t eq_refl).
    apply single_newline_matches.
    now destruct (is_nl p), (is_nl (head t)).
  - intros p w t Hw M E IH.
    apply single_newline_matches in M as (-> & Hp & Hn).
    cbn [app merge_single last_of last] in *. rewrite IH.
    now rewrite Hp, Hn.
Qed.

Lemma single_newline_pass (s : text) :
  re_sub U NOFLAG Patterns.single_newline [SP] s = merge_single None s.
Proof.
  rewrite re_sub_resub by apply single_newline_nonempty.
  apply single_newline_pass_from.
Qed.

(** Merging single line breaks changes nothing for the pass that follows:
    line breaks are white space. *)
Lemma collapse_merge b prev (s : text) :
  collapse_from b (merge_single prev s) = collapse_from b s.
Proof.
  revert b prev. induction s as [|c s IH]; intros b prev; [reflexivity|].
  cbn [merge_single collapse_from].
  destruct ((c =? NL) && negb (is_nl prev) && negb (is_nl (head s))) eqn:E.
  - apply andb_true_iff in E as [E _]. apply andb_true_iff in E as [E _].
    apply N.eqb_eq in E. subst c.
    change (is_space SP) with true. change (is_space NL) with true.
    now rewrite IH.
  - destruct (is_space c); now rewrite IH.
Qed.

End WhiteSpace.

(** ** [str.strip] *)

Section Strip.

Lemma drop_while_app f (a b : text) :
  drop_while f (a ++ b)
  = if forallb f a then drop_while f b else drop_while f a ++ b.
Proof.
  induction a as [|c a IH]; [reflexivity|]. cbn.
  destruct (f c); [exact IH|reflexivity].
Qed.

Lemma forallb_rev {A} (f : A -> bool) (l : list A) :
  forallb f (rev l) = forallb f l.
Proof.
  induction l as [|a l IH]; [reflexivity|]. cbn.
  rewrite forallb_app, IH. cbn. rewrite andb_true_r. apply andb_comm.
Qed.

Lemma drop_while_all f (s : text) :
  forallb f s = true -> drop_while f s = [].
Proof.
  induction s as [|c s IH]; [reflexivity|]. cbn.
  destruct (f c); [exact IH|discriminate].
Qed.

(** [rstrip] read from the left. *)
Lemma rstrip_cons c (t : text) :
  rstrip (c :: t)
  = if is_space c && forallb is_space t then [] else c :: rstrip t.
Proof.
  unfold rstrip, lstrip. cbn [rev]. rewrite drop_while_app, forallb_rev.
  destruct (forallb is_space t) eqn:Ht.
  - rewrite andb_true_r. cbn. destruct (is_space c); [reflexivity|].
    cbn. rewrite drop_while_all by now rewrite forallb_rev. reflexivity.
  - rewrite andb_false_r, rev_app_distr. reflexivity.
Qed.

Lemma rstrip_nil_inv (t : text) : rstrip t = [] -> forallb is_space t = true.
Proof.
  destruct t as [|c t]; [reflexivity|]. rewrite rstrip_cons.
  destruct (is_space c && forallb is_space t) eqn:E; [|discriminate].
  intros _. exact E.
Qed.

Lemma rstrip_all (t : text) : forallb is_space t = true -> rstrip t = [].
Proof.
  intros H. unfold rstrip, lstrip.
  rewrite drop_while_all by now rewrite forallb_rev. reflexivity.
Qed.

(** What [rstrip] removes is white space. *)
Lemma rstrip_split (t : text) :
  exists w, t = rstrip t ++ w /\ forallb is_space w = true.
Proof.
  induction t as [|c t (w & E & Hw)]; [now exists []|].
  rewrite rstrip_cons. destruct (is_space c && forallb is_space t) eqn:H.
  - exists (c :: t). now split.
  - exists w. split; [|exact Hw]. cbn. now rewrite <- E.
Qed.

Lemma pre_ok_collapse b (s : text) : pre_ok b (collapse_from b s) = true.
Proof.
  revert b. induction s as [|c s IH]; intros b; [reflexivity|].
  cbn [collapse_from]. destruct (is_space c) eqn:E.
  - destruct b; [apply IH|]. cbn. apply IH.
  - cbn. rewrite E. apply IH.
Qed.

Lemma pre_ok_lstrip b (s : text) : pre_ok b s = true -> pre_ok true (lstrip s) = true.
Proof.
  unfold lstrip. revert b. induction s as [|c s IH]; intros b H; [reflexivity|].
  cbn in *. destruct (is_space c) eqn:E.
  - apply andb_true_iff in H as [_ H]. eapply IH, H.
  - cbn. now rewrite E.
Qed.

Lemma pre_ok_rstrip b (s : text) :
  pre_ok b s = true -> rstrip s = [] \/ spaced_ok b (rstrip s) = true.
Proof.
  revert b. induction s as [|c s IH]; intros b H; [now left|].
  rewrite rstrip_cons. destruct (is_space c && forallb is_space s) eqn:A; [now left|].
  right. cbn in *. destruct (is_space c) eqn:E.
  - apply andb_true_iff in H as [H H2]. rewrite H. cbn.
    destruct (IH _ H2) as [H3|H3]; [|exact H3].
    apply rstrip_nil_inv in H3. cbn in A. congruence.
  - destruct (IH _ H) as [H3|H3]; [|exact H3]. now rewrite H3.
Qed.

(** After the white-space passes and [strip], white space is left only as
    single spaces between other characters. *)
Lemma tidy_strip_collapse (s : text) : tidy (strip (collapse_ws s)) = true.
Proof.
  unfold strip, collapse_ws.
  pose proof (pre_ok_lstrip _ _ (pre_ok_collapse false s)) as H.
  apply pre_ok_rstrip in H as [H|H]; [now rewrite H|].
  unfold tidy. destruct (rstrip _); [reflexivity|exact H].
Qed.

End Strip.

(** ** Character classes *)

Section ClassFacts.
Variable U : unicode_db.

Ltac bool_to_prop :=
  repeat match goal with
    | H : _ && _ = true |- _ => apply andb_true_iff in H as [? ?]
    | H : _ || _ = true |- _ => apply orb_true_iff in H as [?|?]
    | H : (_ <=? _) = true |- _ => apply N.leb_le in H
    | H : (_ <? _) = true |- _ => apply N.ltb_lt in H
    | H : (_ <? _) = false |- _ => apply N.ltb_ge in H
    | H : (_ =? _) = true |- _ => apply N.eqb_eq in H
    end.

Lemma digit_not_space c : is_digit U c = true -> is_space c = false.
Proof.
  unfold is_digit. intros H. destruct (is_space c) eqn:S; [|reflexivity].
  destruct (c <? 128) eqn:A.
  - unfold ascii_digit, is_space, in_range in *. bool_to_prop; lia.
  - apply uni_decimal_alnum in H. apply (uni_space_not_alnum U) in S. congruence.
Qed.

Lemma digit_is_word c : is_digit U c = true -> is_word U c = true.
Proof.
  unfold is_digit, is_word. destruct (c <? 128).
  - unfold ascii_alnum. now intros ->.
  - apply uni_decimal_alnum.
Qed.

Lemma space_not_word c : is_space c = true -> is_word U c = false.
Proof.
  unfold is_word. intros S. destruct (c <? 128) eqn:A.
  - destruct (ascii_alnum c || (c =? 95)) eqn:W; [|reflexivity].
    unfold ascii_alnum, ascii_digit, ascii_upper, ascii_lower, is_space, in_range in *.
    bool_to_prop; lia.
  - now apply uni_space_not_alnum.
Qed.

Lemma space_not_digit c : is_space c = true -> is_digit U c = false.
Proof.
  intros S. destruct (is_digit U c) eqn:D; [|reflexivity].
  apply digit_not_space in D. congruence.
Qed.

End ClassFacts.

(** ** Occurrences of a pattern, and the digit-line pass *)

Section ListFacts.

Lemma take_while_app f (a b : text) :
  take_while f (a ++ b)
  = if forallb f a then a ++ take_while f b else take_while f a.
Proof.
  induction a as [|c a IH]; [reflexivity|]. cbn.
  destruct (f c); [|reflexivity]. rewrite IH. now destruct (forallb f a).
Qed.

Lemma forallb_take_while f g (a : text) :
  forallb g a = true -> forallb g (take_while f a) = true.
Proof.
  induction a as [|c a IH]; [reflexivity|]. cbn. intros H.
  apply andb_true_iff in H as [H1 H2]. destruct (f c); [|reflexivity].
  cbn. now rewrite H1, IH.
Qed.

Lemma drop_while_idem f (x : text) :
  drop_while f (drop_while f x) = drop_while f x.
Proof.
  induction x as [|c x IH]; [reflexivity|]. cbn.
  destruct (f c) eqn:E; [exact IH|]. cbn. now rewrite E.
Qed.

Lemma starts_with_drop f g (x : text) :
  (forall c, f c = true -> g c = false) ->
  starts_with f x = true -> drop_while g x = x.
Proof.
  intros Hfg. destruct x as [|c x]; [discriminate|]. cbn. intros H.
  now rewrite (Hfg _ H).
Qed.

Lemma starts_with_take f (x : text) :
  starts_with f x = true -> take_while f x <> [].
Proof. destruct x as [|c x]; [discriminate|]. cbn. now intros ->. Qed.

Lemma exists_at_app b prev (w t : text) :
  exists_at b (last_of prev w) t = true -> exists_at b prev (w ++ t) = true.
Proof.
  revert prev. induction w as [|c w IH]; intros prev H; [exact H|].
  cbn [app exists_at]. rewrite last_of_cons in H.
  rewrite (IH _ H). apply orb_true_r.
Qed.

End ListFacts.

Section SearchFacts.
Variable U : unicode_db.
Variable fl : flags.

Lemma search_from_exists_at r b :
  (forall prev x, is_Some (match_here U fl r false prev x) <-> b prev x = true) ->
  forall prev x, search_from U fl r prev x = exists_at b prev x.
Proof.
  intros Hb prev x. revert prev. induction x as [|c x IH]; intros prev;
    cbn [search_from exists_at]; specialize (Hb prev);
    [specialize (Hb []) | specialize (Hb (c :: x))];
    destruct (match_here U fl r false prev _) as [m|].
  - destruct Hb as [Hb _]. now rewrite Hb by eauto.
  - destruct (b prev []); [|reflexivity].
    destruct Hb as [_ Hb]. destruct (Hb eq_refl); discriminate.
  - destruct Hb as [Hb _]. now rewrite Hb by eauto.
  - rewrite IH. destruct (b prev (c :: x)); [|reflexivity].
    destruct Hb as [_ Hb]. destruct (Hb eq_refl); discriminate.
Qed.

Lemma matches_Cat r1 r2 prev w t :
  matches U fl (Cat r1 r2) prev w t
  <-> exists w1 w2, w = w1 ++ w2 /\ matches U fl r1 prev w1 (w2 ++ t)
                    /\ matches U fl r2 (last_of prev w1) w2 t.
Proof. reflexivity. Qed.

End SearchFacts.

Section DigitLines.
Variable U : unicode_db.

Lemma at_eol_multiline (t : text) :
  at_eol MULTILINE t = true <-> t = [] \/ exists t', t = NL :: t'.
Proof.
  destruct t as [|c t]; cbn.
  - split; auto.
  - rewrite andb_true_r, N.eqb_eq. split.
    + intros ->. eauto.
    + intros [|[t' [= -> _]]]; [discriminate|reflexivity].
Qed.

Lemma at_eol_take (t : text) :
  at_eol MULTILINE t = true -> take_while not_nl t = [].
Proof. intros H. apply at_eol_multiline in H as [->|[t' ->]]; reflexivity. Qed.

Lemma at_eol_drop_digits (t : text) :
  at_eol MULTILINE t = true -> drop_while (is_digit U) t = t.
Proof. intros H. apply at_eol_multiline in H as [->|[t' ->]]; reflexivity. Qed.

Lemma at_eol_drop_nl (x : text) :
  at_eol MULTILINE (drop_while not_nl x) = true.
Proof.
  apply at_eol_multiline. destruct (drop_while not_nl x) as [|c t] eqn:E; [now left|].
  right. exists t. f_equal.
  assert (not_nl c = false) as H by (eapply drop_while_head; now rewrite E).
  unfold not_nl in H. apply negb_false_iff, N.eqb_eq in H. exact H.
Qed.

Lemma spaces_then_eol_drop_digits (w t : text) :
  forallb is_space w = true -> at_eol MULTILINE t = true ->
  drop_while (is_digit U) (w ++ t) = w ++ t.
Proof.
  intros Hw Ht. destruct w as [|c w]; [now apply at_eol_drop_digits|].
  cbn in *. apply andb_true_iff in Hw as [Hc _].
  now rewrite (space_not_digit U c Hc).
Qed.

(** The pieces matched by [^\s*\d+\s*$]. *)
Lemma digit_line_inv prev w t :
  matches U MULTILINE Patterns.digit_line prev w t ->
  w <> [] /\ at_bol MULTILINE prev = true /\ at_eol MULTILINE t = true
  /\ exists ws ds ws2,
       w = ws ++ ds ++ ws2 /\ forallb is_space ws = true
       /\ ds <> [] /\ forallb (is_digit U) ds = true
       /\ forallb is_space ws2 = true.
Proof.
  unfold Patterns.digit_line.
  intros (w0 & w1 & -> & (-> & Hbol) & M). cbn [app] in *.
  apply matches_Cat in M as (ws & w2 & -> & Hws & M).
  apply matches_star_cls in Hws.
  apply matches_Cat in M as (ds & w3 & -> & Hds & M).
  apply matches_plus_cls in Hds as [Hne Hds].
  apply matches_Cat in M as (ws2 & w4 & -> & Hws2 & (-> & Heol)).
  apply matches_star_cls in Hws2. rewrite app_nil_r.
  split; [|split; [exact Hbol|split; [exact Heol|]]].
  - destruct ws; [destruct ds; [congruence|discriminate]|discriminate].
  - exists ws, ds, ws2. auto.
Qed.

Lemma digit_line_shape (ws ds ws2 t : text) :
  forallb is_space ws = true -> ds <> [] -> forallb (is_digit U) ds = true ->
  forallb is_space ws2 = true -> at_eol MULTILINE t = true ->
  digit_line_at U (ws ++ ds ++ ws2 ++ t) = true.
Proof.
  intros Hws Hne Hds Hws2 Ht. unfold digit_line_at.
  rewrite drop_while_app, Hws.
  destruct ds as [|d ds]; [congruence|]. cbn in Hds.
  apply andb_true_iff in Hds as [Hd Hds].
  cbn [app drop_while]. rewrite (digit_not_space U d Hd).
  cbn [starts_with drop_while]. rewrite Hd. cbn [andb].
  rewrite drop_while_app, Hds, spaces_then_eol_drop_digits by assumption.
  rewrite take_while_app, (at_eol_take t Ht), app_nil_r.
  destruct (forallb not_nl ws2); [exact Hws2|].
  now apply forallb_take_while.
Qed.

Lemma digit_line_matches prev x :
  is_Some (match_here U MULTILINE Patterns.digit_line false prev x)
  <-> dl_here U prev x = true.
Proof.
  rewrite match_here_iff. unfold dl_here. rewrite andb_true_iff. split.
  - intros (w & t & -> & M).
    apply digit_line_inv in M as (_ & Hbol & Heol & ws & ds & ws2 & -> & H).
    split; [exact Hbol|]. rewrite <- !app_assoc.
    destruct H as (? & ? & ? & ?). now apply digit_line_shape.
  - intros [Hbol H]. unfold digit_line_at in H.
    apply andb_true_iff in H as [Hd Hs].
    set (x1 := drop_while is_space x) in *.
    set (x2 := drop_while (is_digit U) x1) in *.
    exists (take_while is_space x ++ take_while (is_digit U) x1 ++ take_while not_nl x2),
           (drop_while not_nl x2).
    split.
    + rewrite <- !app_assoc. unfold x2, x1. now rewrite !take_drop_while.
    + unfold Patterns.digit_line.
      exists [], (take_while is_space x ++ take_while (is_digit U) x1
                  ++ take_while not_nl x2).
      split; [reflexivity|]. split; [now split|].
      apply matches_Cat. eexists _, _. split; [reflexivity|].
      split; [apply matches_star_cls, take_while_all|].
      apply matches_Cat. eexists _, _. split; [reflexivity|].
      split; [apply matches_plus_cls; split;
              [now apply starts_with_take|apply take_while_all]|].
      apply matches_Cat. exists (take_while not_nl x2), [].
      split; [now rewrite app_nil_r|].
      split; [apply matches_star_cls, Hs|].
      split; [reflexivity|apply at_eol_drop_nl].
Qed.

Lemma digit_line_nonempty : nonempty_pat U MULTILINE Patterns.digit_line.
Proof. intros prev w t M. now apply digit_line_inv in M. Qed.

Lemma digit_line_search prev x :
  search_from U MULTILINE Patterns.digit_line prev x = exists_at (dl_here U) prev x.
Proof. apply search_from_exists_at, digit_line_matches. Qed.

End DigitLines.

Section DigitLinePass.
Variable U : unicode_db.

Local Abbreviation F := (resub U MULTILINE Patterns.digit_line []).

Lemma at_bol_multiline_some c : at_bol MULTILINE (Some c) = (c =? NL).
Proof. reflexivity. Qed.

Lemma digit_not_nl c : is_digit U c = true -> not_nl c = true.
Proof.
  intros H. unfold not_nl. destruct (N.eqb_spec c NL) as [->|]; [|reflexivity].
  discriminate H.
Qed.

(** Inside a line nothing is deleted: the pass copies the text up to the
    next line break. *)
Lemma dl_pass_line prev rest :
  at_bol MULTILINE prev = false ->
  take_while not_nl (F prev rest) = take_while not_nl rest.
Proof.
  apply (resub_ind U MULTILINE Patterns.digit_line []
           (fun p rest out => at_bol MULTILINE p = false ->
                              take_while not_nl out = take_while not_nl rest)).
  - apply digit_line_nonempty.
  - reflexivity.
  - intros p c t _ IH _. cbn [take_while].
    destruct (not_nl c) eqn:E; [|reflexivity]. f_equal. apply IH.
    rewrite at_bol_multiline_some. unfold not_nl in E.
    now apply negb_true_iff in E.
  - intros p w t _ M _ _ Hb. apply digit_line_inv in M as (_ & Hb' & _). congruence.
Qed.

Lemma take_drop_digit_nl (y : text) :
  take_while not_nl (drop_while (is_digit U) y)
  = drop_while (is_digit U) (take_while not_nl y).
Proof.
  induction y as [|c y IH]; [reflexivity|]. cbn [drop_while take_while].
  destruct (is_digit U c) eqn:D.
  - rewrite (digit_not_nl c D). cbn [drop_while]. now rewrite D.
  - cbn [take_while]. destruct (not_nl c); [|reflexivity].
    cbn [drop_while]. now rewrite D.
Qed.

Lemma digit_line_at_space c (x : text) :
  is_space c = true -> digit_line_at U (c :: x) = digit_line_at U x.
Proof. intros H. unfold digit_line_at. cbn [drop_while]. now rewrite H. Qed.

Lemma digit_line_at_digit c (x : text) :
  is_digit U c = true ->
  digit_line_at U (c :: x)
  = forallb is_space (drop_while (is_digit U) (take_while not_nl x)).
Proof.
  intros H. unfold digit_line_at. cbn [drop_while].
  rewrite (digit_not_space U c H). cbn [starts_with drop_while].
  rewrite H. cbn [andb]. now rewrite take_drop_digit_nl.
Qed.

Lemma digit_line_at_other c (x : text) :
  is_space c = false -> is_digit U c = false -> digit_line_at U (c :: x) = false.
Proof.
  intros H1 H2. unfold digit_line_at. cbn [drop_while]. rewrite H1.
  cbn [starts_with]. now rewrite H2.
Qed.

(** An isolated number at the start of the output was one in the input. *)
Lemma dl_pass_start prev rest :
  digit_line_at U (F prev rest) = true -> digit_line_at U rest = true.
Proof.
  apply (resub_ind U MULTILINE Patterns.digit_line []
           (fun p rest out => digit_line_at U out = true ->
                              digit_line_at U rest = true)).
  - apply digit_line_nonempty.
  - discriminate.
  - intros p c t _ IH H.
    destruct (is_space c) eqn:S.
    + rewrite digit_line_at_space in * by assumption. auto.
    + destruct (is_digit U c) eqn:D.
      * rewrite digit_line_at_digit in * by assumption.
        rewrite dl_pass_line in H; [exact H|].
        rewrite at_bol_multiline_some. apply digit_not_nl in D.
        unfold not_nl in D. now apply negb_true_iff in D.
      * now rewrite digit_line_at_other in H.
  - intros p w t _ M _ _ _.
    apply digit_line_inv in M as (_ & _ & Heol & ws & ds & ws2 & -> & H).
    rewrite <- !app_assoc. destruct H as (? & ? & ? & ?).
    now apply digit_line_shape.
Qed.

(** After the pass no isolated number is left, whatever precedes the
    output. *)
Lemma dl_pass_none prev rest prev' :
  prev' = prev \/ (at_bol MULTILINE prev' = true /\ at_eol MULTILINE rest = true) ->
  exists_at (dl_here U) prev' (F prev rest) = false.
Proof.
  revert prev'.
  apply (resub_ind U MULTILINE Patterns.digit_line []
           (fun p rest out => forall prev',
                prev' = p \/ (at_bol MULTILINE prev' = true
                              /\ at_eol MULTILINE rest = true) ->
                exists_at (dl_here U) prev' out = false)).
  - apply digit_line_nonempty.
  - intros p prev' _. cbn. unfold dl_here, digit_line_at. cbn.
    now rewrite andb_false_r.
  - intros p c t Hnone IH prev' Hc. cbn [exists_at].
    rewrite (IH (Some c)) by now left. rewrite orb_false_r.
    destruct (dl_here U prev' (c :: F (Some c) t)) eqn:E; [exfalso|reflexivity].
    unfold dl_here in E. apply andb_true_iff in E as [Eb Ed].
    assert (digit_line_at U (c :: t) = true) as Hd.
    { apply (dl_pass_start p). now rewrite resub_skip. }
    destruct Hc as [->|[_ Heol]].
    + assert (is_Some (match_here U MULTILINE Patterns.digit_line false p (c :: t)))
        as [m Hm].
      { apply digit_line_matches. unfold dl_here. now rewrite Eb, Hd. }
      congruence.
    + apply at_eol_multiline in Heol as [|[t' [= -> <-]]]; [discriminate|].
      rewrite digit_line_at_space in Ed by reflexivity.
      specialize (IH (Some NL) (or_introl eq_refl)).
      destruct (F (Some NL) t) as [|a y] eqn:Ey; cbn [exists_at] in IH;
        apply orb_false_iff in IH as [IH _];
        unfold dl_here in IH; rewrite Ed in IH; discriminate IH.
  - intros p w t _ M _ IH prev' Hc. cbn [app].
    apply digit_line_inv in M as (_ & Hb & Heol & _).
    apply IH. right. split; [|exact Heol].
    destruct Hc as [->|[Hc _]]; assumption.
Qed.

(** The pass [re.sub(r'^\s*\d+\s*$', '', text, flags=re.MULTILINE)] leaves no
    match of its own pattern. *)
Lemma digit_line_pass_clean (s : text) :
  re_search U MULTILINE Patterns.digit_line
    (re_sub U MULTILINE Patterns.digit_line [] s) = false.
Proof.
  unfold re_search. rewrite digit_line_search.
  rewrite re_sub_resub by apply digit_line_nonempty.
  apply dl_pass_none. now left.
Qed.

End DigitLinePass.

(** ** Isolated numbers through the white-space passes *)

Section DigitLineTransfer.
Variable U : unicode_db.

Lemma take_while_all_id f (a : text) : forallb f a = true -> take_while f a = a.
Proof.
  induction a as [|c a IH]; [reflexivity|]. cbn. intros H.
  apply andb_true_iff in H as [-> H]. now rewrite IH.
Qed.

Lemma spaces_drop_digits (w : text) :
  forallb is_space w = true -> drop_while (is_digit U) w = w.
Proof.
  destruct w as [|c w]; [reflexivity|]. cbn. intros H.
  apply andb_true_iff in H as [H _]. now rewrite (space_not_digit U c H).
Qed.

Lemma dl_app_spaces (y w : text) :
  forallb is_space w = true ->
  digit_line_at U y = true -> digit_line_at U (y ++ w) = true.
Proof.
  intros Hw. unfold digit_line_at. intros H.
  apply andb_true_iff in H as [Hd Hs].
  rewrite drop_while_app.
  destruct (forallb is_space y) eqn:Hy.
  { rewrite drop_while_all in Hd by assumption. discriminate. }
  destruct (drop_while is_space y) as [|d x1] eqn:E; [discriminate|].
  cbn [starts_with app] in *. rewrite Hd. cbn [andb].
  change (d :: x1 ++ w) with ((d :: x1) ++ w). rewrite drop_while_app.
  destruct (forallb (is_digit U) (d :: x1)) eqn:Hall.
  - rewrite spaces_drop_digits by assumption. now apply forallb_take_while.
  - rewrite take_while_app.
    destruct (forallb not_nl (drop_while (is_digit U) (d :: x1))) eqn:Hn.
    + rewrite take_while_all_id in Hs by assumption.
      rewrite forallb_app, Hs. now apply forallb_take_while.
    + exact Hs.
Qed.

Lemma dl_rstrip (y : text) :
  digit_line_at U (rstrip y) = true -> digit_line_at U y = true.
Proof.
  destruct (rstrip_split y) as (w & E & Hw). intros H.
  rewrite E. now apply dl_app_spaces.
Qed.

Lemma dl_lstrip (y : text) : digit_line_at U (lstrip y) = digit_line_at U y.
Proof. unfold digit_line_at, lstrip. now rewrite drop_while_idem. Qed.

Lemma collapse_drop_space b (z : text) :
  drop_while is_space (collapse_from b z)
  = collapse_from false (drop_while is_space z).
Proof.
  revert b. induction z as [|c z IH]; intros b; [reflexivity|].
  cbn [collapse_from drop_while]. destruct (is_space c) eqn:E.
  - destruct b; [apply IH|]. cbn [drop_while].
    change (is_space SP) with true. apply IH.
  - cbn [drop_while collapse_from]. now rewrite E.
Qed.

Lemma collapse_drop_digit (z : text) :
  drop_while (is_digit U) (collapse_from false z)
  = collapse_from false (drop_while (is_digit U) z).
Proof.
  induction z as [|c z IH]; [reflexivity|].
  cbn [collapse_from drop_while]. destruct (is_digit U c) eqn:D.
  - rewrite (digit_not_space U c D). cbn [drop_while]. now rewrite D.
  - cbn [collapse_from]. destruct (is_space c); cbn [drop_while].
    + reflexivity.
    + now rewrite D.
Qed.

Lemma collapse_chars b (z : text) :
  Forall (fun x => is_space x = false \/ x = SP) (collapse_from b z).
Proof.
  revert b. induction z as [|c z IH]; intros b; [constructor|].
  cbn [collapse_from]. destruct (is_space c) eqn:E.
  - destruct b; [apply IH|]. constructor; [now right|apply IH].
  - constructor; [now left|apply IH].
Qed.

Lemma tidy_chars_no_nl (y : text) :
  Forall (fun x => is_space x = false \/ x = SP) y -> forallb not_nl y = true.
Proof.
  induction 1 as [|c y [H|H] _ IH]; [reflexivity| |]; cbn; rewrite IH, andb_true_r.
  - unfold not_nl. destruct (N.eqb_spec c NL) as [->|]; [discriminate|reflexivity].
  - now subst c.
Qed.

Lemma collapse_all_space b (z : text) :
  forallb is_space (collapse_from b z) = true -> forallb is_space z = true.
Proof.
  revert b. induction z as [|c z IH]; intros b; [reflexivity|].
  cbn [collapse_from forallb]. destruct (is_space c) eqn:E.
  - destruct b; [apply IH|]. cbn [forallb]. intros H.
    apply andb_true_iff in H as [_ H]. eapply IH, H.
  - cbn [forallb]. now rewrite E.
Qed.

Lemma dl_collapse b (z : text) :
  digit_line_at U (collapse_from b z) = true -> digit_line_at U z = true.
Proof.
  unfold digit_line_at. rewrite collapse_drop_space.
  set (z1 := drop_while is_space z). intros H.
  apply andb_true_iff in H as [Hd Hs].
  rewrite collapse_drop_digit in Hs.
  rewrite take_while_all_id in Hs by apply tidy_chars_no_nl, collapse_chars.
  apply collapse_all_space in Hs.
  apply andb_true_iff. split; [|now apply forallb_take_while].
  destruct z1 as [|c z1]; [discriminate|]. cbn [collapse_from starts_with] in *.
  destruct (is_space c); [discriminate Hd|exact Hd].
Qed.

(** In a text without line breaks only the start can hold an isolated
    number. *)
Lemma no_nl_exists_dl prev (x : text) :
  forallb not_nl x = true ->
  exists_at (dl_here U) prev x = dl_here U prev x.
Proof.
  revert prev. induction x as [|c x IH]; intros prev H; cbn [exists_at].
  - apply orb_false_r.
  - cbn in H. apply andb_true_iff in H as [Hc Hx].
    rewrite IH by assumption. unfold dl_here at 2.
    rewrite at_bol_multiline_some. unfold not_nl in Hc.
    apply negb_true_iff in Hc. rewrite Hc. apply orb_false_r.
Qed.

Lemma In_forallb_strip f (s : text) :
  forallb f s = true -> forallb f (strip s) = true.
Proof.
  rewrite !forallb_forall. intros H x Hx. apply H. now apply In_strip.
Qed.

End DigitLineTransfer.

(** ** Page-number tokens *)

Section PageTokens.
Variable U : unicode_db.

Lemma last_of_digits prev (ds : text) :
  ds <> [] -> forallb (is_digit U) ds = true -> word_opt U (last_of prev ds) = true.
Proof.
  revert prev. induction ds as [|d ds IH]; intros prev Hne H; [congruence|].
  cbn in H. apply andb_true_iff in H as [Hd H]. rewrite last_of_cons.
  destruct ds as [|d' ds]; [cbn; now apply digit_is_word|].
  now apply IH.
Qed.

Lemma nonword_drop_digits (t : text) :
  word_opt U (head t) = false -> drop_while (is_digit U) t = t.
Proof.
  destruct t as [|c t]; [reflexivity|]. cbn. intros H.
  destruct (is_digit U c) eqn:D; [|reflexivity].
  apply digit_is_word in D. congruence.
Qed.

Lemma page_matches prev x :
  is_Some (match_here U IGNORECASE Patterns.page_number false prev x)
  <-> page_at U prev x = true.
Proof.
  rewrite match_here_iff. unfold page_at, Patterns.page_number. split.
  - intros (w & t & -> & w0 & w1 & -> & (-> & Hb) & M).
    cbn [app] in *. rewrite last_of_nil in M.
    apply matches_Cat in M as (wp & w2 & -> & Hp & M).
    apply matches_after_token in Hp.
    apply matches_Cat in M as (ws & w3 & -> & Hws & M).
    apply matches_star_cls in Hws. change (forallb is_space ws = true) in Hws.
    apply matches_Cat in M as (ds & w4 & -> & Hds & (-> & He)).
    apply matches_plus_cls in Hds as [Hne Hds].
    change (forallb (is_digit U) ds = true) in Hds.
    rewrite app_nil_r in *. rewrite <- !app_assoc in *.
    unfold word_boundary. rewrite Hb, Hp. cbn [andb].
    rewrite last_of_digits in He by assumption. cbn [xorb] in He.
    apply negb_true_iff in He.
    unfold page_tail. rewrite drop_while_app, Hws.
    destruct ds as [|d ds]; [congruence|]. cbn in Hds.
    apply andb_true_iff in Hds as [Hd Hds].
    cbn [app drop_while]. rewrite (digit_not_space U d Hd).
    cbn [starts_with drop_while]. rewrite Hd. cbn [andb].
    rewrite drop_while_app, Hds, nonword_drop_digits by assumption.
    now rewrite He.
  - intros H. apply andb_true_iff in H as [Hb H].
    destruct (after_token U IGNORECASE (lit "Page") prev x) as [[p x1]|] eqn:E;
      [|discriminate].
    apply after_token_matches in E as (wp & -> & -> & Mp).
    unfold page_tail in H. apply andb_true_iff in H as [Hd Hw].
    apply negb_true_iff in Hw.
    set (x2 := drop_while is_space x1) in *.
    exists (wp ++ take_while is_space x1 ++ take_while (is_digit U) x2),
           (drop_while (is_digit U) x2).
    split.
    { rewrite <- !app_assoc. unfold x2. now rewrite !take_drop_while. }
    exists [], (wp ++ take_while is_space x1 ++ take_while (is_digit U) x2).
    split; [reflexivity|]. split.
    { split; [reflexivity|]. rewrite <- !app_assoc. unfold x2.
      rewrite !take_drop_while. exact Hb. }
    apply matches_Cat. eexists _, _. split; [reflexivity|].
    split.
    { rewrite <- !app_assoc. unfold x2. rewrite !take_drop_while. exact Mp. }
    apply matches_Cat. eexists _, _. split; [reflexivity|].
    split; [apply matches_star_cls, take_while_all|].
    apply matches_Cat. exists (take_while (is_digit U) x2), [].
    split; [now rewrite app_nil_r|].
    split; [apply matches_plus_cls; split;
            [now apply starts_with_take|apply take_while_all]|].
    split; [reflexivity|].
    rewrite last_of_digits, Hw;
      [reflexivity|now apply starts_with_take|apply take_while_all].
Qed.

Lemma page_search prev x :
  search_from U IGNORECASE Patterns.page_number prev x
  = exists_at (page_at U) prev x.
Proof. apply search_from_exists_at, page_matches. Qed.

End PageTokens.

(** ** Page-number tokens through the later passes *)

Section PageTransfer.
Variable U : unicode_db.

Local Abbreviation F := (resub U MULTILINE Patterns.digit_line []).
Local Abbreviation PAGE := (lit "Page").

Lemma page_letters : Forall (plain_letter U) PAGE.
Proof. repeat constructor. Qed.

Lemma page_at_ctx prev prev' (x : text) :
  word_opt U prev' = word_opt U prev -> page_at U prev' x = page_at U prev x.
Proof.
  intros H. unfold page_at, word_boundary. rewrite H. reflexivity.
Qed.

Lemma exists_page_ctx prev prev' (x : text) :
  word_opt U prev' = word_opt U prev ->
  exists_at (page_at U) prev' x = exists_at (page_at U) prev x.
Proof.
  intros H. destruct x as [|c x]; cbn [exists_at]; now rewrite (page_at_ctx _ _ _ H).
Qed.

Lemma page_at_nil prev : page_at U prev [] = false.
Proof. unfold page_at. cbn. apply andb_false_r. Qed.

Lemma page_at_eol prev (y : text) :
  at_eol MULTILINE y = true -> page_at U prev y = false.
Proof.
  intros H. apply at_eol_multiline in H as [->|[t ->]]; [apply page_at_nil|].
  unfold page_at. cbn. apply andb_false_r.
Qed.

(** *** The digit-line pass *)

Lemma at_eol_pass prev rest :
  at_eol MULTILINE rest = true -> at_eol MULTILINE (F prev rest) = true.
Proof.
  apply (resub_ind U MULTILINE Patterns.digit_line []
           (fun _ rest out => at_eol MULTILINE rest = true ->
                              at_eol MULTILINE out = true)).
  - apply digit_line_nonempty.
  - reflexivity.
  - intros p c t _ _ H. apply at_eol_multiline in H as [|[t' [= -> _]]];
      [discriminate|reflexivity].
  - intros p w t _ M _ IH _. apply digit_line_inv in M as (_ & _ & Heol & _).
    cbn [app]. auto.
Qed.

(** The pass from a position on: either the position starts a deleted piece
    and the output continues at a line end, or its first character is
    copied. *)
Lemma pass_cases prev (x : text) :
  at_eol MULTILINE (F prev x) = true
  \/ exists c t, x = c :: t /\ F prev x = c :: F (Some c) t.
Proof.
  destruct (match_here U MULTILINE Patterns.digit_line false prev x)
    as [[p t]|] eqn:E.
  - left. destruct (match_here_some _ _ _ _ _ _ _ _ E) as (w & -> & M & ->).
    pose proof M as M'. apply digit_line_inv in M' as (Hw & _ & Heol & _).
    rewrite resub_match; try assumption; [|apply digit_line_nonempty].
    cbn [app]. now apply at_eol_pass.
  - destruct x as [|c t].
    + left. now rewrite resub_nil by apply digit_line_nonempty.
    + right. exists c, t. split; [reflexivity|]. now apply resub_skip.
Qed.

Lemma tok_pass tok prev (x : text) q y1 :
  Forall (plain_letter U) tok ->
  after_token U IGNORECASE tok prev (F prev x) = Some (q, y1) ->
  exists x1, after_token U IGNORECASE tok prev x = Some (q, x1) /\ y1 = F q x1.
Proof.
  intros Htok. revert prev x. induction Htok as [|a tok [Ha _] _ IH]; intros prev x H.
  - cbn in H. injection H as <- <-. now exists x.
  - destruct (pass_cases prev x) as [Heol|(c & t & -> & E)].
    + apply at_eol_multiline in Heol as [E|[t E]]; rewrite E in H;
        cbn [after_token] in H; [discriminate|]. now rewrite Ha in H.
    + rewrite E in H. cbn [after_token] in *.
      destruct (lit_match U IGNORECASE a c); [|discriminate]. now apply IH.
Qed.

Lemma nl_not_word : is_word U NL = false.
Proof. reflexivity. Qed.

Lemma word_head_line (z : text) :
  word_opt U (head (take_while not_nl z)) = word_opt U (head z).
Proof.
  destruct z as [|c z]; [reflexivity|]. cbn [take_while].
  destruct (not_nl c) eqn:E; [reflexivity|].
  unfold not_nl in E. apply negb_false_iff, N.eqb_eq in E. now subst c.
Qed.

Lemma page_tail_space c (x : text) :
  is_space c = true -> page_tail U (c :: x) = page_tail U x.
Proof. intros H. unfold page_tail. cbn [drop_while]. now rewrite H. Qed.

Lemma page_tail_digit c (x : text) :
  is_digit U c = true ->
  page_tail U (c :: x)
  = negb (word_opt U (head (drop_while (is_digit U) (take_while not_nl x)))).
Proof.
  intros H. unfold page_tail. cbn [drop_while].
  rewrite (digit_not_space U c H). cbn [starts_with drop_while]. rewrite H.
  cbn [andb]. now rewrite <- take_drop_digit_nl, word_head_line.
Qed.

Lemma page_tail_other c (x : text) :
  is_space c = false -> is_digit U c = false -> page_tail U (c :: x) = false.
Proof.
  intros H1 H2. unfold page_tail. cbn [drop_while]. rewrite H1.
  cbn [starts_with]. now rewrite H2.
Qed.

Lemma spaces_eol_head (w t : text) :
  forallb is_space w = true -> at_eol MULTILINE t = true ->
  word_opt U (head (w ++ t)) = false.
Proof.
  intros Hw Ht. destruct w as [|c w].
  - apply at_eol_multiline in Ht as [->|[t' ->]]; reflexivity.
  - cbn in *. apply andb_true_iff in Hw as [Hc _]. now apply space_not_word.
Qed.

Lemma tail_pass prev (x : text) :
  page_tail U (F prev x) = true -> page_tail U x = true.
Proof.
  apply (resub_ind U MULTILINE Patterns.digit_line []
           (fun _ rest out => page_tail U out = true -> page_tail U rest = true)).
  - apply digit_line_nonempty.
  - discriminate.
  - intros p c t _ IH H.
    destruct (is_space c) eqn:S.
    + rewrite page_tail_space in * by assumption. auto.
    + destruct (is_digit U c) eqn:D.
      * rewrite page_tail_digit in * by assumption.
        rewrite dl_pass_line in H; [exact H|].
        rewrite at_bol_multiline_some. apply digit_not_nl in D.
        unfold not_nl in D. now apply negb_true_iff in D.
      * now rewrite page_tail_other in H.
  - intros p w t _ M _ _ _.
    apply digit_line_inv in M as (_ & _ & Heol & ws & ds & ws2 & -> & H).
    destruct H as (Hws & Hne & Hds & Hws2).
    rewrite <- !app_assoc. unfold page_tail. rewrite drop_while_app, Hws.
    destruct ds as [|d ds]; [congruence|]. cbn in Hds.
    apply andb_true_iff in Hds as [Hd Hds].
    cbn [app drop_while]. rewrite (digit_not_space U d Hd).
    cbn [starts_with drop_while]. rewrite Hd. cbn [andb].
    rewrite drop_while_app, Hds, spaces_then_eol_drop_digits by assumption.
    now rewrite spaces_eol_head.
Qed.

Lemma page_at_pass prev (x : text) :
  page_at U prev (F prev x) = true -> page_at U prev x = true.
Proof.
  intros H. destruct (pass_cases prev x) as [Heol|(c & t & -> & E)].
  - now rewrite page_at_eol in H.
  - unfold page_at in *. rewrite E in H at 1. cbn [head] in *.
    apply andb_true_iff in H as [Hb H]. rewrite Hb. cbn [andb].
    destruct (after_token U IGNORECASE PAGE prev (F prev (c :: t)))
      as [[q y1]|] eqn:A; [|discriminate].
    apply tok_pass in A as (x1 & -> & ->); [|apply page_letters].
    eapply tail_pass, H.
Qed.

(** A token in the output of the digit-line pass was in its input. *)
Lemma page_pass prev rest prev' :
  prev' = prev \/ at_eol MULTILINE rest = true ->
  exists_at (page_at U) prev' (F prev rest) = true ->
  exists_at (page_at U) prev rest = true.
Proof.
  revert prev'.
  apply (resub_ind U MULTILINE Patterns.digit_line []
           (fun p rest out => forall prev',
                prev' = p \/ at_eol MULTILINE rest = true ->
                exists_at (page_at U) prev' out = true ->
                exists_at (page_at U) p rest = true)).
  - apply digit_line_nonempty.
  - intros p prev' _. cbn. now rewrite !page_at_nil.
  - intros p c t Hnone IH prev' Hc H. cbn [exists_at] in *.
    apply orb_true_iff in H as [H|H].
    + destruct Hc as [->|Heol].
      * rewrite <- (resub_skip U MULTILINE Patterns.digit_line [] p c t Hnone) in H.
        apply page_at_pass in H. now rewrite H.
      * apply at_eol_multiline in Heol as [|[t' [= -> <-]]]; [discriminate|].
        rewrite page_at_eol in H by reflexivity. discriminate.
    + rewrite (IH (Some c)); [apply orb_true_r|now left|exact H].
  - intros p w t _ M _ IH prev' Hc H. cbn [app] in H.
    apply digit_line_inv in M as (_ & _ & Heol & _).
    apply exists_at_app. eapply IH; [|exact H]. now right.
Qed.

End PageTransfer.

Section PageWhiteSpace.
Variable U : unicode_db.

Local Abbreviation PAGE := (lit "Page").

(** *** Collapsing white space *)

Lemma tok_collapse tok prev (z : text) q y1 :
  Forall (plain_letter U) tok ->
  after_token U IGNORECASE tok prev (collapse_from false z) = Some (q, y1) ->
  exists z1, after_token U IGNORECASE tok prev z = Some (q, z1)
             /\ y1 = collapse_from false z1.
Proof.
  intros Htok. revert prev z. induction Htok as [|a tok [_ Ha] _ IH]; intros prev z H.
  - cbn in H. injection H as <- <-. now exists z.
  - destruct z as [|c z]; [discriminate|]. cbn [collapse_from after_token] in *.
    destruct (is_space c) eqn:S.
    + cbn [after_token] in H. now rewrite Ha in H.
    + cbn [after_token] in H.
      destruct (lit_match U IGNORECASE a c); [|discriminate]. now apply IH.
Qed.

Lemma collapse_head_word (z : text) :
  word_opt U (head (collapse_from false z)) = word_opt U (head z).
Proof.
  destruct z as [|c z]; [reflexivity|]. cbn [collapse_from].
  destruct (is_space c) eqn:S; [|reflexivity].
  cbn. now rewrite space_not_word.
Qed.

Lemma collapse_starts_digit (z : text) :
  starts_with (is_digit U) (collapse_from false z) = true ->
  starts_with (is_digit U) z = true.
Proof.
  destruct z as [|c z]; [discriminate|]. cbn [collapse_from].
  destruct (is_space c); [discriminate|auto].
Qed.

Lemma tail_collapse (z : text) :
  page_tail U (collapse_from false z) = true -> page_tail U z = true.
Proof.
  unfold page_tail. rewrite collapse_drop_space, collapse_drop_digit,
    collapse_head_word. intros H. apply andb_true_iff in H as [H1 H2].
  now rewrite (collapse_starts_digit _ H1), H2.
Qed.

Lemma page_at_collapse prev prev' (z : text) :
  word_opt U prev' = word_opt U prev ->
  page_at U prev' (collapse_from false z) = true -> page_at U prev z = true.
Proof.
  intros Hp H. unfold page_at, word_boundary in *.
  rewrite collapse_head_word, Hp in H. apply andb_true_iff in H as [Hb H].
  rewrite Hb. cbn [andb].
  destruct (after_token U IGNORECASE PAGE prev' (collapse_from false z))
    as [[q y1]|] eqn:A; [|discriminate].
  apply tok_collapse in A as (z1 & A & ->); [|apply page_letters].
  change (after_token U IGNORECASE PAGE prev z)
    with (after_token U IGNORECASE PAGE prev' z).
  rewrite A. now apply tail_collapse.
Qed.

Lemma page_collapse (z : text) b prev prev' :
  word_opt U prev' = word_opt U prev ->
  (b = true -> word_opt U prev = false) ->
  exists_at (page_at U) prev' (collapse_from b z) = true ->
  exists_at (page_at U) prev z = true.
Proof.
  revert b prev prev'. induction z as [|c z IH]; intros b prev prev' Hp Hb H.
  - cbn in H. now rewrite page_at_nil in H.
  - cbn [collapse_from] in H. destruct (is_space c) eqn:S.
    + cbn [exists_at]. apply orb_true_iff. right.
      destruct b.
      * apply (IH true (Some c) prev'); [| |exact H].
        -- cbn. rewrite space_not_word, Hp by assumption. now apply Hb.
        -- intros _. cbn. now apply space_not_word.
      * cbn [exists_at] in H. apply orb_true_iff in H as [H|H].
        { unfold page_at in H. cbn in H. now rewrite andb_false_r in H. }
        apply (IH true (Some c) (Some SP)); [| |exact H].
        -- cbn. now rewrite space_not_word.
        -- intros _. cbn. now apply space_not_word.
    + assert (collapse_from false (c :: z) = c :: collapse_from false z) as E
        by (cbn; now rewrite S).
      cbn [exists_at] in *. apply orb_true_iff in H as [H|H].
      * rewrite <- E in H. now rewrite (page_at_collapse prev prev' _ Hp H).
      * apply orb_true_iff. right.
        apply (IH false (Some c) (Some c)); [reflexivity|discriminate|exact H].
Qed.

(** *** Stripping *)

Lemma last_of_spaces prev (w : text) :
  word_opt U prev = false -> forallb is_space w = true ->
  word_opt U (last_of prev w) = false.
Proof.
  revert prev. induction w as [|c w IH]; intros prev Hp H; [exact Hp|].
  cbn in H. apply andb_true_iff in H as [Hc H]. rewrite last_of_cons.
  apply IH; [|exact H]. cbn. now apply space_not_word.
Qed.

Lemma page_lstrip (z : text) :
  exists_at (page_at U) None (lstrip z) = true ->
  exists_at (page_at U) None z = true.
Proof.
  intros H. rewrite <- (take_drop_while is_space z). apply exists_at_app.
  rewrite (exists_page_ctx U None); [exact H|].
  apply last_of_spaces; [reflexivity|apply take_while_all].
Qed.

Lemma after_token_app tok prev (y w : text) q x1 :
  after_token U IGNORECASE tok prev y = Some (q, x1) ->
  after_token U IGNORECASE tok prev (y ++ w) = Some (q, x1 ++ w).
Proof.
  revert prev y. induction tok as [|a tok IH]; intros prev y H.
  - cbn [after_token] in *. now injection H as <- <-.
  - destruct y as [|c y]; [discriminate|]. cbn [app after_token] in *.
    destruct (lit_match U IGNORECASE a c); [|discriminate]. now apply IH.
Qed.

Lemma forallb_false_drop f (a : text) :
  forallb f a = false -> drop_while f a <> [].
Proof.
  induction a as [|c a IH]; [discriminate|]. cbn.
  destruct (f c); [exact IH|discriminate].
Qed.

Lemma spaces_head (w : text) :
  forallb is_space w = true -> word_opt U (head w) = false.
Proof.
  destruct w as [|c w]; [reflexivity|]. cbn. intros H.
  apply andb_true_iff in H as [H _]. now apply space_not_word.
Qed.

Lemma page_tail_app (x1 w : text) :
  forallb is_space w = true ->
  page_tail U x1 = true -> page_tail U (x1 ++ w) = true.
Proof.
  intros Hw. unfold page_tail. intros H. apply andb_true_iff in H as [Hd Hn].
  rewrite drop_while_app. destruct (forallb is_space x1) eqn:Hx.
  { rewrite drop_while_all in Hd by assumption. discriminate. }
  destruct (drop_while is_space x1) as [|d x2] eqn:E; [discriminate|].
  cbn [starts_with app] in *. rewrite Hd. cbn [andb].
  change (d :: x2 ++ w) with ((d :: x2) ++ w). rewrite drop_while_app.
  destruct (forallb (is_digit U) (d :: x2)) eqn:Hall.
  - rewrite spaces_drop_digits by assumption. now rewrite spaces_head.
  - apply forallb_false_drop in Hall.
    destruct (drop_while (is_digit U) (d :: x2)); [congruence|exact Hn].
Qed.

Lemma page_at_app prev (y w : text) :
  forallb is_space w = true ->
  page_at U prev y = true -> page_at U prev (y ++ w) = true.
Proof.
  intros Hw H. destruct y as [|c y]; [now rewrite page_at_nil in H|].
  unfold page_at in *. cbn [app head] in *.
  apply andb_true_iff in H as [Hb H]. rewrite Hb. cbn [andb].
  destruct (after_token U IGNORECASE PAGE prev (c :: y)) as [[q x1]|] eqn:A;
    [|discriminate].
  apply (after_token_app _ _ _ w) in A. cbn [app] in A. rewrite A.
  now apply page_tail_app.
Qed.

Lemma exists_page_app prev (y w : text) :
  forallb is_space w = true ->
  exists_at (page_at U) prev y = true ->
  exists_at (page_at U) prev (y ++ w) = true.
Proof.
  intros Hw. revert prev. induction y as [|c y IH]; intros prev H.
  - cbn in H. now rewrite page_at_nil in H.
  - cbn [exists_at app] in *. apply orb_true_iff in H as [H|H].
    + apply (page_at_app _ _ w Hw) in H. cbn [app] in H. now rewrite H.
    + rewrite (IH _ H). apply orb_true_r.
Qed.

Lemma page_rstrip prev (y : text) :
  exists_at (page_at U) prev (rstrip y) = true ->
  exists_at (page_at U) prev y = true.
Proof.
  destruct (rstrip_split y) as (w & E & Hw). intros H.
  rewrite E. now apply exists_page_app.
Qed.

End PageWhiteSpace.

(** ** [clean_text] as a whole *)

Section CleanText.
Variable U : unicode_db.

Lemma exists_at_here b prev (x : text) :
  b prev x = true -> exists_at b prev x = true.
Proof. intros H. destruct x; cbn [exists_at]; now rewrite H. Qed.

(** The last three steps of [clean_text] amount to collapsing white space
    and stripping. *)
Lemma clean_text_tail (t : text) :
  clean_text U t
  = strip (collapse_ws
             (re_sub U MULTILINE Patterns.digit_line []
                (re_sub U IGNORECASE Patterns.page_number []
                   (re_sub U NOFLAG Patterns.newlines [NL] t)))).
Proof.
  unfold clean_text. rewrite spaces_pass, single_newline_pass.
  unfold collapse_ws. now rewrite collapse_merge.
Qed.

Lemma strip_collapse_no_nl (z : text) :
  forallb not_nl (strip (collapse_ws z)) = true.
Proof. apply In_forallb_strip, tidy_chars_no_nl, collapse_chars. Qed.

Lemma dl_strip_collapse (z : text) :
  digit_line_at U (strip (collapse_ws z)) = true -> digit_line_at U z = true.
Proof.
  unfold strip, collapse_ws. intros H.
  apply dl_rstrip in H. rewrite dl_lstrip in H. now apply dl_collapse in H.
Qed.

Lemma page_strip_collapse (z : text) :
  exists_at (page_at U) None (strip (collapse_ws z)) = true ->
  exists_at (page_at U) None z = true.
Proof.
  unfold strip, collapse_ws. intros H.
  apply page_rstrip, page_lstrip in H.
  now apply (page_collapse U z false None None) in H.
Qed.

Lemma digits_only_line (x : text) :
  x <> [] -> forallb (is_digit U) x = true -> digit_line_at U x = true.
Proof.
  intros Hne H. destruct x as [|d x]; [congruence|].
  pose proof H as H'. cbn in H'. apply andb_true_iff in H' as [Hd _].
  unfold digit_line_at. cbn [drop_while]. rewrite (digit_not_space U d Hd).
  cbn [starts_with]. rewrite Hd. now rewrite drop_while_all.
Qed.

End CleanText.

(** C9 (as amended): the output of [clean_text] is the text left by the
    page-number and digit-line passes with every run of white space (line
    breaks included, single or double) collapsed to one space and both ends
    stripped; it holds no isolated number; the single-line-break pass turns
    exactly the line breaks without a neighbouring line break into spaces;
    and it holds no page-number token unless the page-number pass itself
    left one behind. *)
Theorem clean_text_output (U : unicode_db) (t : text) :
  let text1 := re_sub U NOFLAG Patterns.newlines [NL] t in
  let text2 := re_sub U IGNORECASE Patterns.page_number [] text1 in
  let text3 := re_sub U MULTILINE Patterns.digit_line [] text2 in
  let out := clean_text U t in
  (re_search U IGNORECASE Patterns.page_number text2 = false ->
   re_search U IGNORECASE Patterns.page_number out = false)
  /\ re_search U MULTILINE Patterns.digit_line text3 = false
  /\ re_search U MULTILINE Patterns.digit_line out = false
  /\ ~ (out <> [] /\ forallb (is_digit U) out = true)
  /\ re_sub U NOFLAG Patterns.single_newline [SP] text3 = merge_single None text3
  /\ out = strip (collapse_ws text3)
  /\ tidy out = true.
Proof.
  intros text1 text2 text3 out.
  assert (out = strip (collapse_ws text3)) as Eout by apply clean_text_tail.
  assert (re_search U MULTILINE Patterns.digit_line text3 = false) as Hdl
    by apply digit_line_pass_clean.
  assert (digit_line_at U out = false) as Hout.
  { destruct (digit_line_at U out) eqn:E; [|reflexivity].
    rewrite Eout in E. apply dl_strip_collapse in E.
    unfold re_search in Hdl. rewrite digit_line_search in Hdl.
    rewrite exists_at_here in Hdl; [discriminate|].
    unfold dl_here. now rewrite E. }
  repeat split.
  - intros H. destruct (re_search U IGNORECASE Patterns.page_number out) eqn:E;
      [|reflexivity].
    unfold re_search in *. rewrite page_search in *.
    rewrite Eout in E. apply page_strip_collapse in E.
    unfold text3 in E. rewrite re_sub_resub in E by apply digit_line_nonempty.
    apply (page_pass U None text2 None) in E; [congruence|now left].
  - exact Hdl.
  - unfold re_search. rewrite digit_line_search, no_nl_exists_dl.
    + unfold dl_here. now rewrite Hout.
    + rewrite Eout. apply strip_collapse_no_nl.
  - intros [Hne Hd]. rewrite (digits_only_line U out Hne Hd) in Hout. discriminate.
  - apply single_newline_pass.
  - exact Eout.
  - rewrite Eout. apply tidy_strip_collapse.
Qed.

Lemma clean_text_output_witness :
  re_search ascii_only IGNORECASE Patterns.page_number
    (clean_text ascii_only
       (lit "Title" ++ [NL; NL] ++ lit "Page 3" ++ [NL; NL]
        ++ lit "Body sentence one. Body sentence two.")) = false.
Proof.
  apply (proj1 (clean_text_output ascii_only
    (lit "Title" ++ [NL; NL] ++ lit "Page 3" ++ [NL; NL]
     ++ lit "Body sentence one. Body sentence two."))).
  vm_compute. reflexivity.
Defined.

(** C9 as stated fails: deleting the token "Page 1" from "Page Page 1 2"
    joins "Page" and "2" into a page-number token that stays in the
    output. *)
Lemma clean_text_keeps_page_token :
  clean_text ascii_only (lit "Page Page 1 2") = lit "Page 2"
  /\ re_search ascii_only IGNORECASE Patterns.page_number
       (clean_text ascii_only (lit "Page Page 1 2")) = true.
Proof. split; vm_compute; reflexivity. Qed.

(** ** The line-break pass of [clean_text] *)

Section NewlinesPass.
Variable U : unicode_db.

Lemma star_lit_greedy p k prev rest :
  is_Some (k (last_of prev (take_while (N.eqb p) rest))
             (drop_while (N.eqb p) rest)) ->
  rmatch U NOFLAG (Star (Lit p)) prev rest k
  = k (last_of prev (take_while (N.eqb p) rest)) (drop_while (N.eqb p) rest).
Proof.
  cbn [rmatch]. revert prev. induction rest as [|c t IH]; intros prev H.
  - reflexivity.
  - cbn [length star_loop rmatch take_while drop_while] in *.
    change (lit_match U NOFLAG p c) with (p =? c).
    destruct (p =? c) eqn:Hc; [|reflexivity].
    assert ((length t <? S (length t))%nat = true) as -> by (apply Nat.ltb_lt; lia).
    rewrite last_of_cons in *. rewrite IH by exact H.
    destruct H as [m ->]. reflexivity.
Qed.

Lemma newlines_nonempty : nonempty_pat U NOFLAG Patterns.newlines.
Proof.
  intros prev w t M. apply matches_Cat in M as (w1 & w2 & -> & (c & -> & _) & _).
  discriminate.
Qed.

Lemma newlines_no_match prev c t :
  match_here U NOFLAG Patterns.newlines false prev (c :: t) = None ->
  (c =? NL) = false.
Proof.
  intros H. destruct (N.eqb_spec c NL) as [->|]; [|reflexivity].
  exfalso. apply (match_here_none _ _ _ _ _ H [NL] t eq_refl).
  apply matches_Cat. exists [NL], [].
  split; [reflexivity|]. split; [exists NL; split; reflexivity|constructor].
Qed.

Lemma newlines_match prev t :
  match_here U NOFLAG Patterns.newlines false prev (NL :: t)
  = Some (last_of (Some NL) (take_while (N.eqb NL) t), drop_while (N.eqb NL) t).
Proof.
  unfold match_here, Patterns.newlines, Plus.
  change (rmatch U NOFLAG (Cat ?a ?b) ?p ?x ?k)
    with (rmatch U NOFLAG a p x (fun p' t' => rmatch U NOFLAG b p' t' k)).
  change (rmatch U NOFLAG (Lit NL) prev (NL :: t) ?k) with (k (Some NL) t).
  cbv beta. rewrite star_lit_greedy; cbn [andb]; eauto.
Qed.

Lemma squeeze_after_nl (s : text) :
  squeeze_from true s = squeeze_from false (drop_while (N.eqb NL) s).
Proof.
  induction s as [|c s IH]; [reflexivity|]. cbn [squeeze_from drop_while].
  rewrite (N.eqb_sym NL c). destruct (c =? NL) eqn:E; [exact IH|].
  cbn [squeeze_from]. now rewrite E.
Qed.

(** The pass [re.sub(r'\n+', '\n', text)]. *)
Lemma newlines_pass (s : text) :
  re_sub U NOFLAG Patterns.newlines [NL] s = squeeze_newlines s.
Proof.
  rewrite re_sub_resub by apply newlines_nonempty. unfold squeeze_newlines.
  apply (resub_ind U NOFLAG Patterns.newlines [NL]
           (fun _ rest out => out = squeeze_from false rest)).
  - apply newlines_nonempty.
  - reflexivity.
  - intros prev c t H IH. apply newlines_no_match in H.
    cbn [squeeze_from]. now rewrite H, IH.
  - intros prev w t Hw M E IH.
    apply matches_Cat in M as (w1 & w2 & -> & (c & -> & Hc) & _).
    change (lit_match U NOFLAG NL c) with (NL =? c) in Hc.
    apply N.eqb_eq in Hc. subst c. cbn [app] in E.
    rewrite (newlines_match prev (w2 ++ t)) in E. injection E as _ E.
    rewrite IH. cbn [app squeeze_from].
    rewrite N.eqb_refl, squeeze_after_nl, E. reflexivity.
Qed.

(** After the pass no two line breaks are next to each other. *)
Lemma squeeze_no_double b (s x y : text) :
  squeeze_from b s <> x ++ [NL; NL] ++ y.
Proof.
  revert b x. induction s as [|c s IH]; intros b x H.
  - destruct x; discriminate.
  - cbn [squeeze_from] in H. destruct (c =? NL) eqn:E.
    + destruct b; [now apply IH in H|].
      destruct x as [|a x]; cbn [app] in H.
      * injection H as H. destruct s as [|c' s]; [discriminate|].
        cbn [squeeze_from] in H. destruct (c' =? NL) eqn:E'.
        -- rewrite squeeze_after_nl in H.
           pose proof (drop_while_head (N.eqb NL) s NL) as Hh.
           destruct (drop_while (N.eqb NL) s) as [|d s']; [discriminate|].
           cbn [squeeze_from] in H. destruct (d =? NL) eqn:Ed.
           ++ apply N.eqb_eq in Ed. subst d. now specialize (Hh eq_refl).
           ++ injection H as -> _. discriminate.
        -- injection H as -> _. discriminate.
      * injection H as _ H. now apply IH in H.
    + destruct x as [|a x]; cbn [app] in H.
      * injection H as -> _. discriminate.
      * injection H as _ H. now apply IH in H.
Qed.

End NewlinesPass.

(** C10: the output of [clean_text] contains no newline character.  The
    first pass leaves no two line breaks next to each other, and every line
    break that is left before the white-space pass ends up in a run of white
    space that becomes one space (or is stripped), so no paragraph boundary
    survives cleaning. *)
Theorem clean_text_no_newline (U : unicode_db) (t : text) :
  ~ In NL (clean_text U t)
  /\ re_sub U NOFLAG Patterns.newlines [NL] t = squeeze_newlines t
  /\ (forall x y, squeeze_newlines t <> x ++ [NL; NL] ++ y)
  /\ clean_text U t
     = strip (collapse_ws
                (re_sub U MULTILINE Patterns.digit_line []
                   (re_sub U IGNORECASE Patterns.page_number []
                      (re_sub U NOFLAG Patterns.newlines [NL] t)))).
Proof.
  split; [|split; [|split]].
  - unfold clean_text. intros H. apply In_strip in H.
    pose proof (spaces_pass_chars U
      (re_sub U NOFLAG Patterns.single_newline [SP]
         (re_sub U MULTILINE Patterns.digit_line []
            (re_sub U IGNORECASE Patterns.page_number []
               (re_sub U NOFLAG Patterns.newlines [NL] t))))) as HF.
    rewrite List.Forall_forall in HF. apply HF in H as [H|H]; discriminate.
  - apply newlines_pass.
  - intros x y. apply squeeze_no_double.
  - apply clean_text_tail.
Qed.

(** ** Fingerprints *)

Example md5_empty : MD5.hexdigest [] = lit "d41d8cd98f00b204e9800998ecf8427e".
Proof. vm_compute. reflexivity. Qed.

Example md5_abc : MD5.hexdigest (lit "abc") = lit "900150983cd24fb0d6963f7d28e17f72".
Proof. vm_compute. reflexivity. Qed.

Example md5_two_blocks :
  MD5.hexdigest (lit "12345678901234567890123456789012345678901234567890123456789012345678901234567890")
  = lit "57edf4a22be3c955ac49da2e2107b67a".
Proof. vm_compute. reflexivity. Qed.

Lemma get_file_hash_eq (fs : file_system) (filepath : text) :
  get_file_hash fs filepath
  = match fs_read fs filepath with
    | Some data => Ok (MD5.hexdigest data)
    | None => Raise OSError
    end.
Proof.
  unfold get_file_hash, open_rb. destruct (fs_read fs filepath) as [data|];
    reflexivity.
Qed.

(** C6: [get_file_hash] returns the MD5 hexadecimal digest of the whole
    contents of the file (an unreadable file raises); so it depends on the
    bytes only, and equal contents give equal fingerprints. *)
Theorem get_file_hash_whole_file (fs : file_system) (filepath : text) :
  get_file_hash fs filepath
  = match fs_read fs filepath with
    | Some data => Ok (md5_hexdigest (md5_update md5_new data))
    | None => Raise OSError
    end
  /\ (forall data, md5_hexdigest (md5_update md5_new data) = MD5.hexdigest data)
  /\ (forall fs' filepath',
        fs_read fs' filepath' = fs_read fs filepath ->
        get_file_hash fs' filepath' = get_file_hash fs filepath)
  /\ MD5.hexdigest [] = lit "d41d8cd98f00b204e9800998ecf8427e"
  /\ MD5.hexdigest (lit "abc") = lit "900150983cd24fb0d6963f7d28e17f72".
Proof.
  split; [|split; [|split; [|split]]].
  - apply get_file_hash_eq.
  - reflexivity.
  - intros fs' filepath' E. now rewrite !get_file_hash_eq, E.
  - apply md5_empty.
  - apply md5_abc.
Qed.

(** ** Chunk identifiers *)

Section ChunkIds.

Lemma text_ltb_prefix (p a b : text) : text_ltb (p ++ a) (p ++ b) = text_ltb a b.
Proof.
  induction p as [|x p IH]; [reflexivity|]. cbn [app text_ltb].
  now rewrite N.ltb_irrefl, N.eqb_refl, IH.
Qed.

Lemma text_ltb_trans (a b d : text) :
  text_ltb a b = true -> text_ltb b d = true -> text_ltb a d = true.
Proof.
  revert b d. induction a as [|x a IH]; intros [|y b] [|z d]; cbn; try discriminate;
    try reflexivity.
  intros H1 H2.
  apply orb_true_iff in H1 as [H1|H1]; apply orb_true_iff in H2 as [H2|H2].
  - apply N.ltb_lt in H1, H2. apply orb_true_iff. left. apply N.ltb_lt. lia.
  - apply andb_true_iff in H2 as [H2 _]. apply N.eqb_eq in H2. subst z.
    now rewrite H1.
  - apply andb_true_iff in H1 as [H1 _]. apply N.eqb_eq in H1. subst y.
    now rewrite H2.
  - apply andb_true_iff in H1 as [H1 H1']. apply andb_true_iff in H2 as [H2 H2'].
    apply N.eqb_eq in H1, H2. subst y z. rewrite N.eqb_refl, (IH _ _ H1' H2').
    apply orb_true_r.
Qed.

(** Each ordinal below 999 formats to a string less than its successor's. *)
Lemma format_03d_next :
  forallb (fun i => text_ltb (format_03d (N.of_nat i))
                             (format_03d (N.of_nat (Datatypes.S i))))
          (seq 0 999) = true.
Proof. vm_compute. reflexivity. Qed.

Lemma format_03d_lt (i j : nat) :
  (i < j)%nat -> (j < 1000)%nat ->
  text_ltb (format_03d (N.of_nat i)) (format_03d (N.of_nat j)) = true.
Proof.
  intros Hij Hj. induction j as [|j IH]; [lia|].
  assert (text_ltb (format_03d (N.of_nat j)) (format_03d (N.of_nat (Datatypes.S j)))
          = true) as Hstep.
  { pose proof format_03d_next as H. rewrite forallb_forall in H.
    apply (H j). apply in_seq. lia. }
  destruct (Nat.eq_dec i j) as [->|Hne]; [exact Hstep|].
  eapply text_ltb_trans; [apply IH; lia|exact Hstep].
Qed.

Lemma chunk_id_lt (filepath : text) (i j : nat) :
  (i < j)%nat -> (j < 1000)%nat ->
  text_ltb (chunk_id filepath i) (chunk_id filepath j) = true.
Proof.
  intros Hij Hj. unfold chunk_id. rewrite !text_ltb_prefix.
  now apply format_03d_lt.
Qed.

Lemma tag_chunks_lookup (filepath file_hash : text) (uuids : list text)
  (chunks : list document) (i : nat) chunk uuid :
  chunks !! i = Some chunk -> uuids !! i = Some uuid ->
  tag_chunks filepath file_hash uuids chunks !! i
  = Some (tag_chunk filepath file_hash i uuid chunk).
Proof.
  intros Hc Hu. unfold tag_chunks. rewrite list_lookup_imap.
  rewrite (lookup_zip_with pair chunks uuids i), Hc, Hu. reflexivity.
Qed.

Lemma tag_chunks_length (filepath file_hash : text) (uuids : list text)
  (chunks : list document) :
  length uuids = length chunks ->
  length (tag_chunks filepath file_hash uuids chunks) = length chunks.
Proof.
  intros H. unfold tag_chunks. rewrite length_imap, length_zip_with. lia.
Qed.

End ChunkIds.

(** ** The loop over the files *)

Section PipelineFacts.
Variable U : unicode_db.
Variable fs : file_system.
Variable c : collaborators.

Lemma process_file_eq (filepath : text) (st : run_state) :
  process_file U fs c filepath st
  = match loader_load c filepath with
    | Raise e => (Raise e, st)
    | Ok pages =>
        match get_file_hash fs filepath with
        | Raise e => (Raise e, st)
        | Ok file_hash =>
            let chunks := chunks_of U c pages in
            (Ok (tag_chunks filepath file_hash
                   (map (uuid4 c) (seq (uuids_drawn st) (length chunks))) chunks),
             {| disk := disk st;
                uuids_drawn := uuids_drawn st + length chunks |})
        end
    end.
Proof.
  unfold process_file, bind, lift, draw_uuids, ret, chunks_of.
  destruct (loader_load c filepath) as [pages|e]; [|reflexivity].
  destruct (get_file_hash fs filepath) as [h|e]; reflexivity.
Qed.

Lemma process_file_disk (filepath : text) (st : run_state) :
  disk (snd (process_file U fs c filepath st)) = disk st.
Proof.
  rewrite process_file_eq.
  destruct (loader_load c filepath) as [pages|e]; [|reflexivity].
  destruct (get_file_hash fs filepath) as [h|e]; reflexivity.
Qed.

Lemma process_files_disk (files : list text) (acc : list document) (st : run_state) :
  disk (snd (process_files U fs c files acc st)) = disk st.
Proof.
  revert acc st. induction files as [|f files IH]; intros acc st; [reflexivity|].
  cbn [process_files]. unfold bind.
  pose proof (process_file_disk f st) as H.
  destruct (process_file U fs c f st) as [[chunks|e] st1]; cbn in *.
  - now rewrite IH.
  - exact H.
Qed.

Lemma process_file_fails (filepath : text) (st : run_state) :
  file_fails fs c filepath -> exists e, process_file U fs c filepath st = (Raise e, st).
Proof.
  intros [[e H]|H]; rewrite process_file_eq.
  - rewrite H. eauto.
  - destruct (loader_load c filepath) as [pages|e]; [|eauto].
    rewrite get_file_hash_eq, H. eauto.
Qed.

Lemma process_file_error (filepath : text) (st : run_state) :
  file_fails fs c filepath ->
  process_file U fs c filepath st
  = (Raise (match loader_load c filepath with
            | Raise e => e
            | Ok _ => OSError
            end), st).
Proof.
  intros H. rewrite process_file_eq.
  destruct (loader_load c filepath) as [pages|e] eqn:L; [|reflexivity].
  destruct H as [[e H]|H]; [congruence|].
  now rewrite get_file_hash_eq, H.
Qed.

Lemma process_files_fail (files : list text) (acc : list document) (st : run_state) :
  (exists f, In f files /\ file_fails fs c f) ->
  exists e st', process_files U fs c files acc st = (Raise e, st').
Proof.
  revert acc st. induction files as [|f files IH]; intros acc st (g & Hin & Hg).
  - destruct Hin.
  - cbn [process_files]. unfold bind.
    destruct (process_file U fs c f st) as [[chunks|e] st1] eqn:E; [|eauto].
    destruct Hin as [->|Hin].
    + apply (process_file_fails _ st) in Hg as [e Hg]. congruence.
    + apply IH. eauto.
Qed.

End PipelineFacts.

(** C8: the chunks of a file are tagged in document order with the ordinals
    0, 1, 2, ...; each [chunk_id] is the basename of the file, an underscore
    and the ordinal padded with zeros to three digits, so for ordinals
    below 1000 the identifiers are in increasing lexicographic order. *)
Theorem chunk_ids_in_document_order (U : unicode_db) (fs : file_system)
  (c : collaborators) (filepath : text) (st : run_state)
  (pages : list document) (data : bytes) :
  loader_load c filepath = Ok pages ->
  fs_read fs filepath = Some data ->
  let chunks := split_documents c (map (clean_page U c) pages) in
  exists tagged st',
    process_file U fs c filepath st = (Ok tagged, st')
    /\ length tagged = length chunks
    /\ (forall i chunk, chunks !! i = Some chunk ->
          exists d, tagged !! i = Some d
            /\ page_content d = page_content chunk
            /\ metadata d !! "chunk_id"%string
               = Some (basename filepath ++ lit "_" ++ format_03d (N.of_nat i)))
    /\ (forall i j d1 d2 id1 id2,
          (i < j)%nat -> (j < 1000)%nat ->
          tagged !! i = Some d1 -> tagged !! j = Some d2 ->
          metadata d1 !! "chunk_id"%string = Some id1 ->
          metadata d2 !! "chunk_id"%string = Some id2 ->
          text_ltb id1 id2 = true).
Proof.
  intros Hload Hread chunks.
  set (uuids := map (uuid4 c) (seq (uuids_drawn st) (length chunks))).
  assert (length uuids = length chunks) as Hlen
    by (unfold uuids; now rewrite length_map, length_seq).
  assert (forall i chunk, chunks !! i = Some chunk ->
            exists uuid,
              tag_chunks filepath (MD5.hexdigest data) uuids chunks !! i
              = Some (tag_chunk filepath (MD5.hexdigest data) i uuid chunk))
    as Hlook.
  { intros i chunk Hc.
    destruct (uuids !! i) as [uuid|] eqn:Hu.
    - exists uuid. now apply tag_chunks_lookup.
    - apply lookup_ge_None in Hu. apply lookup_lt_Some in Hc. lia. }
  exists (tag_chunks filepath (MD5.hexdigest data) uuids chunks),
    {| disk := disk st; uuids_drawn := uuids_drawn st + length chunks |}.
  split; [|split; [|split]].
  - rewrite process_file_eq, Hload, get_file_hash_eq, Hread. reflexivity.
  - now apply tag_chunks_length.
  - intros i chunk Hc. destruct (Hlook i chunk Hc) as [uuid E].
    eexists. split; [exact E|]. split; [reflexivity|]. cbn.
    rewrite lookup_insert_ne by discriminate. now rewrite lookup_insert_eq.
  - intros i j d1 d2 id1 id2 Hij Hj H1 H2 E1 E2.
    destruct (chunks !! i) as [ch1|] eqn:C1.
    2:{ apply lookup_ge_None in C1. apply lookup_lt_Some in H1.
        rewrite tag_chunks_length in H1 by assumption. lia. }
    destruct (chunks !! j) as [ch2|] eqn:C2.
    2:{ apply lookup_ge_None in C2. apply lookup_lt_Some in H2.
        rewrite tag_chunks_length in H2 by assumption. lia. }
    destruct (Hlook i ch1 C1) as [u1 T1]. destruct (Hlook j ch2 C2) as [u2 T2].
    rewrite T1 in H1. rewrite T2 in H2. injection H1 as <-. injection H2 as <-.
    cbn in E1, E2.
    rewrite lookup_insert_ne, lookup_insert_eq in E1 by discriminate.
    rewrite lookup_insert_ne, lookup_insert_eq in E2 by discriminate.
    injection E1 as <-. injection E2 as <-. now apply chunk_id_lt.
Qed.

(** With more than 1000 chunks the order breaks: "…_1000" sorts before
    "…_101". *)
Example chunk_id_order_breaks :
  text_ltb (chunk_id (lit "papers/a.pdf") 1000) (chunk_id (lit "papers/a.pdf") 101)
  = true.
Proof. vm_compute. reflexivity. Qed.

(** ** Paths *)

Section Paths.

Lemma rfind_from_no_sep (f : text) i found :
  no_sep f = true -> rfind_from SEP f i found = found.
Proof.
  revert i found. induction f as [|x f IH]; intros i found H; [reflexivity|].
  cbn in *. apply andb_true_iff in H as [Hx Hf].
  apply negb_true_iff in Hx. rewrite Hx. now apply IH.
Qed.

Lemma rfind_from_app c (a b : text) i found :
  rfind_from c (a ++ b) i found
  = rfind_from c b (i + Z.of_nat (length a))%Z (rfind_from c a i found).
Proof.
  revert i found. induction a as [|x a IH]; intros i found.
  - cbn. now rewrite Z.add_0_r.
  - cbn [app rfind_from length]. rewrite IH. f_equal. lia.
Qed.

Lemma basename_no_sep (f : text) : no_sep f = true -> basename f = f.
Proof.
  intros H. unfold basename, str_rfind. now rewrite rfind_from_no_sep.
Qed.

Lemma basename_after_sep (a f : text) :
  no_sep f = true -> basename (a ++ [SEP] ++ f) = f.
Proof.
  intros H. unfold basename, str_rfind.
  rewrite rfind_from_app. cbn [app rfind_from]. rewrite N.eqb_refl.
  rewrite rfind_from_no_sep by assumption.
  replace (Z.to_nat (0 + Z.of_nat (length a) + 1)) with (length a + 1)%nat by lia.
  rewrite <- drop_drop, drop_app_length. reflexivity.
Qed.

Lemma endswith_sep (a : text) :
  endswith a [SEP] = true -> exists a', a = a' ++ [SEP].
Proof.
  unfold endswith. change (rev [SEP]) with [SEP].
  destruct (rev a) as [|x r] eqn:E; cbn [startswith]; [discriminate|].
  rewrite andb_true_r. intros H. apply N.eqb_eq in H. subst x.
  exists (rev r). apply (f_equal (@rev N)) in E. rewrite rev_involutive in E.
  exact E.
Qed.

Lemma no_sep_start (f : text) : no_sep f = true -> startswith f [SEP] = false.
Proof.
  destruct f as [|x f]; [reflexivity|]. unfold no_sep.
  cbn [forallb startswith]. intros H.
  apply andb_true_iff in H as [Hx _]. apply negb_true_iff in Hx.
  now rewrite N.eqb_sym, Hx.
Qed.

(** A name of a folder listing is the basename of its full path. *)
Lemma basename_join (folder f : text) :
  no_sep f = true -> basename (path_join folder f) = f.
Proof.
  intros H. unfold path_join. rewrite no_sep_start by assumption.
  destruct folder as [|x folder]; [now apply basename_no_sep|].
  destruct (endswith (x :: folder) [SEP]) eqn:E.
  - apply endswith_sep in E as [a' ->]. rewrite <- app_assoc.
    now apply basename_after_sep.
  - now apply basename_after_sep.
Qed.

Lemma text_eqb_eq (a b : text) : text_eqb a b = true <-> a = b.
Proof.
  revert b. induction a as [|x a IH]; intros [|y b]; cbn; split; try discriminate;
    try reflexivity.
  - intros H. apply andb_true_iff in H as [H1 H2].
    apply N.eqb_eq in H1. apply IH in H2. now subst.
  - intros [= -> ->]. rewrite N.eqb_refl. now apply IH.
Qed.

Lemma text_eqb_refl (a : text) : text_eqb a a = true.
Proof. now apply text_eqb_eq. Qed.

End Paths.

(** ** Change detection *)

Section Detection.
Variable U : unicode_db.
Variable fs : file_system.

Lemma scan_folder_ok K folder names acc :
  pdfs_readable U fs folder names ->
  scan_folder U fs K folder names acc
  = Ok (acc ++ map (path_join folder) (List.filter (detected U fs K folder) names)).
Proof.
  revert acc. induction names as [|f names IH]; intros acc Hr.
  - cbn. now rewrite app_nil_r.
  - assert (pdfs_readable U fs folder names) as Hr'
      by (intros g Hg; apply Hr; now right).
    cbn [scan_folder List.filter]. unfold detected at 1, changed.
    destruct (is_pdf U f) eqn:P; cbn [negb andb]; [|now apply IH].
    destruct (Hr f (or_introl eq_refl) P) as [data Hd].
    rewrite get_file_hash_eq, Hd.
    destruct (K !! f) as [known|]; [destruct (text_eqb known _)|]; cbn [negb];
      rewrite IH by assumption; cbn [map]; now rewrite <- ?app_assoc.
Qed.

Lemma scan_folder_unchanged K folder names acc :
  (forall f, In f names -> is_pdf U f = true ->
             exists h, get_file_hash fs (path_join folder f) = Ok h
                       /\ K !! f = Some h) ->
  scan_folder U fs K folder names acc = Ok acc.
Proof.
  revert acc. induction names as [|f names IH]; intros acc H; [reflexivity|].
  cbn [scan_folder]. destruct (is_pdf U f) eqn:P; cbn [negb].
  - destruct (H f (or_introl eq_refl) P) as (h & -> & ->).
    rewrite text_eqb_refl. cbn [negb]. apply IH. intros g Hg. apply H. now right.
  - apply IH. intros g Hg. apply H. now right.
Qed.

Lemma detected_iff K folder f :
  detected U fs K folder f = true
  <-> is_pdf U f = true
      /\ exists data, fs_read fs (path_join folder f) = Some data
           /\ (K !! f = None
               \/ exists known, K !! f = Some known /\ known <> MD5.hexdigest data).
Proof.
  unfold detected, changed. rewrite andb_true_iff, get_file_hash_eq.
  destruct (fs_read fs (path_join folder f)) as [data|].
  - split.
    + intros [P H]. split; [exact P|]. exists data. split; [reflexivity|].
      destruct (K !! f) as [known|]; [right|now left].
      exists known. split; [reflexivity|].
      apply negb_true_iff in H. intros E. apply text_eqb_eq in E. congruence.
    + intros [P (d & [= <-] & H)]. split; [exact P|].
      destruct H as [->|(known & -> & Hne)]; [reflexivity|].
      apply negb_true_iff. destruct (text_eqb known _) eqn:E; [|reflexivity].
      apply text_eqb_eq in E. contradiction.
  - split; [intros [_ H]; discriminate|intros [_ (d & H & _)]; discriminate].
Qed.

End Detection.

(** C1: when the folder can be listed and its PDF entries can be read,
    [get_new_pdfs] returns the paths of exactly the entries of the listing
    whose name ends in ".pdf" (in any case) and that have no known
    fingerprint or a fingerprint different from the known one, in listing
    order; every reported path is an entry of the listing, so names that are
    only in the table are never reported. *)
Theorem get_new_pdfs_detects (U : unicode_db) (fs : file_system)
  (folder : text) (K : gmap text text) (names : list text) :
  fs_listdir fs folder = Some names ->
  (forall f, In f names -> is_pdf U f = true ->
             is_Some (fs_read fs (path_join folder f))) ->
  exists new_files,
    get_new_pdfs U fs folder K = Ok new_files
    /\ new_files
       = map (path_join folder) (List.filter (detected U fs K folder) names)
    /\ (forall p, In p new_files <->
          exists f data,
            In f names /\ p = path_join folder f
            /\ endswith (lower U f) (lit ".pdf") = true
            /\ fs_read fs p = Some data
            /\ (K !! f = None
                \/ exists known, K !! f = Some known
                                 /\ known <> MD5.hexdigest data)).
Proof.
  intros Hl Hr. eexists. split; [|split; [reflexivity|]].
  - unfold get_new_pdfs, os_listdir. rewrite Hl.
    now rewrite scan_folder_ok by exact Hr.
  - intros p. rewrite in_map_iff. split.
    + intros (f & <- & Hf). apply filter_In in Hf as [Hin Hd].
      apply detected_iff in Hd as (P & data & Hd & HK).
      exists f, data. auto.
    + intros (f & data & Hin & -> & P & Hd & HK).
      exists f. split; [reflexivity|]. apply filter_In. split; [exact Hin|].
      apply detected_iff. split; [exact P|]. eauto.
Qed.

(** ** The merge and whole runs *)

Section Runs.
Variable U : unicode_db.
Variable fs : file_system.
Variable c : collaborators.

Lemma process_pdfs_eq (f : text) (files : list text) (st : run_state) :
  process_pdfs U fs c (f :: files) st
  = match process_files U fs c (f :: files) [] st with
    | (Raise e, st1) => (Raise e, st1)
    | (Ok all_docs, st1) =>
        let db := default [] (disk st1) in
        let opened := {| disk := Some db; uuids_drawn := uuids_drawn st1 |} in
        match embed_documents c (map page_content all_docs) with
        | Raise e => (Raise e, opened)
        | Ok vecs =>
            let batch := zip all_docs vecs in
            if (length vecs =? length all_docs)%nat && store_accepts c batch
            then
              let written := {| disk := Some (db ++ batch);
                                uuids_drawn := uuids_drawn st1 |} in
              if store_persists c (db ++ batch)
              then (Ok tt, written) else (Raise StoreError, written)
            else (Raise StoreError, opened)
        end
    end.
Proof.
  unfold process_pdfs, bind.
  destruct (process_files U fs c (f :: files) [] st) as [[all_docs|e] st1];
    [|reflexivity].
  unfold chroma_open, chroma_add_documents, chroma_persist, raise, ret.
  cbn [disk uuids_drawn].
  destruct (embed_documents c (map page_content all_docs)) as [vecs|e];
    [|reflexivity].
  destruct ((length vecs =? length all_docs)%nat && store_accepts c _);
    [|reflexivity].
  cbn [disk uuids_drawn].
  destruct (store_persists c _); reflexivity.
Qed.



Lemma process_pdfs_file_fails (files : list text) (st : run_state) :
  (exists f, In f files /\ file_fails fs c f) ->
  exists e st', process_pdfs U fs c files st = (Raise e, st') /\ disk st' = disk st.
Proof.
  intros H. destruct files as [|f files]; [destruct H as (g & [] & _)|].
  destruct (process_files_fail U fs c (f :: files) [] st H) as (e & st' & E).
  exists e, st'. rewrite process_pdfs_eq, E. split; [reflexivity|].
  pose proof (process_files_disk U fs c (f :: files) [] st) as Hd.
  now rewrite E in Hd.
Qed.

Lemma process_files_app (l1 l2 : list text) (acc : list document) (st : run_state) :
  process_files U fs c (l1 ++ l2) acc st
  = match process_files U fs c l1 acc st with
    | (Ok acc', st') => process_files U fs c l2 acc' st'
    | (Raise e, st') => (Raise e, st')
    end.
Proof.
  revert acc st. induction l1 as [|f l1 IH]; intros acc st; [reflexivity|].
  cbn [app process_files]. unfold bind.
  destruct (process_file U fs c f st) as [[chunks|e] st1]; [apply IH|reflexivity].
Qed.

Lemma process_files_succeed (files : list text) (acc : list document) (st : run_state) :
  (forall f, In f files -> ~ file_fails fs c f) ->
  exists docs st', process_files U fs c files acc st = (Ok docs, st').
Proof.
  revert acc st. induction files as [|f files IH]; intros acc st H.
  - cbn. unfold ret. eauto.
  - cbn [process_files]. unfold bind. rewrite process_file_eq.
    destruct (loader_load c f) as [pages|e] eqn:L.
    2:{ exfalso. apply (H f); [now left|]. left. eauto. }
    rewrite get_file_hash_eq.
    destruct (fs_read fs f) as [data|] eqn:R.
    2:{ exfalso. apply (H f); [now left|]. now right. }
    apply IH. intros g Hg. apply H. now right.
Qed.

End Runs.

(** C3 (as amended): a file of the work list on which the loader fails, or
    that cannot be read, aborts the run when the loop reaches it: the files
    before it have been processed, the files after it are not, the error of
    that file (the loader's, or [OSError] when the loader succeeds and the
    file cannot be read) is raised to the caller, and nothing is written to
    the store. *)
Theorem failing_file_aborts_run (U : unicode_db) (fs : file_system)
  (c : collaborators) (good : list text) (bad : text) (rest : list text)
  (st : run_state) :
  (forall f, In f good -> ~ file_fails fs c f) ->
  file_fails fs c bad ->
  exists docs st',
    process_files U fs c good [] st = (Ok docs, st')
    /\ process_pdfs U fs c (good ++ bad :: rest) st
       = (Raise (match loader_load c bad with
                 | Raise e => e
                 | Ok _ => OSError
                 end), st')
    /\ disk st' = disk st.
Proof.
  intros Hgood Hbad.
  destruct (process_files_succeed U fs c good [] st Hgood) as (docs & st' & Eg).
  pose proof (process_file_error U fs c bad st' Hbad) as Eb.
  exists docs, st'. split; [exact Eg|].
  set (e := match loader_load c bad with Raise e => e | Ok _ => OSError end) in *.
  assert (process_files U fs c (good ++ bad :: rest) [] st = (Raise e, st')) as E.
  { rewrite process_files_app, Eg. cbn [process_files]. unfold bind. now rewrite Eb. }
  assert (disk st' = disk st) as Hd.
  { pose proof (process_files_disk U fs c good [] st) as H. now rewrite Eg in H. }
  split; [|exact Hd].
  destruct good as [|g good]; cbn [app] in *; now rewrite process_pdfs_eq, E.
Qed.


(** ** Fingerprints recovered from the stored metadata *)

Section KnownHashes.

Lemma fold_record_other (metas : list (gmap string text)) (m : gmap text text)
  (f : text) :
  (forall meta s, In meta metas -> meta !! "source"%string = Some s ->
                  basename s <> f) ->
  foldl record_hash m metas !! f = m !! f.
Proof.
  revert m. induction metas as [|meta metas IH]; intros m H; [reflexivity|].
  cbn [foldl]. rewrite IH by (intros meta' s Hin; apply H; now right).
  unfold record_hash.
  destruct (meta !! "source"%string) as [s|] eqn:Es; [|reflexivity].
  destruct (meta !! "hash"%string) as [h|]; [|reflexivity].
  apply lookup_insert_ne. apply (H meta s); [now left|exact Es].
Qed.

Lemma fold_record_some (metas : list (gmap string text)) (m : gmap text text)
  (f h : text) :
  (forall meta s h', In meta metas -> meta !! "source"%string = Some s ->
                     meta !! "hash"%string = Some h' -> basename s = f -> h' = h) ->
  (m !! f = Some h
   \/ exists meta s, In meta metas /\ meta !! "source"%string = Some s
                     /\ meta !! "hash"%string = Some h /\ basename s = f) ->
  foldl record_hash m metas !! f = Some h.
Proof.
  revert m. induction metas as [|meta metas IH]; intros m Hc H.
  - destruct H as [H|(meta & s & [] & _)]. exact H.
  - cbn [foldl]. apply IH; [intros meta' s h' Hin; apply Hc; now right|].
    destruct H as [H|(meta' & s & [<-|Hin] & Hs & Hh & Hb)].
    + left. unfold record_hash.
      destruct (meta !! "source"%string) as [s|] eqn:Es; [|exact H].
      destruct (meta !! "hash"%string) as [h'|] eqn:Eh; [|exact H].
      destruct (decide (basename s = f)) as [Hb|Hb].
      * rewrite (Hc meta s h' (or_introl eq_refl) Es Eh Hb), <- Hb.
        apply lookup_insert_eq.
      * now rewrite lookup_insert_ne.
    + left. unfold record_hash. rewrite Hs, Hh, <- Hb. apply lookup_insert_eq.
    + right. exists meta', s. auto.
Qed.

Lemma load_default (d : option (list stored)) :
  load_existing_metadata d
  = foldl record_hash ∅ (chroma_get_metadatas (default [] d)).
Proof. destruct d; reflexivity. Qed.

Lemma metadatas_zip (docs : list document) (vecs : list vector) :
  length vecs = length docs ->
  chroma_get_metadatas (zip docs vecs) = map metadata docs.
Proof.
  intros H. unfold chroma_get_metadatas.
  rewrite <- (fst_zip docs vecs) at 2 by lia.
  now rewrite <- list_fmap_compose.
Qed.

End KnownHashes.

Section TaggedDocs.
Variable U : unicode_db.
Variable fs : file_system.
Variable c : collaborators.

Lemma tag_chunk_meta (p h : text) i u ch :
  metadata (tag_chunk p h i u ch) !! "source"%string = Some p
  /\ metadata (tag_chunk p h i u ch) !! "hash"%string = Some h.
Proof.
  cbn. split.
  - rewrite !lookup_insert_ne by discriminate. apply lookup_insert_eq.
  - rewrite !lookup_insert_ne by discriminate. apply lookup_insert_eq.
Qed.

Lemma tag_chunks_In (p h : text) uuids chunks d :
  In d (tag_chunks p h uuids chunks) ->
  exists i u ch, d = tag_chunk p h i u ch.
Proof.
  intros H. apply list_elem_of_In, list_elem_of_lookup in H as [i H].
  unfold tag_chunks in H. rewrite list_lookup_imap in H.
  destruct (zip chunks uuids !! i) as [[ch u]|]; [|discriminate].
  injection H as <-. eauto.
Qed.

Lemma process_files_sources (files : list text) (acc out : list document)
  (st st' : run_state) :
  process_files U fs c files acc st = (Ok out, st') ->
  exists new,
    out = acc ++ new
    /\ (forall d, In d new ->
          exists p, In p files /\ doc_of fs p d /\ yields_nothing U c p = false)
    /\ (forall p, In p files -> yields_nothing U c p = false ->
          exists d, In d new /\ doc_of fs p d)
    /\ (forall p, In p files -> exists pages, loader_load c p = Ok pages).
Proof.
  revert acc st. induction files as [|f files IH]; intros acc st H.
  - cbn in H. injection H as <- <-. exists []. rewrite app_nil_r.
    split; [reflexivity|]. split; [intros d []|]. split; intros p [].
  - cbn [process_files] in H. unfold bind in H. rewrite process_file_eq in H.
    destruct (loader_load c f) as [pages|e] eqn:L; [|discriminate].
    destruct (get_file_hash fs f) as [h|e] eqn:G; [|discriminate].
    cbn zeta in H. apply IH in H as (new & -> & Hall & Hex & Hload).
    set (uuids := map (uuid4 c) (seq (uuids_drawn st) (length (chunks_of U c pages)))) in *.
    set (tagged := tag_chunks f h uuids (chunks_of U c pages)) in *.
    assert (length tagged = length (chunks_of U c pages)) as Hlen.
    { apply tag_chunks_length. unfold uuids. now rewrite length_map, length_seq. }
    assert (forall d, In d tagged -> doc_of fs f d) as Htag.
    { intros d Hd. apply tag_chunks_In in Hd as (i & u & ch & ->).
      destruct (tag_chunk_meta f h i u ch) as [Hs Hh].
      split; [exact Hs|]. exists h. auto. }
    assert (yields_nothing U c f = false <-> tagged <> []) as Hyn.
    { unfold yields_nothing. rewrite L.
      destruct (chunks_of U c pages) as [|ch chs]; destruct tagged as [|d ds];
        try discriminate Hlen; split; congruence. }
    exists (tagged ++ new). rewrite app_assoc. split; [reflexivity|].
    split; [|split].
    + intros d Hd. apply in_app_or in Hd as [Hd|Hd].
      * exists f. split; [now left|]. split; [now apply Htag|].
        apply Hyn. intros E. rewrite E in Hd. destruct Hd.
      * destruct (Hall d Hd) as (p & Hp & Hdoc). exists p. split; [now right|exact Hdoc].
    + intros p [<-|Hp] Hne.
      * apply Hyn in Hne. destruct tagged as [|d tagged'] eqn:Et; [congruence|].
        exists d. split; [now left|]. apply Htag. now left.
      * destruct (Hex p Hp Hne) as (d & Hd & Hdoc).
        exists d. split; [apply in_or_app; now right|exact Hdoc].
    + intros p [<-|Hp]; [eauto|now apply Hload].
Qed.

Lemma filter_map_comm {A B} (g : A -> B) (P : B -> bool) (l : list A) :
  List.filter P (map g l) = map g (List.filter (fun a => P (g a)) l).
Proof.
  induction l as [|a l IH]; [reflexivity|]. cbn [map List.filter].
  destruct (P (g a)); cbn [map]; now rewrite IH.
Qed.

Lemma filter_both {A} (P Q : A -> bool) (l : list A) :
  List.filter Q (List.filter P l) = List.filter (fun a => P a && Q a) l.
Proof.
  induction l as [|a l IH]; [reflexivity|]. cbn [List.filter].
  destruct (P a); cbn [List.filter andb]; [destruct (Q a)|]; now rewrite IH.
Qed.

(** What the next detection finds once the chunks [new] of a run are in
    the store: of the files detected before, the ones that left no chunk. *)
Lemma detected_after_run (folder : text) (names : list text)
  (K0 : gmap text text) (new : list document) :
  (forall f, In f names -> no_sep f = true) ->
  pdfs_readable U fs folder names ->
  (forall d, In d new ->
     exists f, In f names /\ detected U fs K0 folder f = true
               /\ doc_of fs (path_join folder f) d
               /\ yields_nothing U c (path_join folder f) = false) ->
  (forall f, In f names -> detected U fs K0 folder f = true ->
     yields_nothing U c (path_join folder f) = false ->
     exists d, In d new /\ doc_of fs (path_join folder f) d) ->
  forall f, In f names ->
    detected U fs (foldl record_hash K0 (map metadata new)) folder f
    = detected U fs K0 folder f && yields_nothing U c (path_join folder f).
Proof.
  intros Hsep Hread Hsrc Hex f Hin.
  destruct (is_pdf U f) eqn:P; [|unfold detected; now rewrite P].
  destruct (Hread f Hin P) as [data Hdata].
  assert (get_file_hash fs (path_join folder f) = Ok (MD5.hexdigest data)) as Hh
    by now rewrite get_file_hash_eq, Hdata.
  destruct (detected U fs K0 folder f && negb (yields_nothing U c (path_join folder f)))
    eqn:Hcase.
  - (* a file of the run that left chunks: its fingerprint is known now *)
    apply andb_true_iff in Hcase as [Hdet Hyn]. apply negb_true_iff in Hyn.
    rewrite Hdet, Hyn. cbn [andb].
    assert (foldl record_hash K0 (map metadata new) !! f
            = Some (MD5.hexdigest data)) as HK.
    { apply fold_record_some.
      - intros meta s h' Hm Hs Hhash Hb.
        apply in_map_iff in Hm as (d & <- & Hd).
        destruct (Hsrc d Hd) as (f' & Hin' & _ & (Hs' & h'' & Hg & Hh') & _).
        rewrite Hs in Hs'. injection Hs' as ->.
        rewrite basename_join in Hb by now apply Hsep. subst f'. congruence.
      - right. destruct (Hex f Hin Hdet Hyn) as (d & Hd & Hs & h & Hg & Hhash).
        exists (metadata d), (path_join folder f).
        split; [now apply in_map|]. split; [exact Hs|].
        split; [congruence|]. apply basename_join. now apply Hsep. }
    unfold detected, changed. rewrite P, Hh, HK, text_eqb_refl. reflexivity.
  - (* any other file: what is known about it is what was known *)
    assert (foldl record_hash K0 (map metadata new) !! f = K0 !! f) as HK.
    { apply fold_record_other. intros meta s Hm Hs Hb.
      apply in_map_iff in Hm as (d & <- & Hd).
      destruct (Hsrc d Hd) as (f' & Hin' & Hdet' & (Hs' & _) & Hyn').
      rewrite Hs in Hs'. injection Hs' as ->.
      rewrite basename_join in Hb by now apply Hsep. subst f'.
      rewrite Hdet', Hyn' in Hcase. discriminate. }
    assert (detected U fs (foldl record_hash K0 (map metadata new)) folder f
            = detected U fs K0 folder f) as ->
      by (unfold detected, changed; now rewrite HK).
    destruct (detected U fs K0 folder f); [|reflexivity].
    cbn [andb] in *. now apply negb_false_iff in Hcase.
Qed.

Lemma scan_folder_readable K folder names acc out :
  scan_folder U fs K folder names acc = Ok out ->
  pdfs_readable U fs folder names.
Proof.
  revert acc. induction names as [|f names IH]; intros acc H g Hg P; [destruct Hg|].
  cbn [scan_folder] in H. destruct Hg as [->|Hg].
  - rewrite P in H. cbn [negb] in H. rewrite get_file_hash_eq in H.
    destruct (fs_read fs (path_join folder g)); [eauto|discriminate].
  - destruct (negb (is_pdf U f)); [now apply (IH _ H)|].
    destruct (get_file_hash fs (path_join folder f)); [|discriminate].
    now apply (IH _ H).
Qed.

End TaggedDocs.

(** C2 (as amended): after a run that completed, a second run on the
    unchanged folder adds nothing to the store.  Its work list holds the
    files of the first work list of which the splitter made no chunk: they
    left no fingerprint, are detected again and give nothing again.  When
    every file of the first work list gave a chunk, the second work list is
    empty and the second run returns at once, whatever the collaborators. *)
Theorem second_run_merges_nothing (U : unicode_db) (fs : file_system)
  (c : collaborators) (folder : text) (names work : list text)
  (st st1 : run_state) :
  fs_listdir fs folder = Some names ->
  (forall f, In f names -> no_sep f = true) ->
  get_new_pdfs U fs folder (load_existing_metadata (disk st)) = Ok work ->
  update_rag U fs c folder st = (Ok tt, st1) ->
  get_new_pdfs U fs folder (load_existing_metadata (disk st1))
  = Ok (List.filter (yields_nothing U c) work)
  /\ disk (snd (update_rag U fs c folder st1)) = disk st1
  /\ ((forall p pages, In p work -> loader_load c p = Ok pages ->
                       split_documents c (map (clean_page U c) pages) <> []) ->
      get_new_pdfs U fs folder (load_existing_metadata (disk st1)) = Ok []
      /\ forall c2, update_rag U fs c2 folder st1 = (Ok tt, st1)).
Proof.
  intros Hl Hsep Hw Hrun.
  (* the three parts follow from the second work list *)
  enough (get_new_pdfs U fs folder (load_existing_metadata (disk st1))
          = Ok (List.filter (yields_nothing U c) work)
          /\ (work <> [] -> exists db, disk st1 = Some db)
          /\ (forall p, In p work -> exists pages, loader_load c p = Ok pages))
    as (Hagain & Hsome & Hload).
  { split; [exact Hagain|]. split.
    - (* nothing is added *)
      unfold update_rag, bind, lift. rewrite Hagain.
      destruct (List.filter (yields_nothing U c) work) as [|q again] eqn:Ea;
        [reflexivity|].
      destruct Hsome as [db1 Hdb1].
      { intros ->. discriminate Ea. }
      rewrite process_pdfs_eq.
      pose proof (process_files_disk U fs c (q :: again) [] st1) as Hd.
      destruct (process_files U fs c (q :: again) [] st1) as [[docs|e] st2] eqn:Ep;
        [|exact Hd].
      cbn [snd] in Hd.
      apply process_files_sources in Ep as (new & -> & Hall & _).
      assert (new = []) as ->.
      { destruct new as [|d new']; [reflexivity|]. exfalso.
        destruct (Hall d (or_introl eq_refl)) as (p & Hp & _ & Hyn).
        rewrite <- Ea in Hp. apply filter_In in Hp as [_ Hp]. congruence. }
      cbn [app map]. cbn zeta. rewrite Hd, Hdb1.
      change (default [] (Some db1)) with db1.
      destruct (embed_documents c []) as [vecs|e]; [|reflexivity].
      cbn [zip zip_with]. rewrite app_nil_r.
      destruct (_ && _); [|reflexivity].
      destruct (store_persists c db1); reflexivity.
    - (* every file gave a chunk *)
      intros Hchunks.
      assert (List.filter (yields_nothing U c) work = []) as Enone.
      { destruct (List.filter (yields_nothing U c) work) as [|q again] eqn:Ea;
          [reflexivity|]. exfalso.
        assert (In q (List.filter (yields_nothing U c) work)) as Hq
          by (rewrite Ea; now left).
        apply filter_In in Hq as [Hq Hyn].
        destruct (Hload q Hq) as [pages Lq].
        unfold yields_nothing, chunks_of in Hyn. rewrite Lq in Hyn.
        specialize (Hchunks q pages Hq Lq).
        destruct (split_documents c (map (clean_page U c) pages));
          [congruence|discriminate]. }
      rewrite Enone in Hagain. split; [exact Hagain|].
      intros c2. unfold update_rag, bind, lift. now rewrite Hagain. }
  (* the second work list *)
  unfold update_rag, bind, lift in Hrun. rewrite Hw in Hrun.
  destruct work as [|p0 work'].
  { cbn in Hrun. injection Hrun as <-. cbn [List.filter].
    split; [exact Hw|]. split; [congruence|intros p []]. }
  set (K0 := load_existing_metadata (disk st)) in *.
  unfold get_new_pdfs, os_listdir in Hw |- *. rewrite Hl in Hw |- *.
  pose proof (scan_folder_readable U fs _ _ _ _ _ Hw) as Hread.
  rewrite (scan_folder_ok U fs K0 folder names [] Hread) in Hw.
  cbn [app] in Hw. injection Hw as Hw.
  rewrite process_pdfs_eq in Hrun.
  destruct (process_files U fs c (p0 :: work') [] st) as [[all_docs|e] st']
    eqn:Ep; [|discriminate].
  assert (disk st' = disk st) as Hd.
  { pose proof (process_files_disk U fs c (p0 :: work') [] st) as H.
    now rewrite Ep in H. }
  apply process_files_sources in Ep as (new & -> & Hall & Hex & Hload).
  cbn [app] in *. cbn zeta in Hrun.
  destruct (embed_documents c (map page_content new)) as [vecs|e];
    [|discriminate].
  destruct ((length vecs =? length new)%nat && store_accepts c (zip new vecs))
    eqn:Eacc; [|discriminate].
  destruct (store_persists c _); [|discriminate].
  injection Hrun as <-. cbn [disk].
  apply andb_true_iff in Eacc as [Elen _]. apply Nat.eqb_eq in Elen.
  split; [|split; [eauto|exact Hload]].
  (* the fingerprints known to the second run *)
  rewrite Hd. unfold load_existing_metadata at 1.
  unfold chroma_get_metadatas at 1. rewrite map_app, foldl_app.
  fold (chroma_get_metadatas (default [] (disk st))).
  fold (chroma_get_metadatas (zip new vecs)).
  rewrite <- load_default. fold K0. rewrite metadatas_zip by exact Elen.
  assert (pdfs_readable U fs folder names) as Hread' by exact Hread.
  rewrite (scan_folder_ok U fs _ folder names [] Hread'). cbn [app]. f_equal.
  rewrite <- Hw, filter_map_comm, filter_both. f_equal.
  apply filter_ext_in. intros f Hin.
  apply (detected_after_run U fs c folder names K0 new Hsep Hread); [| |exact Hin].
  - intros d Hd'. destruct (Hall d Hd') as (p & Hp & Hdoc & Hyn).
    rewrite <- Hw in Hp. apply in_map_iff in Hp as (f' & <- & Hf).
    apply filter_In in Hf as [Hin' Hdet]. eauto 6.
  - intros f' Hin' Hdet Hyn. apply Hex; [|exact Hyn].
    rewrite <- Hw. apply in_map. apply filter_In. auto.
Qed.

Example demo_first_run :
  fst (update_rag ascii_only Demo.fs Demo.collab Demo.folder Demo.fresh) = Ok tt
  /\ option_map (map (fun e => page_content (fst e))) (disk Demo.after_first_run)
     = Some [lit "Hello world"; lit "Hello world"]
  /\ load_existing_metadata (disk Demo.after_first_run) !! lit "a.PDF"
     = Some (lit "900150983cd24fb0d6963f7d28e17f72").
Proof. repeat split; vm_compute; reflexivity. Qed.

Lemma get_new_pdfs_detects_witness :
  exists new_files,
    get_new_pdfs ascii_only Demo.fs Demo.folder ∅ = Ok new_files
    /\ new_files = [lit "papers/a.PDF"; lit "papers/b.pdf"].
Proof.
  destruct (get_new_pdfs_detects ascii_only Demo.fs Demo.folder ∅
              [lit "a.PDF"; lit "notes.txt"; lit "b.pdf"])
    as (new_files & H1 & H2 & _).
  - reflexivity.
  - intros f [<-|[<-|[<-|[]]]] _; vm_compute; eauto.
  - exists new_files. split; [exact H1|]. rewrite H2. vm_compute. reflexivity.
Defined.

Lemma second_run_merges_nothing_witness :
  (get_new_pdfs ascii_only Demo.fs Demo.folder
     (load_existing_metadata (disk Demo.after_first_run)) = Ok []
   /\ forall c2,
        update_rag ascii_only Demo.fs c2 Demo.folder Demo.after_first_run
        = (Ok tt, Demo.after_first_run))
  /\ (let after := snd (update_rag ascii_only Demo.fs_scan Demo.collab
                          Demo.folder Demo.fresh) in
      get_new_pdfs ascii_only Demo.fs_scan Demo.folder
        (load_existing_metadata (disk after)) = Ok [lit "papers/scan.pdf"]
      /\ disk (snd (update_rag ascii_only Demo.fs_scan Demo.collab
                      Demo.folder after)) = disk after).
Proof.
  split.
  - destruct (second_run_merges_nothing ascii_only Demo.fs Demo.collab Demo.folder
                [lit "a.PDF"; lit "notes.txt"; lit "b.pdf"]
                [lit "papers/a.PDF"; lit "papers/b.pdf"] Demo.fresh
                Demo.after_first_run) as (_ & _ & H).
    + reflexivity.
    + intros f [<-|[<-|[<-|[]]]]; vm_compute; reflexivity.
    + vm_compute. reflexivity.
    + vm_compute. reflexivity.
    + apply H. intros p pages [<-|[<-|[]]] L; vm_compute in L; injection L as <-;
        vm_compute; discriminate.
  - cbn zeta.
    destruct (second_run_merges_nothing ascii_only Demo.fs_scan Demo.collab
                Demo.folder [lit "a.PDF"; lit "scan.pdf"]
                [lit "papers/a.PDF"; lit "papers/scan.pdf"] Demo.fresh
                (snd (update_rag ascii_only Demo.fs_scan Demo.collab
                        Demo.folder Demo.fresh))) as (H1 & H2 & _).
    + reflexivity.
    + intros f [<-|[<-|[]]]; vm_compute; reflexivity.
    + vm_compute. reflexivity.
    + vm_compute. reflexivity.
    + split; [|exact H2]. rewrite H1. vm_compute. reflexivity.
Defined.

(** C2 as stated fails: a file from which no chunk comes out leaves no
    fingerprint in the store, so the second run on the unchanged folder
    detects it again: its work list is not empty. *)
Lemma chunkless_file_is_detected_again :
  fst (update_rag ascii_only Demo.fs_scan Demo.collab Demo.folder Demo.fresh)
  = Ok tt
  /\ get_new_pdfs ascii_only Demo.fs_scan Demo.folder
       (load_existing_metadata
          (disk (snd (update_rag ascii_only Demo.fs_scan Demo.collab
                        Demo.folder Demo.fresh))))
     = Ok [lit "papers/scan.pdf"].
Proof. split; vm_compute; reflexivity. Qed.

Lemma failing_file_aborts_run_witness :
  exists docs st',
    process_files ascii_only Demo.fs Demo.collab [lit "papers/a.PDF"] [] Demo.fresh
    = (Ok docs, st')
    /\ process_pdfs ascii_only Demo.fs Demo.collab
         ([lit "papers/a.PDF"] ++ lit "papers/broken.pdf" :: [lit "papers/b.pdf"])
         Demo.fresh = (Raise LoaderError, st')
    /\ disk st' = disk Demo.fresh.
Proof.
  apply (failing_file_aborts_run ascii_only Demo.fs Demo.collab
           [lit "papers/a.PDF"] (lit "papers/broken.pdf") [lit "papers/b.pdf"]
           Demo.fresh).
  - intros f [<-|[]] [[e H]|H]; vm_compute in H; discriminate.
  - left. exists LoaderError. vm_compute. reflexivity.
Defined.

(** C3 as stated fails: the file after the broken one is never processed
    and the run ends with the loader's error, the store untouched ... *)
Lemma one_bad_file_aborts_the_run :
  process_pdfs ascii_only Demo.fs Demo.collab
    [lit "papers/broken.pdf"; lit "papers/b.pdf"] Demo.fresh
  = (Raise LoaderError, Demo.fresh)
  /\ (* ... although that file alone is processed and stored *)
  exists stored_chunk,
    process_pdfs ascii_only Demo.fs Demo.collab [lit "papers/b.pdf"] Demo.fresh
    = (Ok tt, {| disk := Some [stored_chunk]; uuids_drawn := 1 |}).
Proof. split; [|eexists]; vm_compute; reflexivity. Qed.



Lemma chunk_ids_in_document_order_witness :
  exists tagged st',
    process_file ascii_only Demo.fs Demo.collab_pages (lit "papers/a.PDF") Demo.fresh
    = (Ok tagged, st')
    /\ map (fun d => metadata d !! "chunk_id"%string) tagged
       = [Some (lit "a.PDF_000"); Some (lit "a.PDF_001"); Some (lit "a.PDF_002")]
    /\ map page_content tagged
       = [lit "First page."; lit "Second page."; lit "Third page."]
    /\ text_ltb (lit "a.PDF_000") (lit "a.PDF_001") = true
    /\ text_ltb (lit "a.PDF_001") (lit "a.PDF_002") = true
    /\ text_ltb (lit "a.PDF_000") (lit "a.PDF_002") = true.
Proof.
  destruct (chunk_ids_in_document_order ascii_only Demo.fs Demo.collab_pages
              (lit "papers/a.PDF") Demo.fresh
              [Demo.page (lit "First page."); Demo.page (lit "Second page.");
               Demo.page (lit "Third page.")]
              (lit "abc"))
    as (tagged & st' & H1 & H2 & H3 & H4).
  - reflexivity.
  - reflexivity.
  - exists tagged, st'. split; [exact H1|].
    destruct (H3 0%nat (Demo.page (lit "First page."))) as (d0 & Hd0 & Hc0 & Hid0);
      [vm_compute; reflexivity|].
    destruct (H3 1%nat (Demo.page (lit "Second page."))) as (d1 & Hd1 & Hc1 & Hid1);
      [vm_compute; reflexivity|].
    destruct (H3 2%nat (Demo.page (lit "Third page."))) as (d2 & Hd2 & Hc2 & Hid2);
      [vm_compute; reflexivity|].
    assert (tagged = [d0; d1; d2]) as ->.
    { vm_compute in H2. destruct tagged as [|x0 [|x1 [|x2 [|x3 tagged]]]];
        try discriminate H2. cbn in Hd0, Hd1, Hd2. congruence. }
    assert (forall i j : nat, (i < j)%nat -> (j < 1000)%nat ->
              forall a b ia ib, [d0; d1; d2] !! i = Some a -> [d0; d1; d2] !! j = Some b ->
              metadata a !! "chunk_id"%string = Some ia ->
              metadata b !! "chunk_id"%string = Some ib -> text_ltb ia ib = true) as Hord
      by (intros i j Hij Hj a b ia ib; apply H4; assumption).
    cbn [map]. rewrite Hid0, Hid1, Hid2, Hc0, Hc1, Hc2.
    split; [vm_compute; reflexivity|]. split; [vm_compute; reflexivity|].
    split; [|split].
    + apply (Hord 0%nat 1%nat ltac:(lia) ltac:(lia) d0 d1); try reflexivity.
      * rewrite Hid0. vm_compute. reflexivity.
      * rewrite Hid1. vm_compute. reflexivity.
    + apply (Hord 1%nat 2%nat ltac:(lia) ltac:(lia) d1 d2); try reflexivity.
      * rewrite Hid1. vm_compute. reflexivity.
      * rewrite Hid2. vm_compute. reflexivity.
    + apply (Hord 0%nat 2%nat ltac:(lia) ltac:(lia) d0 d2); try reflexivity.
      * rewrite Hid0. vm_compute. reflexivity.
      * rewrite Hid2. vm_compute. reflexivity.
Defined.

(** * Further properties *)

(** ** More on [normalize_text] *)

Section NormalizeMore.

Lemma norm_char_plain (c : char) : typographic c = false -> norm_char c = [c].
Proof.
  unfold typographic, norm_char. intros H.
  repeat (apply orb_false_iff in H as [H ?]).
  now rewrite H, H0, H1, H2, H3.
Qed.

Lemma norm_char_out (c x : char) : In x (norm_char c) -> typographic x = false.
Proof.
  unfold norm_char.
  destruct (N.eqb_spec c 64257) as [->|n1];
    [cbn; intros [<-|[<-|[]]]; reflexivity|].
  destruct (N.eqb_spec c 64258) as [->|n2];
    [cbn; intros [<-|[<-|[]]]; reflexivity|].
  destruct (N.eqb_spec c 8220) as [->|n3]; [cbn; intros [<-|[]]; reflexivity|].
  destruct (N.eqb_spec c 8221) as [->|n4]; [cbn; intros [<-|[]]; reflexivity|].
  cbn [orb].
  destruct (N.eqb_spec c 8217) as [->|n5]; [cbn; intros [<-|[]]; reflexivity|].
  intros [<-|[]]. unfold typographic.
  apply N.eqb_neq in n1, n2, n3, n4, n5. now rewrite n1, n2, n3, n4, n5.
Qed.

Lemma norm_char_length (c : char) : (1 <= length (norm_char c) <= 2)%nat.
Proof.
  unfold norm_char.
  repeat match goal with
         | |- context [if ?b then _ else _] => destruct b
         end; cbn; lia.
Qed.

Lemma normalize_text_out (t : text) x :
  In x (normalize_text t) -> typographic x = false.
Proof.
  rewrite normalize_text_chars. intros H. apply in_flat_map in H as (c & _ & H).
  now apply norm_char_out in H.
Qed.

End NormalizeMore.

(** [normalize_text] works character by character: the result for a
    concatenation is the concatenation of the results, so a ligature or quote
    is rewritten the same way wherever it stands. *)
Theorem normalize_text_app (a b : text) :
  normalize_text (a ++ b) = normalize_text a ++ normalize_text b.
Proof. rewrite !normalize_text_chars. apply flat_map_app. Qed.

(** None of the five typographic characters is left in the result of
    [normalize_text]. *)
Theorem normalize_text_no_typographic (t : text) :
  forallb (fun x => negb (typographic x)) (normalize_text t) = true.
Proof.
  apply forallb_forall. intros x H. apply normalize_text_out in H. now rewrite H.
Qed.

(** [normalize_text] returns its argument unchanged exactly when none of the
    five characters occurs in it; the result is never shorter than the
    argument and at most twice as long. *)
Theorem normalize_text_fixed_iff (t : text) :
  (normalize_text t = t <-> forallb (fun c => negb (typographic c)) t = true)
  /\ (length t <= length (normalize_text t) <= 2 * length t)%nat.
Proof.
  rewrite normalize_text_chars. split.
  - induction t as [|c t IH]; [now split|]. cbn [flat_map forallb].
    destruct (typographic c) eqn:E; cbn [negb andb].
    + split; [|discriminate]. intros H. exfalso.
      unfold norm_char, typographic in *.
      destruct (N.eqb_spec c 64257) as [->|n1]; [discriminate H|].
      destruct (N.eqb_spec c 64258) as [->|n2]; [discriminate H|].
      destruct (N.eqb_spec c 8220) as [->|n3]; [discriminate H|].
      destruct (N.eqb_spec c 8221) as [->|n4]; [discriminate H|].
      destruct (N.eqb_spec c 8217) as [->|n5]; [discriminate H|].
      discriminate E.
    + rewrite (norm_char_plain c E). cbn [app]. rewrite <- IH.
      split; [now intros [= ->]|now intros ->].
  - induction t as [|c t IH]; [cbn; lia|]. cbn [flat_map length].
    rewrite length_app. pose proof (norm_char_length c). lia.
Qed.

(** ** More on [remove_references] *)

Section ReferencesMore.
Variable U : unicode_db.

Lemma remove_references_eq (t : text) :
  remove_references U t
  = match first_ref U None t with
    | Some i => take i t
    | None => t
    end.
Proof.
  unfold remove_references, re_split.
  pose proof (split_loop_first U (2 * length t + 2) None t []) as H.
  specialize (H ltac:(lia)).
  destruct (split_loop U IGNORECASE _ _ _ _ _ _) as [|p ps]; cbn in H.
  - discriminate H.
  - injection H as ->. reflexivity.
Qed.

Lemma ref_at_boundary prev (x : text) :
  ref_at U prev x = true -> word_boundary U prev (head x) = true.
Proof.
  unfold ref_at, token_at. intros H.
  apply orb_true_iff in H as [H|H]; now apply andb_true_iff in H as [H _].
Qed.

(** A token found in a prefix of the text is a token of the text itself
    when a word boundary follows the prefix. *)
Lemma token_at_take tok prev (x : text) k :
  tok <> [] ->
  token_at U tok prev (take k x) = true ->
  word_boundary U (last_of prev (take k x)) (head (drop k x)) = true ->
  token_at U tok prev x = true.
Proof.
  intros Htok H Hb. unfold token_at in *.
  apply andb_true_iff in H as [Hb1 H].
  destruct (after_token U IGNORECASE tok prev (take k x)) as [[q t']|] eqn:E;
    [|discriminate].
  assert (take k x <> []) as Hne.
  { intros Hnil. rewrite Hnil in E. destruct tok; [congruence|discriminate E]. }
  pose proof (after_token_app U tok prev (take k x) (drop k x) q t' E) as E2.
  rewrite take_drop in E2. rewrite E2.
  apply after_token_matches in E as (w & Ew & -> & _).
  assert (head x = head (take k x)) as ->.
  { destruct x, k; cbn in *; congruence. }
  rewrite Hb1. cbn [andb].
  destruct t' as [|d t'].
  - rewrite app_nil_r in Ew. rewrite Ew in Hb. exact Hb.
  - exact H.
Qed.

Lemma ref_at_take prev (x : text) k :
  ref_at U prev (take k x) = true ->
  ref_at U (last_of prev (take k x)) (drop k x) = true ->
  ref_at U prev x = true.
Proof.
  intros H Hk. apply ref_at_boundary in Hk. unfold ref_at in *.
  apply orb_true_iff in H as [H|H]; apply orb_true_iff; [left|right];
    (eapply token_at_take; [discriminate|exact H|exact Hk]).
Qed.

Lemma ref_at_nil prev : ref_at U prev [] = false.
Proof. unfold ref_at, token_at. cbn. now rewrite !andb_false_r. Qed.

Lemma first_ref_take prev (x : text) i :
  first_ref U prev x = Some i -> first_ref U prev (take i x) = None.
Proof.
  revert prev i. induction x as [|c x IH]; intros prev i; cbn [first_ref].
  - destruct (ref_at U prev []) eqn:E; [|discriminate].
    now rewrite ref_at_nil in E.
  - destruct (ref_at U prev (c :: x)) eqn:E.
    + intros [= <-]. cbn [take first_ref]. now rewrite ref_at_nil.
    + destruct (first_ref U (Some c) x) as [i'|] eqn:F; [|discriminate].
      intros [= <-]. cbn [take first_ref]. rewrite (IH _ _ F).
      destruct (ref_at U prev (c :: take i' x)) eqn:E2; [|reflexivity].
      exfalso. apply first_ref_spec in F as [F _].
      change (c :: take i' x) with (take (S i') (c :: x)) in E2.
      apply ref_at_take in E2; [congruence|].
      cbn [take drop]. now rewrite last_of_cons.
Qed.

End ReferencesMore.

(** Cutting at the references twice is the same as cutting once: what
    [remove_references] returns holds no whole-word "References" or
    "Bibliography" any more, and it is a prefix of the argument. *)
Theorem remove_references_idempotent (U : unicode_db) (t : text) :
  remove_references U (remove_references U t) = remove_references U t
  /\ first_ref U None (remove_references U t) = None
  /\ exists rest, t = remove_references U t ++ rest.
Proof.
  assert (first_ref U None (remove_references U t) = None) as H.
  { rewrite remove_references_eq.
    destruct (first_ref U None t) as [i|] eqn:F; [|exact F].
    now apply first_ref_take. }
  split; [|split; [exact H|]].
  - rewrite (remove_references_eq U (remove_references U t)). now rewrite H.
  - rewrite remove_references_eq. destruct (first_ref U None t) as [i|].
    + exists (drop i t). now rewrite take_drop.
    + exists []. now rewrite app_nil_r.
Qed.

(** ** More on [clean_text] *)

Section ScanMore.
Variable U : unicode_db.
Variable fl : flags.

(** A pass invents nothing: every character it returns comes from the
    replacement or from the text. *)
Lemma sub_loop_chars r repl x fuel adv prev rest :
  In x (sub_loop U fl fuel r repl adv prev rest) -> In x repl \/ In x rest.
Proof.
  revert adv prev rest. induction fuel as [|fuel IH]; intros adv prev rest H.
  - now right.
  - cbn [sub_loop] in H.
    destruct (match_here U fl r adv prev rest) as [[p t]|] eqn:E.
    + apply match_here_some in E as (w & -> & _).
      apply in_app_or in H as [H|H]; [now left|].
      apply IH in H as [H|H]; [now left|]. right. apply in_or_app. now right.
    + destruct rest as [|c t]; [destruct H|].
      destruct H as [<-|H]; [right; now left|].
      apply IH in H as [H|H]; [now left|]. right. now right.
Qed.

(** Where the pattern is found nowhere, the pass returns the text as it
    is. *)
Lemma sub_loop_no_match r repl fuel prev rest :
  search_from U fl r prev rest = false ->
  sub_loop U fl fuel r repl false prev rest = rest.
Proof.
  revert prev rest. induction fuel as [|fuel IH]; intros prev rest H; [reflexivity|].
  cbn [sub_loop]. destruct rest as [|c t]; cbn [search_from] in H.
  - destruct (match_here U fl r false prev []); [discriminate|reflexivity].
  - destruct (match_here U fl r false prev (c :: t)); [discriminate|].
    now rewrite IH.
Qed.

Lemma re_sub_no_match r repl (s : text) :
  re_search U fl r s = false -> re_sub U fl r repl s = s.
Proof. apply sub_loop_no_match. Qed.

(** A pass that deletes its matches never makes the text longer, and makes
    it shorter where a non-empty match is found. *)
Lemma sub_loop_del_length r fuel adv prev rest :
  (length (sub_loop U fl fuel r [] adv prev rest) <= length rest)%nat.
Proof.
  revert adv prev rest. induction fuel as [|fuel IH]; intros adv prev rest; [cbn; lia|].
  cbn [sub_loop].
  destruct (match_here U fl r adv prev rest) as [[p t]|] eqn:E.
  - apply match_here_some in E as (w & -> & _). cbn [app].
    etransitivity; [apply IH|]. rewrite length_app. lia.
  - destruct rest as [|c t]; [cbn; lia|]. cbn [length].
    specialize (IH false (Some c) t). lia.
Qed.

Lemma sub_loop_del_shorter r fuel prev rest :
  nonempty_pat U fl r ->
  search_from U fl r prev rest = true -> (length rest < fuel)%nat ->
  (length (sub_loop U fl fuel r [] false prev rest) < length rest)%nat.
Proof.
  intros Hne. revert prev rest.
  induction fuel as [|fuel IH]; intros prev rest H Hf; [lia|].
  cbn [sub_loop].
  destruct (match_here U fl r false prev rest) as [[p t]|] eqn:E.
  - apply match_here_some in E as (w & -> & M & _). cbn [app].
    apply Hne in M.
    pose proof (sub_loop_del_length r fuel
                  (length t =? length (w ++ t))%nat p t) as L.
    revert L. generalize (sub_loop U fl fuel r []
                            (length t =? length (w ++ t))%nat p t).
    intros out L. rewrite length_app. destruct w; [congruence|]. cbn [length]. lia.
  - destruct rest as [|c t]; cbn [search_from] in H; rewrite E in H;
      [discriminate|].
    cbn [length] in *. specialize (IH (Some c) t H ltac:(lia)). lia.
Qed.

End ScanMore.

Section CleanTextMore.
Variable U : unicode_db.

Lemma squeeze_In b (s : text) x : In x (squeeze_from b s) -> In x s.
Proof.
  revert b. induction s as [|c s IH]; intros b; [easy|]. cbn [squeeze_from].
  destruct (N.eqb_spec c NL) as [->|]; [destruct b|]; cbn [In]; intros H.
  - right. eapply IH, H.
  - destruct H as [<-|H]; [now left|right; eapply IH, H].
  - destruct H as [<-|H]; [now left|right; eapply IH, H].
Qed.

Lemma squeeze_length b (s : text) : (length (squeeze_from b s) <= length s)%nat.
Proof.
  revert b. induction s as [|c s IH]; intros b; [cbn; lia|]. cbn [squeeze_from].
  destruct (c =? NL); [destruct b|]; cbn [length].
  - specialize (IH true). lia.
  - specialize (IH true). lia.
  - specialize (IH false). lia.
Qed.

Lemma squeeze_no_nl b (s : text) : forallb not_nl s = true -> squeeze_from b s = s.
Proof.
  revert b. induction s as [|c s IH]; intros b H; [reflexivity|].
  cbn [forallb] in H. apply andb_true_iff in H as [Hc H].
  cbn [squeeze_from]. unfold not_nl in Hc. apply negb_true_iff in Hc.
  now rewrite Hc, IH.
Qed.

Lemma collapse_In b (z : text) x :
  In x (collapse_from b z) -> x = SP \/ (In x z /\ is_space x = false).
Proof.
  revert b. induction z as [|c z IH]; intros b; [easy|]. cbn [collapse_from].
  destruct (is_space c) eqn:E; [destruct b|]; cbn [In]; intros H.
  - apply IH in H as [H|[H1 H2]]; auto.
  - destruct H as [<-|H]; [now left|]. apply IH in H as [H|[H1 H2]]; auto.
  - destruct H as [<-|H]; [right; auto|]. apply IH in H as [H|[H1 H2]]; auto.
Qed.

Lemma collapse_length b (z : text) : (length (collapse_from b z) <= length z)%nat.
Proof.
  revert b. induction z as [|c z IH]; intros b; [cbn; lia|]. cbn [collapse_from].
  destruct (is_space c); [destruct b|]; cbn [length].
  - specialize (IH true). lia.
  - specialize (IH true). lia.
  - specialize (IH false). lia.
Qed.

Lemma strip_length (s : text) : (length (strip s) <= length s)%nat.
Proof.
  unfold strip, rstrip, lstrip. rewrite length_rev.
  etransitivity; [apply drop_while_length|]. rewrite length_rev.
  apply drop_while_length.
Qed.

(** Collapsing white space does not see whether runs of line breaks were
    squeezed before. *)
Lemma collapse_squeeze b a (s : text) :
  (a = true -> b = true) ->
  collapse_from b (squeeze_from a s) = collapse_from b s.
Proof.
  revert a b. induction s as [|c s IH]; intros a b Hab; [reflexivity|].
  cbn [squeeze_from collapse_from].
  destruct (N.eqb_spec c NL) as [->|Hc].
  - change (is_space NL) with true. cbv iota.
    destruct a.
    + rewrite (Hab eq_refl). now apply IH.
    + cbn [collapse_from]. change (is_space NL) with true. cbv iota.
      destruct b; [|f_equal]; now apply IH.
  - cbn [collapse_from]. destruct (is_space c); [destruct b|];
      [| f_equal | f_equal]; apply IH; congruence.
Qed.

(** *** Texts that are already clean *)

Lemma spaced_ok_chars b (s : text) :
  spaced_ok b s = true -> Forall (fun x => is_space x = false \/ x = SP) s.
Proof.
  revert b. induction s as [|c s IH]; intros b H; [constructor|].
  cbn [spaced_ok] in H. destruct (is_space c) eqn:E.
  - apply andb_true_iff in H as [H H2]. apply andb_true_iff in H as [_ H1].
    apply N.eqb_eq in H1. constructor; [now right|eapply IH, H2].
  - constructor; [now left|eapply IH, H].
Qed.

Lemma spaced_ok_collapse b (s : text) :
  spaced_ok b s = true -> collapse_from b s = s.
Proof.
  revert b. induction s as [|c s IH]; intros b H; [reflexivity|].
  cbn [spaced_ok] in H. cbn [collapse_from]. destruct (is_space c) eqn:E.
  - apply andb_true_iff in H as [H H2]. apply andb_true_iff in H as [Hb H1].
    apply N.eqb_eq in H1. subst c. apply negb_true_iff in Hb. subst b.
    now rewrite IH.
  - now rewrite IH.
Qed.

Lemma spaced_ok_weaken (s : text) :
  spaced_ok true s = true -> spaced_ok false s = true.
Proof.
  destruct s as [|c s]; [discriminate|]. cbn [spaced_ok].
  destruct (is_space c); [discriminate|easy].
Qed.

Lemma spaced_ok_rstrip b (s : text) : spaced_ok b s = true -> rstrip s = s.
Proof.
  revert b. induction s as [|c s IH]; intros b H; [reflexivity|].
  rewrite rstrip_cons. cbn [spaced_ok] in H. destruct (is_space c) eqn:E.
  - apply andb_true_iff in H as [_ H]. cbn [andb].
    destruct s as [|d s]; [discriminate|]. pose proof H as H'.
    cbn [spaced_ok] in H'. cbn [forallb].
    destruct (is_space d); [discriminate|]. cbn [andb]. now rewrite (IH _ H).
  - cbn [andb]. now rewrite (IH _ H).
Qed.

Lemma tidy_strip (s : text) : tidy s = true -> strip (collapse_ws s) = s.
Proof.
  destruct s as [|c s]; [reflexivity|]. unfold tidy. intros H.
  unfold collapse_ws. rewrite (spaced_ok_collapse false) by now apply spaced_ok_weaken.
  unfold strip. assert (lstrip (c :: s) = c :: s) as ->.
  { unfold lstrip. cbn [drop_while]. cbn [spaced_ok] in H.
    destruct (is_space c); [discriminate|reflexivity]. }
  now apply (spaced_ok_rstrip true).
Qed.

Lemma tidy_no_nl (s : text) : tidy s = true -> forallb not_nl s = true.
Proof.
  destruct s as [|c s]; [reflexivity|]. unfold tidy. intros H.
  eapply tidy_chars_no_nl, spaced_ok_chars, H.
Qed.

Lemma page_nonempty : nonempty_pat U IGNORECASE Patterns.page_number.
Proof.
  intros prev w t M. unfold Patterns.page_number in M.
  apply matches_Cat in M as (w1 & w2 & -> & _ & M).
  apply matches_Cat in M as (w3 & w4 & -> & M & _).
  change (lit "Page") with (80 :: lit "age") in M. cbn [Lits] in M.
  apply matches_Cat in M as (w5 & w6 & -> & (c & -> & _) & _).
  destruct w1; discriminate.
Qed.

(** *** Texts without digits *)

Lemma starts_with_In f (y : text) :
  starts_with f y = true -> exists d, In d y /\ f d = true.
Proof. destruct y as [|d y]; [discriminate|]. intros H. exists d. split; [now left|exact H]. Qed.

Lemma page_at_digit prev (x : text) :
  page_at U prev x = true -> exists d, In d x /\ is_digit U d = true.
Proof.
  unfold page_at. intros H. apply andb_true_iff in H as [_ H].
  destruct (after_token U IGNORECASE (lit "Page") prev x) as [[q x1]|] eqn:E;
    [|discriminate].
  apply after_token_matches in E as (w & -> & _).
  unfold page_tail in H. apply andb_true_iff in H as [H _].
  apply starts_with_In in H as (d & Hd & Hdig). exists d. split; [|exact Hdig].
  apply in_or_app. right. eapply In_drop_while, Hd.
Qed.

Lemma dl_here_digit prev (x : text) :
  dl_here U prev x = true -> exists d, In d x /\ is_digit U d = true.
Proof.
  unfold dl_here, digit_line_at. intros H. apply andb_true_iff in H as [_ H].
  apply andb_true_iff in H as [H _].
  apply starts_with_In in H as (d & Hd & Hdig). exists d. split; [|exact Hdig].
  eapply In_drop_while, Hd.
Qed.

Lemma exists_at_none b prev (x : text) :
  (forall p y, incl y x -> b p y = false) -> exists_at b prev x = false.
Proof.
  revert prev. induction x as [|c x IH]; intros prev H; cbn [exists_at].
  - rewrite H by easy. reflexivity.
  - rewrite H by easy. cbn [orb]. apply IH. intros p y Hy. apply H.
    now apply incl_tl.
Qed.

Lemma no_digit_no_page prev (x : text) :
  forallb (fun c => negb (is_digit U c)) x = true ->
  exists_at (page_at U) prev x = false.
Proof.
  intros H. apply exists_at_none. intros p y Hy.
  destruct (page_at U p y) eqn:E; [|reflexivity].
  apply page_at_digit in E as (d & Hd & Hdig).
  apply Hy in Hd. rewrite forallb_forall in H. apply H in Hd.
  now rewrite Hdig in Hd.
Qed.

Lemma no_digit_no_line prev (x : text) :
  forallb (fun c => negb (is_digit U c)) x = true ->
  exists_at (dl_here U) prev x = false.
Proof.
  intros H. apply exists_at_none. intros p y Hy.
  destruct (dl_here U p y) eqn:E; [|reflexivity].
  apply dl_here_digit in E as (d & Hd & Hdig).
  apply Hy in Hd. rewrite forallb_forall in H. apply H in Hd.
  now rewrite Hdig in Hd.
Qed.

(** *** What every result of [clean_text] satisfies *)

Lemma clean_text_tidy (t : text) : tidy (clean_text U t) = true.
Proof. rewrite clean_text_tail. apply tidy_strip_collapse. Qed.

Lemma clean_text_no_digit_line (t : text) :
  re_search U MULTILINE Patterns.digit_line (clean_text U t) = false.
Proof.
  unfold re_search. rewrite digit_line_search, no_nl_exists_dl.
  - destruct (dl_here U None (clean_text U t)) eqn:E; [|reflexivity].
    unfold dl_here in E. cbn [at_bol andb] in E.
    rewrite clean_text_tail in E. apply dl_strip_collapse in E.
    pose proof (digit_line_pass_clean U
                  (re_sub U IGNORECASE Patterns.page_number []
                     (re_sub U NOFLAG Patterns.newlines [NL] t))) as Hdl.
    unfold re_search in Hdl. rewrite digit_line_search in Hdl.
    rewrite exists_at_here in Hdl; [discriminate|].
    unfold dl_here. now rewrite E.
  - rewrite clean_text_tail. apply strip_collapse_no_nl.
Qed.

Lemma clean_text_length_from (t : text) :
  (length (clean_text U t)
   <= length (re_sub U IGNORECASE Patterns.page_number []
                (re_sub U NOFLAG Patterns.newlines [NL] t)))%nat.
Proof.
  rewrite clean_text_tail.
  etransitivity; [apply strip_length|].
  etransitivity; [apply collapse_length|]. apply sub_loop_del_length.
Qed.

Lemma clean_text_length_le (t : text) :
  (length (clean_text U t) <= length t)%nat.
Proof.
  etransitivity; [apply clean_text_length_from|].
  etransitivity; [apply sub_loop_del_length|].
  rewrite newlines_pass. apply squeeze_length.
Qed.

Lemma clean_text_chars (t : text) x :
  In x (clean_text U t) -> x = SP \/ (In x t /\ is_space x = false).
Proof.
  rewrite clean_text_tail. intros H. apply In_strip in H.
  apply collapse_In in H as [H|[H Hs]]; [now left|]. right. split; [|exact Hs].
  apply sub_loop_chars in H as [[]|H].
  apply sub_loop_chars in H as [[]|H].
  rewrite newlines_pass in H. eapply squeeze_In, H.
Qed.

(** A text that is tidy and holds neither a page-number token nor an
    isolated number is left as it is. *)
Lemma clean_text_keeps (s : text) :
  tidy s = true ->
  re_search U IGNORECASE Patterns.page_number s = false ->
  re_search U MULTILINE Patterns.digit_line s = false ->
  clean_text U s = s.
Proof.
  intros Ht Hp Hd. rewrite clean_text_tail, newlines_pass.
  unfold squeeze_newlines. rewrite squeeze_no_nl by now apply tidy_no_nl.
  rewrite (re_sub_no_match U IGNORECASE) by exact Hp.
  rewrite (re_sub_no_match U MULTILINE) by exact Hd.
  now apply tidy_strip.
Qed.

End CleanTextMore.

(** Every character of the result of [clean_text] is a single space or a
    character of the argument that is not white space: the cleaning deletes
    text and rewrites white space, and does nothing else. *)
Theorem clean_text_invents_nothing (U : unicode_db) (t : text) :
  Forall (fun x => x = SP \/ (In x t /\ is_space x = false)) (clean_text U t).
Proof. apply List.Forall_forall. intros x. apply clean_text_chars. Qed.

(** A text of white space only, the empty text included, is cleaned to the
    empty text. *)
Theorem clean_text_blank (U : unicode_db) (t : text) :
  forallb is_space t = true -> clean_text U t = [].
Proof.
  intros Hb. pose proof (clean_text_tidy U t) as Ht.
  destruct (clean_text U t) as [|c s] eqn:E; [reflexivity|]. exfalso.
  assert (In c (clean_text U t)) as Hc by (rewrite E; now left).
  unfold tidy in Ht. cbn [spaced_ok] in Ht.
  apply clean_text_chars in Hc as [->|[Hc Hs]].
  - discriminate Ht.
  - rewrite forallb_forall in Hb. apply Hb in Hc. congruence.
Qed.

(** The texts that [clean_text] returns unchanged are exactly the tidy
    ones (no white space but single spaces between other characters) that
    hold neither a page-number token nor an isolated number. *)
Theorem clean_text_fixed_iff (U : unicode_db) (s : text) :
  clean_text U s = s
  <-> tidy s = true
      /\ re_search U IGNORECASE Patterns.page_number s = false
      /\ re_search U MULTILINE Patterns.digit_line s = false.
Proof.
  split.
  - intros E. assert (tidy s = true) as Ht by (rewrite <- E; apply clean_text_tidy).
    split; [exact Ht|]. split; [|rewrite <- E; apply clean_text_no_digit_line].
    destruct (re_search U IGNORECASE Patterns.page_number s) eqn:Hp; [|reflexivity].
    exfalso. pose proof (clean_text_length_from U s) as L.
    rewrite newlines_pass in L. unfold squeeze_newlines in L.
    rewrite squeeze_no_nl in L by now apply tidy_no_nl.
    rewrite E in L.
    pose proof (sub_loop_del_shorter U IGNORECASE Patterns.page_number
                  (2 * length s + 2) None s (page_nonempty U) Hp ltac:(lia)) as L2.
    unfold re_sub in L. lia.
  - intros (Ht & Hp & Hd). now apply clean_text_keeps.
Qed.

(** Cleaning a cleaned text changes it again exactly when the first
    cleaning left a page-number token behind. *)
Theorem clean_text_idempotent_iff (U : unicode_db) (t : text) :
  clean_text U (clean_text U t) = clean_text U t
  <-> re_search U IGNORECASE Patterns.page_number (clean_text U t) = false.
Proof.
  split.
  - intros E. pose proof (clean_text_length_from U (clean_text U t)) as L.
    destruct (re_search U IGNORECASE Patterns.page_number (clean_text U t)) eqn:Hp;
      [|reflexivity].
    exfalso. rewrite newlines_pass in L. unfold squeeze_newlines in L.
    rewrite squeeze_no_nl in L by apply tidy_no_nl, clean_text_tidy.
    rewrite E in L.
    pose proof (sub_loop_del_shorter U IGNORECASE Patterns.page_number
                  (2 * length (clean_text U t) + 2) None (clean_text U t)
                  (page_nonempty U) Hp ltac:(lia)) as L2.
    unfold re_sub in L. lia.
  - intros Hp. apply clean_text_keeps; [apply clean_text_tidy|exact Hp|].
    apply clean_text_no_digit_line.
Qed.

(** On a text without any digit, [clean_text] is white-space normalisation
    and nothing more: every run of white space becomes one space and the
    ends are stripped. *)
Theorem clean_text_without_digits (U : unicode_db) (t : text) :
  forallb (fun c => negb (is_digit U c)) t = true ->
  clean_text U t = strip (collapse_ws t).
Proof.
  intros H. rewrite clean_text_tail, newlines_pass.
  assert (forallb (fun c => negb (is_digit U c)) (squeeze_newlines t) = true) as H1.
  { rewrite forallb_forall in *. intros x Hx. apply H. eapply squeeze_In, Hx. }
  rewrite (re_sub_no_match U IGNORECASE)
    by (unfold re_search; rewrite page_search; now apply no_digit_no_page).
  rewrite (re_sub_no_match U MULTILINE)
    by (unfold re_search; rewrite digit_line_search; now apply no_digit_no_line).
  unfold collapse_ws, squeeze_newlines. rewrite collapse_squeeze; [reflexivity|].
  discriminate.
Qed.

(** [clean_text] never makes a text longer. *)
Theorem clean_text_length (U : unicode_db) (t : text) :
  (length (clean_text U t) <= length t)%nat.
Proof. apply clean_text_length_le. Qed.

(** ** The shape of a fingerprint *)

Section DigestShape.

Lemma le_bytes_length n x : length (MD5.le_bytes n x) = n.
Proof. revert x. induction n as [|n IH]; intros x; cbn; [reflexivity|now rewrite IH]. Qed.

Lemma le_bytes_small n x : Forall (fun b => b < 256) (MD5.le_bytes n x).
Proof.
  revert x. induction n as [|n IH]; intros x; cbn; constructor; [|apply IH].
  now apply N.mod_lt.
Qed.

Lemma digest_shape (msg : bytes) :
  length (MD5.digest msg) = 16%nat /\ Forall (fun b => b < 256) (MD5.digest msg).
Proof.
  unfold MD5.digest.
  destruct (MD5.blocks _ _ _) as [[[a b] c] d].
  split.
  - now rewrite !length_app, !le_bytes_length.
  - repeat (apply Forall_app; split); apply le_bytes_small.
Qed.

Lemma hex_digit_ok n : n < 16 -> is_hex (MD5.hex_digit n) = true.
Proof.
  intros H. unfold MD5.hex_digit, is_hex, in_range.
  destruct (N.ltb_spec n 10).
  - apply orb_true_iff. left. apply andb_true_iff. split; apply N.leb_le; lia.
  - apply orb_true_iff. right. apply andb_true_iff. split; apply N.leb_le; lia.
Qed.

Lemma hexdigest_shape (msg : bytes) :
  length (MD5.hexdigest msg) = 32%nat /\ forallb is_hex (MD5.hexdigest msg) = true.
Proof.
  unfold MD5.hexdigest. destruct (digest_shape msg) as [L F].
  revert L F. generalize (MD5.digest msg). intros d L F. split.
  - clear F. assert (forall l : list N,
              length (flat_map (fun b => [MD5.hex_digit (b / 16);
                                          MD5.hex_digit (b mod 16)]) l)
              = (2 * length l)%nat) as H.
    { induction l as [|b l IH]; [reflexivity|].
      cbn [flat_map app length]. rewrite IH. lia. }
    rewrite H, L. reflexivity.
  - clear L. induction F as [|b d Hb F IH]; [reflexivity|].
    cbn [flat_map app forallb]. rewrite IH.
    rewrite !hex_digit_ok; [reflexivity| |].
    + now apply N.mod_lt.
    + apply N.Div0.div_lt_upper_bound. lia.
Qed.

End DigestShape.

(** [get_file_hash] either returns 32 lower-case hexadecimal digits or
    raises [OSError], the latter exactly when the file cannot be read. *)
Theorem get_file_hash_shape (fs : file_system) (filepath : text) :
  match get_file_hash fs filepath with
  | Ok h => length h = 32%nat /\ forallb is_hex h = true
            /\ is_Some (fs_read fs filepath)
  | Raise e => e = OSError /\ fs_read fs filepath = None
  end.
Proof.
  rewrite get_file_hash_eq. destruct (fs_read fs filepath) as [data|].
  - destruct (hexdigest_shape data) as [L F]. repeat split; eauto.
  - now split.
Qed.

(** ** The cleaning of a page in [process_pdfs] *)

Section CleanPage.
Variable U : unicode_db.

Lemma norm_char_In (c x : char) :
  In x (norm_char c) -> x = c \/ In x [102; 105; 108; 34; 39].
Proof.
  unfold norm_char.
  repeat match goal with
         | |- context [if ?b then _ else _] => destruct b
         end; cbn; intuition.
Qed.

Lemma normalize_text_space (y : text) x :
  In x (normalize_text y) -> is_space x = true -> In x y.
Proof.
  rewrite normalize_text_chars. intros H Hs.
  apply in_flat_map in H as (c & Hc & H).
  apply norm_char_In in H as [->|H]; [exact Hc|].
  cbn in H. decompose [or] H; subst; try discriminate Hs. contradiction.
Qed.

Lemma normalize_text_length (y : text) :
  (length (normalize_text y) <= 2 * length y)%nat.
Proof.
  rewrite normalize_text_chars.
  induction y as [|c y IH]; [cbn; lia|]. cbn [flat_map length].
  rewrite length_app. pose proof (norm_char_length c). lia.
Qed.

Lemma remove_references_In (y : text) x :
  In x (remove_references U y) -> In x y.
Proof.
  rewrite remove_references_eq. destruct (first_ref U None y) as [i|]; [|easy].
  intros H. rewrite <- (take_drop i y). apply in_or_app. now left.
Qed.

Lemma remove_references_length (y : text) :
  (length (remove_references U y) <= length y)%nat.
Proof.
  rewrite remove_references_eq. destruct (first_ref U None y) as [i|]; [|lia].
  rewrite length_take. lia.
Qed.

End CleanPage.

(** The text of a page as it goes to the splitter, with or without the
    removal of the references: it holds none of the five typographic
    characters and no white space other than the plain space (so no line
    break), it is at most twice as long as the extracted text, and with
    [CLEAN_REFERENCES] it holds no whole-word "References" or
    "Bibliography"; the metadata of the page are kept. *)
Theorem clean_page_content (U : unicode_db) (c : collaborators) (d : document) :
  let out := page_content (clean_page U c d) in
  (forall x, In x out -> typographic x = false /\ (is_space x = true -> x = SP))
  /\ (length out <= 2 * length (page_content d))%nat
  /\ (CLEAN_REFERENCES c = true -> first_ref U None out = None)
  /\ metadata (clean_page U c d) = metadata d.
Proof.
  cbn zeta. unfold clean_page. cbn [page_content metadata].
  set (y := normalize_text (clean_text U (page_content d))).
  assert (forall x, In x y -> typographic x = false /\ (is_space x = true -> x = SP))
    as Hy.
  { intros x Hx. split.
    - eapply normalize_text_out, Hx.
    - intros Hs. apply normalize_text_space in Hx; [|exact Hs].
      apply clean_text_chars in Hx as [Hx|[_ Hx]]; [exact Hx|congruence]. }
  assert (length y <= 2 * length (page_content d))%nat as Ly.
  { unfold y. etransitivity; [apply normalize_text_length|].
    pose proof (clean_text_length_le U (page_content d)). lia. }
  clearbody y. destruct (CLEAN_REFERENCES c).
  - split; [|split; [|split]].
    + intros x Hx. apply Hy. exact (remove_references_In U y x Hx).
    + pose proof (remove_references_length U y). lia.
    + intros _. rewrite remove_references_eq.
      destruct (first_ref U None y) as [i|] eqn:F; [exact (first_ref_take U None y i F)|exact F].
    + reflexivity.
  - split; [exact Hy|]. split; [exact Ly|]. split; [discriminate|reflexivity].
Qed.

(** ** The table of known fingerprints *)

Section KnownTable.

Lemma entry_for_records f meta h : entry_for f meta = Some h <-> records meta f h.
Proof.
  unfold entry_for, records. split.
  - destruct (meta !! "source"%string) as [s|]; [|discriminate].
    destruct (meta !! "hash"%string) as [h'|]; [|discriminate].
    destruct (decide (basename s = f)); [|discriminate].
    intros [= ->]. eauto.
  - intros (s & -> & -> & E). now rewrite decide_True.
Qed.

Lemma entry_for_none f meta : entry_for f meta = None <-> forall h, ~ records meta f h.
Proof.
  split.
  - intros E h H. apply entry_for_records in H. congruence.
  - intros H. destruct (entry_for f meta) as [h|] eqn:E; [|reflexivity].
    apply entry_for_records in E. now apply H in E.
Qed.

Lemma record_hash_lookup m meta f :
  record_hash m meta !! f
  = match entry_for f meta with Some h => Some h | None => m !! f end.
Proof.
  unfold record_hash, entry_for.
  destruct (meta !! "source"%string) as [s|]; [|reflexivity].
  destruct (meta !! "hash"%string) as [h|]; [|reflexivity].
  destruct (decide (basename s = f)) as [<-|Hne].
  - apply lookup_insert_eq.
  - now apply lookup_insert_ne.
Qed.

Lemma fold_record_lookup metas m f :
  foldl record_hash m metas !! f
  = match last_entry f metas with Some h => Some h | None => m !! f end.
Proof.
  revert m. induction metas as [|meta metas IH]; intros m; [reflexivity|].
  cbn [foldl last_entry]. rewrite IH, record_hash_lookup.
  destruct (last_entry f metas); reflexivity.
Qed.

Lemma last_entry_none f metas :
  last_entry f metas = None <-> forall m h, In m metas -> ~ records m f h.
Proof.
  induction metas as [|meta metas IH]; cbn [last_entry].
  - split; [intros _ m h []|reflexivity].
  - destruct (last_entry f metas) as [h0|].
    + split; [discriminate|]. intros H. exfalso.
      destruct IH as [_ IH2].
      assert (forall m h, In m metas -> ~ records m f h) as H2
        by (intros m h Hm; apply H; now right).
      specialize (IH2 H2). discriminate IH2.
    + rewrite entry_for_none. split.
      * intros H m h [<-|Hm]; [apply H|]. destruct IH as [IH1 _].
        exact (IH1 eq_refl m h Hm).
      * intros H h. apply H. now left.
Qed.

Lemma last_entry_some f metas h :
  last_entry f metas = Some h
  <-> exists l1 meta l2, metas = l1 ++ meta :: l2 /\ records meta f h
                         /\ forall m h', In m l2 -> ~ records m f h'.
Proof.
  revert h. induction metas as [|meta metas IH]; intros h; cbn [last_entry].
  - split; [discriminate|]. intros (l1 & m & l2 & E & _). destruct l1; discriminate.
  - destruct (last_entry f metas) as [h0|] eqn:L.
    + split.
      * intros [= <-]. destruct (IH h0) as [IH1 _].
        destruct (IH1 eq_refl) as (l1 & m & l2 & -> & R & N).
        exists (meta :: l1), m, l2. auto.
      * intros (l1 & m & l2 & E & R & N). destruct l1 as [|a l1]; cbn in E.
        -- injection E as -> ->. apply last_entry_none in N. congruence.
        -- injection E as -> ->. destruct (IH h) as [_ IH2].
           assert (exists l1' meta l2', l1 ++ m :: l2 = l1' ++ meta :: l2'
                     /\ records meta f h
                     /\ forall m' h', In m' l2' -> ~ records m' f h') as X
             by (exists l1, m, l2; auto).
           specialize (IH2 X). congruence.
    + rewrite entry_for_records. split.
      * intros R. exists [], meta, metas. split; [reflexivity|]. split; [exact R|].
        now apply last_entry_none.
      * intros (l1 & m & l2 & E & R & N). destruct l1 as [|a l1]; cbn in E.
        -- now injection E as -> ->.
        -- injection E as -> ->. exfalso. destruct (IH h) as [_ IH2].
           assert (exists l1' meta l2', l1 ++ m :: l2 = l1' ++ meta :: l2'
                     /\ records meta f h
                     /\ forall m' h', In m' l2' -> ~ records m' f h') as X
             by (exists l1, m, l2; auto).
           specialize (IH2 X). discriminate IH2.
Qed.

(** The last component of a path holds no separator. *)
Lemma last_sep_split (s : text) :
  no_sep s = true \/ exists a b, s = a ++ [SEP] ++ b /\ no_sep b = true.
Proof.
  induction s as [|c s IH]; [now left|].
  destruct IH as [H|(a & b & -> & H)].
  - destruct (N.eqb_spec c SEP) as [->|Hc].
    + right. exists [], s. now split.
    + left. cbn [no_sep forallb]. apply N.eqb_neq in Hc. now rewrite Hc.
  - right. exists (c :: a), b. now split.
Qed.

Lemma basename_has_no_sep (s : text) : no_sep (basename s) = true.
Proof.
  destruct (last_sep_split s) as [H|(a & b & -> & H)].
  - now rewrite basename_no_sep.
  - now rewrite basename_after_sep.
Qed.

End KnownTable.

(** What [load_existing_metadata] knows about a file name [f]: the
    fingerprint of the last stored entry that has both a "source" and a
    "hash" and whose source has [f] as its last component; nothing when there
    is no such entry or no persistence directory.  Entries that lack one of
    the two keys are passed over, and no key of the table holds a path
    separator. *)
Theorem load_existing_metadata_lookup (db : list stored) (f : text) :
  let metas := chroma_get_metadatas db in
  (forall h, load_existing_metadata (Some db) !! f = Some h
             <-> exists l1 meta l2,
                   metas = l1 ++ meta :: l2 /\ records meta f h
                   /\ forall m h', In m l2 -> ~ records m f h')
  /\ (load_existing_metadata (Some db) !! f = None
      <-> forall m h, In m metas -> ~ records m f h)
  /\ (forall d, is_Some (load_existing_metadata d !! f) -> no_sep f = true)
  /\ load_existing_metadata None !! f = None.
Proof.
  cbn zeta. unfold load_existing_metadata.
  repeat split.
  - rewrite fold_record_lookup, lookup_empty. intros H. apply last_entry_some.
    destruct (last_entry f (chroma_get_metadatas db)); [exact H|discriminate].
  - rewrite fold_record_lookup, lookup_empty. intros H.
    apply last_entry_some in H. now rewrite H.
  - rewrite fold_record_lookup, lookup_empty. intros H. apply last_entry_none.
    destruct (last_entry f (chroma_get_metadatas db)); [discriminate|reflexivity].
  - rewrite fold_record_lookup, lookup_empty. intros H.
    apply last_entry_none in H. now rewrite H.
  - intros [db'|] [h H]; [|now rewrite lookup_empty in H].
    rewrite fold_record_lookup, lookup_empty in H.
    destruct (last_entry f (chroma_get_metadatas db')) as [h0|] eqn:L; [|discriminate].
    apply last_entry_some in L as (_ & m & _ & _ & (s & _ & _ & <-) & _).
    apply basename_has_no_sep.
Qed.

(** ** Errors during detection *)

Section DetectionErrors.
Variable U : unicode_db.
Variable fs : file_system.

Lemma scan_folder_unreadable K folder names acc :
  (exists f, In f names /\ is_pdf U f = true
             /\ fs_read fs (path_join folder f) = None) ->
  scan_folder U fs K folder names acc = Raise OSError.
Proof.
  revert acc. induction names as [|g names IH]; intros acc (f & Hin & Hp & Hr).
  - destruct Hin.
  - cbn [scan_folder]. destruct (is_pdf U g) eqn:Eg; cbn [negb].
    + rewrite get_file_hash_eq.
      destruct (fs_read fs (path_join folder g)) as [data|] eqn:Er; [|reflexivity].
      apply IH. destruct Hin as [->|Hin]; [congruence|eauto].
    + apply IH. destruct Hin as [->|Hin]; [congruence|eauto].
Qed.

End DetectionErrors.

(** When the folder cannot be listed, or one of its entries named like a
    PDF cannot be read (a directory "x.pdf", a file without read permission),
    the detection raises [OSError] whatever the other entries are, and
    [update_rag] raises it too, before anything is loaded, embedded or
    stored: the state is the one before the call. *)
Theorem unreadable_entry_stops_update (U : unicode_db) (fs : file_system)
  (c : collaborators) (folder : text) (st : run_state) :
  (fs_listdir fs folder = None
   \/ exists names f, fs_listdir fs folder = Some names /\ In f names
        /\ is_pdf U f = true /\ fs_read fs (path_join folder f) = None) ->
  (forall K, get_new_pdfs U fs folder K = Raise OSError)
  /\ update_rag U fs c folder st = (Raise OSError, st).
Proof.
  intros H.
  assert (forall K, get_new_pdfs U fs folder K = Raise OSError) as HK.
  { intros K. unfold get_new_pdfs, os_listdir.
    destruct H as [->|(names & f & -> & Hin & Hp & Hr)]; [reflexivity|].
    apply scan_folder_unreadable. eauto. }
  split; [exact HK|].
  unfold update_rag, bind, lift. now rewrite HK.
Qed.

(** ** The properties at work *)

Lemma clean_text_blank_witness :
  clean_text ascii_only ([SP; NL; 9; NL; NL; SP]) = [].
Proof. apply clean_text_blank. reflexivity. Defined.

Lemma clean_text_without_digits_witness :
  clean_text ascii_only (lit "  An  abstract" ++ [NL; NL] ++ lit "of the paper. ")
  = strip (collapse_ws (lit "  An  abstract" ++ [NL; NL] ++ lit "of the paper. ")).
Proof. apply clean_text_without_digits. reflexivity. Defined.

Lemma unreadable_entry_stops_update_witness :
  (forall K, get_new_pdfs ascii_only Cases.fs_locked Demo.folder K = Raise OSError)
  /\ update_rag ascii_only Cases.fs_locked Demo.collab Demo.folder Demo.fresh
     = (Raise OSError, Demo.fresh).
Proof.
  apply unreadable_entry_stops_update. right.
  exists [lit "a.PDF"; lit "locked.pdf"], (lit "locked.pdf").
  repeat split; try reflexivity. right. now left.
Defined.
